(** * sparkmon: a terminal dashboard for the Spark status API

    A shallow embedding of [sparkmon.go]: the state aggregation
    ([computeState] and the three endpoint readers), the layout pass of
    [render], and the event loop of [main], followed by the properties of
    the design document that can be stated over them.

    Conventions.
    - A Go [int] is a 64-bit two's complement integer: it is a [Z] and every
      addition and subtraction of the source is followed by [wrap] (see
      [Int]).
    - A Go [string] is a sequence of bytes: a [string] of Rocq, whose
      characters are 8-bit [ascii] values; [len] is [String.length].
    - A Go [float64] is an IEEE 754 binary64 value; see [Float64].
    - A run-time panic and [log.Fatalf] both end the process; they are the
      two failures of [outcome].
    - Library code that is not part of the repository is taken by its
      documented contract: [sort.Slice] sorts but promises no stability,
      [http.Get], [ioutil.ReadAll] and [json.Unmarshal] succeed or return an
      error, termui's [SetRect] stores [image.Rect] of its arguments. *)

From Stdlib Require Import ZArith QArith Qround Qpower Qabs Lqa Lia SpecFloat.
From Stdlib Require Import String Ascii DecimalString.
From Stdlib Require Import Sorted Permutation.
From stdpp Require Import base option list strings sorting gmap.

#[local] Open Scope string_scope.
#[local] Open Scope list_scope.
#[local] Open Scope Z_scope.

(* ================================================================== *)
(** * Go's [int] *)

Module Int.

Definition min_int : Z := - 2 ^ 63.
Definition max_int : Z := 2 ^ 63 - 1.

(** The value an [int] holds after an arithmetic result [z]. *)
Definition wrap (z : Z) : Z := (z + 2 ^ 63) mod 2 ^ 64 - 2 ^ 63.

Definition in_range (z : Z) : Prop := min_int <= z <= max_int.
Definition in_rangeb (z : Z) : bool := (min_int <=? z) && (z <=? max_int).

Definition add (a b : Z) : Z := wrap (a + b).
Definition sub (a b : Z) : Z := wrap (a - b).
(** [a / b] of Go truncates toward zero. *)
Definition quot (a b : Z) : Z := wrap (Z.quot a b).

End Int.

Notation "a +! b" := (Int.add a b) (at level 50, left associativity).
Notation "a -! b" := (Int.sub a b) (at level 50, left associativity).

(* ================================================================== *)
(** * Go's [float64]

    A binary64 value is NaN, an infinity, or a finite value, kept as its
    sign and its magnitude (an exact rational, zero for the two zeros).
    Every operation returns the exact result rounded to the nearest
    representable value, ties to even, as IEEE 754 defines it. *)

Module Float64.

Definition prec : Z := 53.
Definition emax : Z := 1024.
Definition emin : Z := 3 - emax - prec.

Inductive float64 : Type :=
| NaN
| Inf (neg : bool)
| Fin (neg : bool) (mag : Q).

(** Rounding a rational to the nearest integer, ties to even. *)
Definition rne (q : Q) : Z :=
  let f := Qfloor q in
  match Qcompare (q - inject_Z f) (1 # 2) with
  | Lt => f
  | Gt => f + 1
  | Eq => if Z.even f then f else f + 1
  end.

(** The binade of a positive rational: [2^(binade q - 1) <= q < 2^binade q]. *)
Definition binade (q : Q) : Z :=
  let e0 := Z.log2 (Qnum q) - Z.log2 (Zpos (Qden q)) in
  if Qle_bool (2 ^ e0) q then e0 + 1 else e0.

(** The exponent of the last place of the format at [q]. *)
Definition ulp_exp (q : Q) : Z := Z.max (binade q - prec) emin.

(** The representable magnitude nearest to a positive rational. *)
Definition round_mag (q : Q) : Q :=
  let g := ulp_exp q in
  (inject_Z (rne (q / 2 ^ g)) * 2 ^ g)%Q.

(** The binary64 value of the exact result [(-1)^neg * q], [0 <= q]. *)
Definition round (neg : bool) (q : Q) : float64 :=
  if Qle_bool q 0 then Fin neg 0
  else
    let r := round_mag q in
    if Qle_bool (2 ^ emax) r then Inf neg else Fin neg r.

(** [float64(z)] for an [int] [z]. *)
Definition of_int (z : Z) : float64 := round (z <? 0)%Z (inject_Z (Z.abs z)).

(** [a / b]. *)
Definition div (a b : float64) : float64 :=
  match a, b with
  | NaN, _ | _, NaN => NaN
  | Inf _, Inf _ => NaN
  | Inf s, Fin t _ => Inf (xorb s t)
  | Fin s _, Inf t => Fin (xorb s t) 0
  | Fin s x, Fin t y =>
      if Qle_bool y 0
      then (if Qle_bool x 0 then NaN else Inf (xorb s t))
      else round (xorb s t) (x / y)
  end.

(** [a * b]. *)
Definition mul (a b : float64) : float64 :=
  match a, b with
  | NaN, _ | _, NaN => NaN
  | Inf s, Inf t => Inf (xorb s t)
  | Inf s, Fin t y => if Qle_bool y 0 then NaN else Inf (xorb s t)
  | Fin s x, Inf t => if Qle_bool x 0 then NaN else Inf (xorb s t)
  | Fin s x, Fin t y => round (xorb s t) (x * y)
  end.

(** [math.Ceil]: the least integer value not below [x]; NaN, the
    infinities and the zeros are returned as they are. *)
Definition Ceil (x : float64) : float64 :=
  match x with
  | NaN => NaN
  | Inf s => Inf s
  | Fin false q => Fin false (inject_Z (Qceiling q))
  | Fin true q => Fin true (inject_Z (Qfloor q))
  end.

(** [int(x)]: the fraction is discarded. When the result is not an [int]
    value (NaN, an infinity, a magnitude of 2^63 or more) the conversion
    still succeeds and Go leaves its value to the implementation: [arch]
    is that choice. *)
Definition to_int (arch : float64 -> Z) (x : float64) : Z :=
  match x with
  | Fin s q =>
      let z := if s then (- Qfloor q)%Z else Qfloor q in
      if Int.in_rangeb z then z else arch x
  | _ => arch x
  end.

(** The constant [100] of the source, as a [float64]. *)
Definition hundred : float64 := Fin false 100.

(** What amd64 leaves for a value that is not an [int] (the result of
    CVTTSD2SQ), and what arm64 leaves (FCVTZS saturates, NaN gives 0). *)
Definition amd64 (x : float64) : Z := Int.min_int.
Definition arm64 (x : float64) : Z :=
  match x with
  | NaN => 0
  | Inf true | Fin true _ => Int.min_int
  | Inf false | Fin false _ => Int.max_int
  end.

End Float64.

Import Float64.

(* ================================================================== *)
(** * Strings *)

(** [len(s)]. *)
Definition len (s : string) : Z := Z.of_nat (String.length s).

(** [%v] of an [int]: its decimal digits, with a minus sign when negative. *)
Definition Sprint_int (z : Z) : string := NilZero.string_of_int (Z.to_int z).

(** The line feed that [strings.Split(_, "\n")] splits on. *)
Definition LF : ascii := ascii_of_nat 10.

(** [strings.Split(s, "\n")]: the pieces between line feeds, in order;
    a string with [n] line feeds has [n + 1] pieces, some possibly empty. *)
Fixpoint Split_LF (s : string) : list string :=
  match s with
  | EmptyString => [EmptyString]
  | String c rest =>
      if Ascii.eqb c LF then EmptyString :: Split_LF rest
      else match Split_LF rest with
           | piece :: pieces => String c piece :: pieces
           | [] => [String c EmptyString]
           end
  end.

(** [strings.HasPrefix(s, p)]. *)
Definition HasPrefix (s p : string) : bool := String.prefix p s.

(* ================================================================== *)
(** * How a call ends *)

Inductive outcome (A : Type) : Type :=
| Ret (a : A)
| Panic (msg : string)      (* a run-time panic *)
| Fatal (msg : string).     (* log.Fatalf: the message is logged, the process exits *)
Arguments Ret {A} a.
Arguments Panic {A} msg.
Arguments Fatal {A} msg.

#[global] Instance outcome_ret : MRet outcome := fun A a => Ret a.
#[global] Instance outcome_bind : MBind outcome := fun A B f m =>
  match m with
  | Ret a => f a
  | Panic msg => Panic msg
  | Fatal msg => Fatal msg
  end.

(** [s[:hi]]. *)
Definition slice_to (s : string) (hi : Z) : outcome string :=
  if (hi <? 0) || (len s <? hi)
  then Panic "slice bounds out of range"
  else Ret (substring 0 (Z.to_nat hi) s).

(* ================================================================== *)
(** * The data model (the [type] declarations of the source) *)

Module ApplicationIdAndName.
Record t : Type := mk { Id : string; Name : string }.
End ApplicationIdAndName.

Module Job.
Record t : Type := mk {
  Index : Z;
  Name : string;
  Stages : list Z;
  Status : string }.
End Job.

Module Stage.
Record t : Type := mk {
  Index : Z;
  Name : string;
  Details : string;
  Status : string;
  Tasks : Z;
  ActiveTasks : Z;
  CompletedTasks : Z;
  FailedTasks : Z;
  KilledTasks : Z }.

(** The zero value [Stage{}]. *)
Definition zero : t := mk 0 "" "" "" 0 0 0 0 0.
End Stage.

Module EnrichedJob.
Record t : Type := mk { Job : Job.t; Stages : list Stage.t }.
End EnrichedJob.

Module EnrichedApplication.
Record t : Type := mk { App : ApplicationIdAndName.t; Jobs : list EnrichedJob.t }.
End EnrichedApplication.

Module State.
Record t : Type := mk { Apps : list EnrichedApplication.t; Host : string }.
End State.

(* ================================================================== *)
(** * The draw surface (termui), as far as [render] uses it *)

Module image.

Record Rectangle : Type := mk { MinX : Z; MinY : Z; MaxX : Z; MaxY : Z }.

(** [image.Rect(x0, y0, x1, y1)]: the corners are swapped where needed so
    that the rectangle is well formed. *)
Definition Rect (x0 y0 x1 y1 : Z) : Rectangle :=
  mk (Z.min x0 x1) (Z.min y0 y1) (Z.max x0 x1) (Z.max y0 y1).

(** [r.Empty()]: the rectangle holds no point. *)
Definition Empty (r : Rectangle) : bool :=
  (MaxX r <=? MinX r) || (MaxY r <=? MinY r).

(** [r.Overlaps(s)]: the two rectangles share a point. *)
Definition Overlaps (r s : Rectangle) : bool :=
  negb (Empty r) && negb (Empty s)
  && (MinX r <? MaxX s) && (MinX s <? MaxX r)
  && (MinY r <? MaxY s) && (MinY s <? MaxY r).

Definition Dy (r : Rectangle) : Z := MaxY r - MinY r.

End image.

(** The text modifiers and colours the source sets; [Theme] is what the
    widget's constructor leaves when the source sets nothing. *)
Inductive Modifier : Type :=
| ThemeModifier
| ModifierClear
| ModifierBold
| ModifierBold_plus_Underline.

Inductive Color : Type := ThemeColor | ColorRed.

Inductive Widget : Type :=
| Paragraph (Text : string) (TextModifier : Modifier) (TextFg : Color)
| Block (Title : string) (TitleModifier : Modifier)
| Gauge (Label : string) (Percent : Z).

(** A widget as [ui.Render] receives it: what it shows, whether it draws
    a border, and the rectangle its last [SetRect] gave it. *)
Record Drawable : Type := mkDrawable {
  widget : Widget;
  Border : bool;
  Rectangle : image.Rectangle }.

(** [w.SetRect(x1, y1, x2, y2)] stores [image.Rect(x1, y1, x2, y2)]. *)
Definition SetRect (w : Widget) (border : bool) (x1 y1 x2 y2 : Z) : Drawable :=
  mkDrawable w border (image.Rect x1 y1 x2 y2).

(* ================================================================== *)
(** * [render]: the layout pass *)

Section Layout.

(** The target's choice for [int(x)] of a value no [int] holds. *)
Variable arch : float64 -> Z.

(** [bar.Percent]. *)
Definition percent (stage : Stage.t) : Z :=
  to_int arch
    (Ceil (mul (div (of_int (Stage.CompletedTasks stage)) (of_int (Stage.Tasks stage)))
               hundred)).

(** [bar.Label]. *)
Definition barLabel (stage : Stage.t) : string :=
  if Stage.ActiveTasks stage =? 0
  then Sprint_int (Stage.CompletedTasks stage) +:+ "/" +:+ Sprint_int (Stage.Tasks stage)
  else Sprint_int (Stage.CompletedTasks stage) +:+ "/" +:+ Sprint_int (Stage.Tasks stage)
       +:+ " (" +:+ Sprint_int (Stage.ActiveTasks stage) +:+ " active)".

(** The label before truncation. *)
Definition labelText (stage : Stage.t) : string :=
  Sprint_int (Stage.Index stage) +:+ " " +:+ Stage.Status stage +:+ ": " +:+ Stage.Name stage.

(** The truncation of a label to [labelWidth]. *)
Definition truncateLabel (labelWidth : Z) (text : string) : outcome string :=
  if labelWidth <? len text
  then head ← slice_to text (labelWidth -! 3); Ret (head +:+ "...")
  else Ret text.

(** The loop over the lines of [details]: the first line that does not
    start with [org.apache], if there is one. *)
Definition firstForeignLine (details : string) : option string :=
  List.find (fun text => negb (HasPrefix text "org.apache")) (Split_LF details).

(** [detailsText]. *)
Definition detailsText (details : string) : string :=
  match firstForeignLine details with
  | Some text => text
  | None => "<spark internal>"
  end.

(** The body of the loop over [job.Stages]: the three widgets of a stage
    and [currentInternalHeight] after it. *)
Definition renderStage (width labelWidth currentHeight : Z) (stage : Stage.t)
    (currentInternalHeight : Z) : outcome (Z * list Drawable) :=
  text ← truncateLabel labelWidth (labelText stage);
  let label :=
    SetRect (Paragraph text ThemeModifier ThemeColor) false
      2 (currentHeight +! currentInternalHeight)
      labelWidth (currentHeight +! currentInternalHeight +! 1) in
  let bar :=
    SetRect (Gauge (barLabel stage) (percent stage)) false
      labelWidth (currentHeight +! currentInternalHeight)
      (width -! 2) (currentHeight +! currentInternalHeight +! 1) in
  let currentInternalHeight := currentInternalHeight +! 1 in
  let details :=
    SetRect (Paragraph (detailsText (Stage.Details stage)) ModifierClear ColorRed) false
      2 (currentHeight +! currentInternalHeight)
      (width -! 2) (currentHeight +! currentInternalHeight +! 1) in
  let currentInternalHeight := currentInternalHeight +! 1 in
  Ret (currentInternalHeight, [label; bar; details]).

(** The loop over [job.Stages]. *)
Fixpoint renderStages (width labelWidth currentHeight : Z) (stages : list Stage.t)
    (currentInternalHeight : Z) : outcome (Z * list Drawable) :=
  match stages with
  | [] => Ret (currentInternalHeight, [])
  | stage :: rest =>
      '(currentInternalHeight, ds) ←
        renderStage width labelWidth currentHeight stage currentInternalHeight;
      '(currentInternalHeight, ds') ←
        renderStages width labelWidth currentHeight rest currentInternalHeight;
      Ret (currentInternalHeight, ds ++ ds')
  end.

(** The body of the loop over [app.Jobs]. The job's block is appended
    before the widgets of its stages and its rectangle is set after them:
    the list holds the block with that final rectangle. *)
Definition renderJob (width labelWidth currentHeight : Z) (job : EnrichedJob.t)
    (currentInternalHeight : Z) : outcome (Z * list Drawable) :=
  let title :=
    Job.Name (EnrichedJob.Job job) +:+ " (Stage "
      +:+ Sprint_int (Job.Index (EnrichedJob.Job job)) +:+ ")" in
  let initialHeight := currentInternalHeight in
  let currentInternalHeight := currentInternalHeight +! 1 in
  '(currentInternalHeight, ds) ←
    renderStages width labelWidth currentHeight (EnrichedJob.Stages job)
      currentInternalHeight;
  let currentInternalHeight := currentInternalHeight +! 1 in
  let jobBlock :=
    SetRect (Block title ModifierClear) true
      1 (currentHeight +! initialHeight)
      (width -! 1) (currentHeight +! currentInternalHeight) in
  Ret (currentInternalHeight, jobBlock :: ds).

(** The loop over [app.Jobs]. *)
Fixpoint renderJobs (width labelWidth currentHeight : Z) (jobs : list EnrichedJob.t)
    (currentInternalHeight : Z) : outcome (Z * list Drawable) :=
  match jobs with
  | [] => Ret (currentInternalHeight, [])
  | job :: rest =>
      '(currentInternalHeight, ds) ←
        renderJob width labelWidth currentHeight job currentInternalHeight;
      '(currentInternalHeight, ds') ←
        renderJobs width labelWidth currentHeight rest currentInternalHeight;
      Ret (currentInternalHeight, ds ++ ds')
  end.

(** The body of the loop over [state.Apps]: the widgets of one
    application and [currentHeight] after it. *)
Definition renderApp (width : Z) (app : EnrichedApplication.t) (currentHeight : Z)
    : outcome (Z * list Drawable) :=
  let labelWidth := Int.quot width 2 in
  let currentInternalHeight := 1 in
  let title :=
    ApplicationIdAndName.Name (EnrichedApplication.App app) +:+ " ("
      +:+ ApplicationIdAndName.Id (EnrichedApplication.App app) +:+ ")" in
  '(currentInternalHeight, ds) ←
    renderJobs width labelWidth currentHeight (EnrichedApplication.Jobs app)
      currentInternalHeight;
  let root :=
    SetRect (Block title ModifierBold_plus_Underline) true
      0 currentHeight width (currentHeight +! currentInternalHeight +! 1) in
  Ret (currentHeight +! (currentInternalHeight +! 1), root :: ds).

(** The loop over [state.Apps]. *)
Fixpoint renderApps (width : Z) (apps : list EnrichedApplication.t) (currentHeight : Z)
    : outcome (list Drawable) :=
  match apps with
  | [] => Ret []
  | app :: rest =>
      '(currentHeight, ds) ← renderApp width app currentHeight;
      ds' ← renderApps width rest currentHeight;
      Ret (ds ++ ds')
  end.

(** [render] up to [ui.Clear]: the list [drawables] it hands to
    [ui.Render], or the panic that ends it. *)
Definition layout (width height : Z) (state : State.t) : outcome (list Drawable) :=
  let currentHeight := 0 in
  let clusterInfo :=
    SetRect (Paragraph ("Running against Spark on " +:+ State.Host state)
               ModifierBold ThemeColor) false
      0 0 width (currentHeight +! 1) in
  let currentHeight := currentHeight +! 2 in
  ds ← renderApps width (State.Apps state) currentHeight;
  Ret (clusterInfo :: ds).

End Layout.

(* ================================================================== *)
(** * The process and the world around it *)

Section Program.

Variable arch : float64 -> Z.

(** The network and the monitored engine: a state [W] that every call may
    read and change, responses, and the three library calls of
    [readApiEndpoint]; an [error] is its message. *)
Variable W : Type.
Variable Response : Type.
Variable http_Get : string -> W -> (string + Response) * W.
Variable ioutil_ReadAll : Response -> W -> (string + string) * W.

(** [json.Unmarshal(body, &out)] at the three types [out] points to: the
    value of [out] afterwards, or the error. *)
Variable Unmarshal_apps :
  string -> list ApplicationIdAndName.t -> string + list ApplicationIdAndName.t.
Variable Unmarshal_jobs : string -> list Job.t -> string + list Job.t.
Variable Unmarshal_stages : string -> list Stage.t -> string + list Stage.t.

(** [sort.Slice(x, less)]: the slice after the call ([less] is given the
    elements rather than their positions). *)
Variable sort_Slice : forall A : Type, (A -> A -> bool) -> list A -> list A.

(** The terminal: [ui.Init] and [ui.TerminalDimensions]. *)
Variable ui_Init : W -> option string * W.
Variable ui_TerminalDimensions : W -> Z * Z.

(** What the process does to the world, in order. *)
Inductive IOEvent : Type :=
| EvGet (url : string)
| EvClear
| EvRender (drawables : list Drawable)
| EvClose.

Record World : Type := mkWorld { net : W; trace : list IOEvent }.

Definition IO (A : Type) : Type := World -> outcome (A * World).

#[global] Instance IO_ret : MRet IO := fun A a w => Ret (a, w).
#[global] Instance IO_bind : MBind IO := fun A B f m w =>
  match m w with
  | Ret (a, w') => f a w'
  | Panic msg => Panic msg
  | Fatal msg => Fatal msg
  end.

Definition lift {A : Type} (o : outcome A) : IO A := fun w =>
  match o with
  | Ret a => Ret (a, w)
  | Panic msg => Panic msg
  | Fatal msg => Fatal msg
  end.

Definition emit (e : IOEvent) : IO unit := fun w =>
  Ret (tt, mkWorld (net w) (trace w ++ [e])).

(** A library call on the network. *)
Definition call {A : Type} (f : W -> A * W) : IO A := fun w =>
  let '(a, n) := f (net w) in Ret (a, mkWorld n (trace w)).

Definition log_Fatalf {A : Type} (msg : string) : IO A := fun _ => Fatal msg.

(* ------------------------------------------------------------------ *)
(** ** The state aggregation *)

(** [readApiEndpoint(host, endpoint, out)], returning what [out] points
    to afterwards. *)
Definition readApiEndpoint {A : Type} (Unmarshal : string -> A -> string + A)
    (host endpoint : string) (out : A) : IO A :=
  emit (EvGet (host +:+ endpoint));;
  r ← call (http_Get (host +:+ endpoint));
  match r with
  | inl err => log_Fatalf ("Failed to GET endpoint " +:+ endpoint +:+ ": " +:+ err)
  | inr resp =>
      b ← call (ioutil_ReadAll resp);
      match b with
      | inl err => log_Fatalf ("Failed to read body for " +:+ endpoint +:+ ": " +:+ err)
      | inr body =>
          match Unmarshal body out with
          | inl err =>
              log_Fatalf ("Failed to parse applications response for "
                            +:+ endpoint +:+ ": " +:+ err)
          | inr v => mret v
          end
      end
  end.

Definition getApplications (host : string) : IO (list ApplicationIdAndName.t) :=
  readApiEndpoint Unmarshal_apps host "/api/v1/applications" [].

Definition getJobs (host : string) (app : ApplicationIdAndName.t) : IO (list Job.t) :=
  let endpoint := "/api/v1/applications/" +:+ ApplicationIdAndName.Id app +:+ "/jobs" in
  jobs ← readApiEndpoint Unmarshal_jobs host endpoint [];
  mret (sort_Slice Job.t (fun a b => Job.Index a <? Job.Index b) jobs).

Definition getStages (host : string) (app : ApplicationIdAndName.t) : IO (list Stage.t) :=
  let endpoint := "/api/v1/applications/" +:+ ApplicationIdAndName.Id app +:+ "/stages" in
  stages ← readApiEndpoint Unmarshal_stages host endpoint [];
  mret (sort_Slice Stage.t (fun a b => Stage.Index a <? Stage.Index b) stages).

(** [stagesMap] after the loop that fills it. *)
Definition stagesMap (stages : list Stage.t) : gmap Z Stage.t :=
  foldl (fun m stage => <[Stage.Index stage := stage]> m) ∅ stages.

(** [stagesMap[jobStage]]: the zero value when the key is absent. *)
Definition map_index (m : gmap Z Stage.t) (jobStage : Z) : Stage.t :=
  default Stage.zero (m !! jobStage).

(** The body of the loop over [jobs]. *)
Definition enrichJob (m : gmap Z Stage.t) (job : Job.t) : EnrichedJob.t :=
  EnrichedJob.mk job (map (map_index m) (Job.Stages job)).

(** The body of the loop over [apps]. *)
Definition enrichApp (host : string) (app : ApplicationIdAndName.t)
    : IO EnrichedApplication.t :=
  jobs ← getJobs host app;
  stages ← getStages host app;
  mret (EnrichedApplication.mk app (map (enrichJob (stagesMap stages)) jobs)).

(** The loop over [apps]. *)
Fixpoint enrichApps (host : string) (apps : list ApplicationIdAndName.t)
    : IO (list EnrichedApplication.t) :=
  match apps with
  | [] => mret []
  | app :: rest =>
      e ← enrichApp host app;
      es ← enrichApps host rest;
      mret (e :: es)
  end.

Definition computeState (host : string) : IO State.t :=
  apps ← getApplications host;
  appsEnriched ← enrichApps host apps;
  mret (State.mk appsEnriched host).

(* ------------------------------------------------------------------ *)
(** ** [render] and the event loop *)

Definition render (width height : Z) (state : State.t) : IO unit :=
  drawables ← lift (layout arch width height state);
  emit EvClear;;
  emit (EvRender drawables).

(** A termui event: its [ID] and its payload, a [ui.Resize] or not. *)
Inductive Payload : Type :=
| Resize (Width Height : Z)
| OtherPayload.

Record Event : Type := mkEvent { ID : string; payload : Payload }.

(** The case of the [select] that fires. *)
Inductive Wakeup : Type :=
| uiEvents (e : Event)
| ticker.

(** The variables [main] holds across iterations. *)
Record Held : Type := mkHeld { state : State.t; termWidth : Z; termHeight : Z }.

(** One iteration of the [for] loop: [None] when [main] returns. *)
Definition iteration (host : string) (wakeup : Wakeup) (h : Held) : IO (option Held) :=
  match wakeup with
  | uiEvents e =>
      if String.eqb (ID e) "r" then
        state ← computeState host;
        render (termWidth h) (termHeight h) state;;
        mret (Some (mkHeld state (termWidth h) (termHeight h)))
      else if String.eqb (ID e) "q" || String.eqb (ID e) "<C-c>" then
        mret None
      else if String.eqb (ID e) "<Resize>" then
        match payload e with
        | Resize Width Height =>
            render Width Height (state h);;
            mret (Some (mkHeld (state h) Width Height))
        | OtherPayload => lift (Panic "interface conversion")
        end
      else mret (Some h)
  | ticker =>
      state ← computeState host;
      render (termWidth h) (termHeight h) state;;
      mret (Some (mkHeld state (termWidth h) (termHeight h)))
  end.

(** The loop over the wakeups that arrive: [None] when [main] has
    returned, the held variables when it waits for the next one. *)
Fixpoint loop (host : string) (wakeups : list Wakeup) (h : Held) : IO (option Held) :=
  match wakeups with
  | [] => mret (Some h)
  | wakeup :: rest =>
      r ← iteration host wakeup h;
      match r with
      | None => mret None
      | Some h' => loop host rest h'
      end
  end.

(** [main] with the arguments [Args] of the process. The deferred
    [ui.Close] runs when [main] returns; it does not run when the process
    ends in [log.Fatalf], and when it runs while a panic unwinds, the
    outcome [Panic] does not show it. *)
Definition main (Args : list string) (wakeups : list Wakeup) : IO (option Held) :=
  r ← call ui_Init;
  match r with
  | Some err => log_Fatalf ("failed to initialize termui: " +:+ err)
  | None =>
      let host := match Args with _ :: host :: _ => host | _ => "http://localhost:4040" end in
      state ← computeState host;
      '(termWidth, termHeight) ← call (fun n => (ui_TerminalDimensions n, n));
      render termWidth termHeight state;;
      r ← loop host wakeups (mkHeld state termWidth termHeight);
      match r with
      | None => emit EvClose;; mret None
      | Some h => mret (Some h)
      end
  end.

End Program.

Arguments mkWorld {W} net trace.
Arguments net {W} w.
Arguments trace {W} w.

(* ================================================================== *)
(** * Sample data

    One stage of the sample job of [spark_sample] as the status API
    reports it, the job and the application around it; the examples
    below evaluate the program on them. *)

Module Sample.

Definition stage (index completed tasks active : Z) : Stage.t :=
  Stage.mk index "map at Main.scala:12"
    ("org.apache.spark.sql.Dataset.map(Dataset.scala:2341)"
       +:+ String LF "Main$.main(Main.scala:12)")
    "ACTIVE" tasks active completed 0 0.

Definition job : EnrichedJob.t :=
  EnrichedJob.mk (Job.mk 0 "collect at Main.scala:18" [3] "RUNNING") [stage 3 3 10 2].

Definition app : EnrichedApplication.t :=
  EnrichedApplication.mk (ApplicationIdAndName.mk "local-1" "SparkTestServer") [job].

Definition state : State.t := State.mk [app] "http://localhost:4040".

(** An application with two jobs of one stage each. *)
Definition twoJobs : State.t :=
  State.mk
    [EnrichedApplication.mk (ApplicationIdAndName.mk "local-1" "SparkTestServer")
       [job; EnrichedJob.mk (Job.mk 1 "count at Main.scala:9" [4] "RUNNING")
               [stage 4 0 10 1]]]
    "http://localhost:4040".

(** A stage that only exists as a reference: every field is zero. *)
Definition bare : EnrichedJob.t :=
  EnrichedJob.mk (Job.mk 0 "" [0] "") [Stage.zero].

(** The smallest state that has a stage to draw. *)
Definition bareState : State.t :=
  State.mk [EnrichedApplication.mk (ApplicationIdAndName.mk "" "") [bare]] "".

End Sample.

(** A state has something to draw in a label when one of its jobs has a
    resolved stage. *)
Definition has_stage (state : State.t) : Prop :=
  exists app job stage,
    In app (State.Apps state)
    /\ In job (EnrichedApplication.Jobs app)
    /\ In stage (EnrichedJob.Stages job).

(* ================================================================== *)
(** * Vocabulary of the failure properties *)

(** A call returns, or it is fatal: it never panics. *)
Definition no_panic {A : Type} (o : outcome A) : Prop :=
  match o with Panic _ => False | _ => True end.

(** A refresh: the timer, or the key [r]. *)
Definition refresh (wakeup : Wakeup) : Prop :=
  wakeup = ticker \/ exists p, wakeup = uiEvents (mkEvent "r" p).

(** An application none of whose jobs has a stage. *)
Definition no_stage (app : EnrichedApplication.t) : Prop :=
  Forall (fun job => EnrichedJob.Stages job = []) (EnrichedApplication.Jobs app).

(* ================================================================== *)
(** * Vocabulary of the layout properties *)

(** A widget is the frame of an application (0), the frame of a job (1)
    or content: the header, a label, a gauge or a detail line (2). *)
Definition layer (d : Drawable) : nat :=
  match widget d with
  | Block _ ModifierBold_plus_Underline => 0
  | Block _ _ => 1
  | _ => 2
  end.

Definition overlap (a b : Drawable) : bool :=
  image.Overlaps (Rectangle a) (Rectangle b).

(** Widgets of one layer keep apart. *)
Definition apart (a b : Drawable) : Prop :=
  layer a = layer b -> overlap a b = false.

(** Every widget of [ds] lies in the rows [lo .. hi - 1]. *)
Definition Band (lo hi : Z) (ds : list Drawable) : Prop :=
  Forall (fun d => lo <= image.MinY (Rectangle d) /\ image.MaxY (Rectangle d) <= hi) ds.

(** The widgets of a job in the list: its frame, then the widgets of its
    stages; and those of an application: its frame, then its jobs. *)
Definition jobBlockOf (J : Drawable * list Drawable) : list Drawable :=
  fst J :: snd J.

Definition appBlockOf (A : Drawable * list (Drawable * list Drawable)) : list Drawable :=
  fst A :: flat_map jobBlockOf (snd A).

(** A frame of a job with three content widgets for each of its stages;
    a frame of an application with such a block for each of its jobs. *)
Definition jobShape (job : EnrichedJob.t) (J : Drawable * list Drawable) : Prop :=
  layer (fst J) = 1%nat
  /\ length (snd J) = (3 * length (EnrichedJob.Stages job))%nat
  /\ Forall (fun d => layer d = 2%nat) (snd J).

Definition appShape (app : EnrichedApplication.t)
    (A : Drawable * list (Drawable * list Drawable)) : Prop :=
  layer (fst A) = 0%nat
  /\ Forall2 jobShape (EnrichedApplication.Jobs app) (snd A).

(** No widget of [ds] overlaps one of [ds']. *)
Definition disjoint (ds ds' : list Drawable) : Prop :=
  forall a b, In a ds -> In b ds' -> overlap a b = false.

(** The rows the layout gives to a job, an application and a state. *)
Definition jobRows (job : EnrichedJob.t) : Z :=
  1 + 2 * Z.of_nat (length (EnrichedJob.Stages job)) + 1.

Definition jobsRows (jobs : list EnrichedJob.t) : Z :=
  fold_right (fun job n => jobRows job + n) 0 jobs.

Definition appRows (app : EnrichedApplication.t) : Z :=
  1 + jobsRows (EnrichedApplication.Jobs app) + 1.

Definition appsRows (apps : list EnrichedApplication.t) : Z :=
  fold_right (fun app n => appRows app + n) 0 apps.

Definition stateRows (state : State.t) : Z := 2 + appsRows (State.Apps state).

(* ================================================================== *)
(** * A small engine to run the program against

    The status API of one application with two jobs, the second of which
    lists its stages as [2; 1]; responses are the endpoint's path, which
    the decoders below read. Each request is counted in the state of the
    network. [insertionSort] is the insertion sort that [sort.Slice] runs
    on a short slice. *)

Module Demo.

Definition W : Type := nat.
Definition Response : Type := string.

Definition host : string := "http://localhost:4040".

Definition http_Get (url : string) (n : W) : (string + Response) * W :=
  (if String.prefix host url
   then inr (substring (String.length host) (String.length url) url)
   else inl "connection refused", S n).

Definition ioutil_ReadAll (resp : Response) (n : W) : (string + string) * W :=
  (inr resp, n).

Definition app : ApplicationIdAndName.t :=
  ApplicationIdAndName.mk "local-1" "SparkTestServer".

Definition jobs : list Job.t :=
  [Job.mk 1 "collect at Main.scala:18" [2; 1] "RUNNING";
   Job.mk 0 "count at Main.scala:9" [0] "SUCCEEDED"].

Definition stage (index : Z) : Stage.t :=
  Stage.mk index "map at Main.scala:12" "Main$.main(Main.scala:12)" "ACTIVE" 10 2 3 0 0.

Definition stages : list Stage.t := [stage 2; stage 0; stage 1].

Definition Unmarshal_apps (body : string) (out : list ApplicationIdAndName.t)
    : string + list ApplicationIdAndName.t :=
  if String.eqb body "/api/v1/applications" then inr [app]
  else inl "invalid character".

Definition Unmarshal_jobs (body : string) (out : list Job.t) : string + list Job.t :=
  if String.eqb body "/api/v1/applications/local-1/jobs" then inr jobs
  else inl "invalid character".

Definition Unmarshal_stages (body : string) (out : list Stage.t)
    : string + list Stage.t :=
  if String.eqb body "/api/v1/applications/local-1/stages" then inr stages
  else inl "invalid character".

(** The inner loop of the insertion sort: the new element moves left
    past the elements it is less than. [sorted] is the prefix already
    sorted, last element first. *)
Fixpoint insertLeft {A : Type} (less : A -> A -> bool) (x : A) (sorted : list A)
    : list A :=
  match sorted with
  | [] => [x]
  | y :: rest => if less x y then y :: insertLeft less x rest else x :: y :: rest
  end.

Definition insertionSort (A : Type) (less : A -> A -> bool) (l : list A) : list A :=
  rev (fold_left (fun sorted x => insertLeft less x sorted) l []).

Definition ui_Init (n : W) : option string * W := (None, n).
Definition ui_TerminalDimensions (n : W) : Z * Z := (80, 24).

Definition computeState : string -> IO W State.t :=
  computeState W Response http_Get ioutil_ReadAll
    Unmarshal_apps Unmarshal_jobs Unmarshal_stages insertionSort.

Definition iteration : string -> Wakeup -> Held -> IO W (option Held) :=
  iteration amd64 W Response http_Get ioutil_ReadAll
    Unmarshal_apps Unmarshal_jobs Unmarshal_stages insertionSort.

Definition main : list string -> list Wakeup -> IO W (option Held) :=
  main amd64 W Response http_Get ioutil_ReadAll
    Unmarshal_apps Unmarshal_jobs Unmarshal_stages insertionSort
    ui_Init ui_TerminalDimensions.

Definition start : World W := mkWorld 0%nat [].

End Demo.

(** The contract of [sort.Slice(x, less)] for a [less] that compares
    keys: the slice afterwards holds the same elements, in ascending
    order of their keys. Nothing is said on the order of equal keys. *)
Definition sort_Slice_contract (sort : forall A : Type, (A -> A -> bool) -> list A -> list A)
    : Prop :=
  forall (A : Type) (key : A -> Z) (l : list A),
    Permutation l (sort A (fun a b => key a <? key b) l)
    /\ StronglySorted (fun a b => key a <= key b) (sort A (fun a b => key a <? key b) l).


(* ================================================================== *)
(** * Vocabulary of the gauge properties *)

(** The percent as the design document writes it,
    [ceil(100 * completedTasks / tasks)], in exact arithmetic. *)
Definition exactPercent (completed tasks : Z) : Z := - ((- (100 * completed)) / tasks).

(** The unit roundoff of binary64, [2^-53]. *)
Definition unit_roundoff : Q := 1 # 9007199254740992.

(** A positive rational in the range of the normal numbers. *)
Definition normal (q : Q) : Prop := (0 < q)%Q /\ emin + prec <= binade q.

(** The same computation with the binary64 operations of the Standard
    Library's specification of IEEE 754 arithmetic ([SpecFloat]), to
    compare [Float64] with. *)
Definition SF_of_int (z : Z) : spec_float := binary_normalize 53 1024 z 0 false.

Definition SF_ratio_times_100 (completed tasks : Z) : spec_float :=
  SFmul 53 1024 (SFdiv 53 1024 (SF_of_int completed) (SF_of_int tasks)) (SF_of_int 100).

Definition of_spec_float (f : spec_float) : float64 :=
  match f with
  | S754_zero s => Fin s 0
  | S754_infinity s => Inf s
  | S754_nan => NaN
  | S754_finite s m e => Fin s (inject_Z (Zpos m) * 2 ^ e)%Q
  end.

Definition same_value (a b : float64) : bool :=
  match a, b with
  | NaN, NaN => true
  | Inf s, Inf t => Bool.eqb s t
  | Fin s x, Fin t y => Bool.eqb s t && Qeq_bool x y
  | _, _ => false
  end.

Definition agree (completed tasks : Z) : bool :=
  same_value (mul (div (of_int completed) (of_int tasks)) hundred)
    (of_spec_float (SF_ratio_times_100 completed tasks)).

(** Every [completed <= tasks < n]. *)
Definition all_agree (n : nat) : bool :=
  forallb (fun tasks =>
             forallb (fun completed => agree (Z.of_nat completed) (Z.of_nat tasks))
               (seq 0 (S tasks)))
    (seq 0 n).

(* ================================================================== *)
(** * Vocabulary of the further layout properties *)

(** [r.In(s)]: every point of [r] is a point of [s]. *)
Definition inside (r s : image.Rectangle) : bool :=
  image.Empty r
  || ((image.MinX s <=? image.MinX r) && (image.MaxX r <=? image.MaxX s)
      && (image.MinY s <=? image.MinY r) && (image.MaxY r <=? image.MaxY s)).

(** The number of widgets the layout makes for a job, an application and
    a state. *)
Definition jobWidgets (job : EnrichedJob.t) : nat :=
  S (3 * length (EnrichedJob.Stages job)).

Definition appWidgets (app : EnrichedApplication.t) : nat :=
  S (fold_right (fun job n => (jobWidgets job + n)%nat) 0%nat (EnrichedApplication.Jobs app)).

Definition stateWidgets (state : State.t) : nat :=
  S (fold_right (fun app n => (appWidgets app + n)%nat) 0%nat (State.Apps state)).

(** The frames of the jobs of an application, one below the other from
    the row [currentHeight + cih], each as high as the rows of its job. *)
Fixpoint jobFrames (width currentHeight cih : Z) (jobs : list EnrichedJob.t)
    : list Drawable :=
  match jobs with
  | [] => []
  | job :: rest =>
      SetRect
        (Block (Job.Name (EnrichedJob.Job job) +:+ " (Stage "
                  +:+ Sprint_int (Job.Index (EnrichedJob.Job job)) +:+ ")")
           ModifierClear)
        true 1 (currentHeight + cih) (width - 1) (currentHeight + cih + jobRows job)
      :: jobFrames width currentHeight (cih + jobRows job) rest
  end.

(** The frames of the applications, one below the other from the row
    [currentHeight], each as high as the rows of its application and
    followed by the frames of its jobs. *)
Fixpoint frames (width currentHeight : Z) (apps : list EnrichedApplication.t)
    : list Drawable :=
  match apps with
  | [] => []
  | app :: rest =>
      SetRect
        (Block (ApplicationIdAndName.Name (EnrichedApplication.App app) +:+ " ("
                  +:+ ApplicationIdAndName.Id (EnrichedApplication.App app) +:+ ")")
           ModifierBold_plus_Underline)
        true 0 currentHeight width (currentHeight + appRows app)
      :: jobFrames width currentHeight 1 (EnrichedApplication.Jobs app)
      ++ frames width (currentHeight + appRows app) rest
  end.

(** The frames among the widgets of a list. *)
Definition framesOf (ds : list Drawable) : list Drawable :=
  List.filter (fun d => negb (Nat.eqb (layer d) 2)) ds.

(** Every widget of [ds] lies in the columns [lo .. hi - 1]. *)
Definition Cols (lo hi : Z) (ds : list Drawable) : Prop :=
  Forall (fun d => lo <= image.MinX (Rectangle d) /\ image.MaxX (Rectangle d) <= hi) ds.

(** A rectangle less its outermost cells, where the border of a frame is
    drawn. *)
Definition shrink (r : image.Rectangle) : image.Rectangle :=
  image.mk (image.MinX r + 1) (image.MinY r + 1) (image.MaxX r - 1) (image.MaxY r - 1).

(** The widget [d] is drawn within the border of the frame [f]. *)
Definition within (f d : Drawable) : Prop :=
  inside (Rectangle d) (shrink (Rectangle f)) = true.

(* ================================================================== *)
(** * Vocabulary of the further properties of the detail line *)

(** [strings.Join(pieces, "\n")]. *)
Fixpoint Join_LF (pieces : list string) : string :=
  match pieces with
  | [] => EmptyString
  | [piece] => piece
  | piece :: rest => piece +:+ String LF (Join_LF rest)
  end.

(** The line starts with [org.apache]. *)
Definition starts_with_org_apache (line : string) : Prop :=
  exists rest : string, line = "org.apache" +:+ rest.

(** The string holds a line feed. *)
Fixpoint has_LF (s : string) : bool :=
  match s with
  | EmptyString => false
  | String c rest => Ascii.eqb c LF || has_LF rest
  end.

(* ================================================================== *)
(** * Vocabulary of the further properties of the program *)

(** The requests of one [computeState] for the applications [apps]: the
    list of applications, then the jobs and the stages of each. *)
Definition requests (host : string) (apps : list ApplicationIdAndName.t) : list IOEvent :=
  EvGet (host +:+ "/api/v1/applications")
  :: flat_map
       (fun app =>
          [EvGet (host +:+ ("/api/v1/applications/" +:+ ApplicationIdAndName.Id app
                              +:+ "/jobs"));
           EvGet (host +:+ ("/api/v1/applications/" +:+ ApplicationIdAndName.Id app
                              +:+ "/stages"))])
       apps.

(** The host [main] monitors: its first argument, or the local engine. *)
Definition hostArg (Args : list string) : string :=
  match Args with
  | _ :: host :: _ => host
  | _ => "http://localhost:4040"
  end.

(** The wake-up is one of the quit keys. *)
Definition quits (wakeup : Wakeup) : bool :=
  match wakeup with
  | uiEvents e => String.eqb (ID e) "q" || String.eqb (ID e) "<C-c>"
  | ticker => false
  end.

(** The size of the terminal after a wake-up: that of a resize event,
    and the size before after anything else. *)
Definition resized (size : Z * Z) (wakeup : Wakeup) : Z * Z :=
  match wakeup with
  | uiEvents e =>
      if String.eqb (ID e) "<Resize>"
      then match payload e with
           | Resize Width Height => (Width, Height)
           | OtherPayload => size
           end
      else size
  | ticker => size
  end.

(** The screen shows what [main] holds: the last things the process did
    were a [ui.Clear] and the [ui.Render] of the layout of the held state
    at the held size. *)
Definition shows (arch : float64 -> Z) {W : Type} (h : Held) (w : World W) : Prop :=
  exists pre ds,
    trace w = pre ++ [EvClear; EvRender ds]
    /\ layout arch (termWidth h) (termHeight h) (state h) = Ret ds.

(* ================================================================== *)
(** * Basic facts: integers and strings *)

Lemma wrap_in_range (z : Z) : Int.in_range z -> Int.wrap z = z.
Proof.
  unfold Int.in_range, Int.min_int, Int.max_int, Int.wrap. intros H.
  rewrite Z.mod_small; lia.
Qed.

Lemma add_in_range (a b : Z) : Int.in_range (a + b) -> a +! b = a + b.
Proof. apply wrap_in_range. Qed.

Lemma sub_in_range (a b : Z) : Int.in_range (a - b) -> a -! b = a - b.
Proof. apply wrap_in_range. Qed.

Lemma quot2_nonneg (width : Z) :
  0 <= width <= Int.max_int -> Int.quot width 2 = width / 2.
Proof.
  intros H. unfold Int.quot. rewrite Z.quot_div_nonneg by lia.
  apply wrap_in_range. unfold Int.in_range, Int.min_int, Int.max_int in *.
  assert (0 <= width / 2 <= width) by (split; [apply Z.div_pos | apply Z.div_le_upper_bound]; lia).
  lia.
Qed.

Lemma length_append (s t : string) :
  String.length (s +:+ t) = (String.length s + String.length t)%nat.
Proof. induction s as [|c s IH]; simpl; [reflexivity | now rewrite IH]. Qed.

Lemma length_substring_0 (n : nat) (s : string) :
  (n <= String.length s)%nat -> String.length (substring 0 n s) = n.
Proof.
  revert s. induction n as [|n IH]; intros [|c s] H; simpl in *; try lia; try reflexivity.
  rewrite IH by lia. reflexivity.
Qed.

Lemma len_append (s t : string) : len (s +:+ t) = len s + len t.
Proof. unfold len. rewrite length_append. lia. Qed.

Lemma len_nonneg (s : string) : 0 <= len s.
Proof. unfold len. lia. Qed.

Lemma Split_LF_cons (s : string) : exists piece pieces, Split_LF s = piece :: pieces.
Proof.
  induction s as [|c s (piece & pieces & IH)]; simpl; [eauto |].
  destruct (Ascii.eqb c LF); [eauto |]. rewrite IH. eauto.
Qed.

Lemma find_None_Forall {A : Type} (f : A -> bool) (l : list A) :
  List.find f l = None <-> Forall (fun x => f x = false) l.
Proof.
  induction l as [|x l IH]; simpl.
  - split; [constructor | reflexivity].
  - destruct (f x) eqn:E.
    + split; [discriminate | intros H; inversion H; congruence].
    + rewrite IH. split; [now constructor | intros H; now inversion H].
Qed.

(** Additions and subtractions that stay in range are those of [Z]. *)
Ltac in_range_lia :=
  unfold Int.in_range, Int.min_int, Int.max_int in *; lia.

Ltac unwrap :=
  repeat match goal with
    | |- context [?a +! ?b] => rewrite (add_in_range a b) by in_range_lia
    | |- context [?a -! ?b] => rewrite (sub_in_range a b) by in_range_lia
    end.



Lemma MaxY_Rect (x0 y0 x1 y1 : Z) :
  y0 <= y1 -> image.MaxY (image.Rect x0 y0 x1 y1) = y1.
Proof. intros H. simpl. lia. Qed.

(** Inversion of a bind that returned. *)
Lemma bind_Ret {A B : Type} (m : outcome A) (f : A -> outcome B) (b : B) :
  mbind f m = Ret b -> exists a, m = Ret a /\ f a = Ret b.
Proof. destruct m; simpl; intros H; try discriminate. eauto. Qed.

Lemma NoDup_map_inj {A B : Type} (f : A -> B) (l : list A) (a b : A) :
  List.NoDup (map f l) -> In a l -> In b l -> f a = f b -> a = b.
Proof.
  induction l as [|x l IH]; simpl; [contradiction |].
  intros Hnd Ha Hb E. inversion Hnd as [|? ? Hx Hl]; subst.
  destruct Ha as [->|Ha], Hb as [->|Hb]; try reflexivity.
  - exfalso. apply Hx. rewrite E. now apply List.in_map.
  - exfalso. apply Hx. rewrite <- E. now apply List.in_map.
  - now apply IH.
Qed.


(* ================================================================== *)
(** * The contract of [sort.Slice] and the insertion sort *)

Section Insertion.

Context {A : Type} (key : A -> Z).

Abbreviation less := (fun a b : A => key a <? key b).
Abbreviation descending := (StronglySorted (fun a b : A => key b <= key a)).

Lemma insertLeft_Permutation (x : A) (sorted : list A) :
  Permutation (x :: sorted) (Demo.insertLeft less x sorted).
Proof.
  induction sorted as [|y rest IH]; simpl; [reflexivity |].
  destruct (key x <? key y); [| reflexivity].
  rewrite perm_swap. now constructor.
Qed.

Lemma insertLeft_descending (x : A) (sorted : list A) :
  descending sorted -> descending (Demo.insertLeft less x sorted).
Proof.
  induction sorted as [|y rest IH]; intros H; simpl.
  - repeat constructor.
  - apply StronglySorted_inv in H as [Hrest Hy].
    destruct (Z.ltb_spec (key x) (key y)) as [Hlt|Hge].
    + constructor; [now apply IH |].
      rewrite <- (insertLeft_Permutation x rest). constructor; [lia | exact Hy].
    + constructor; [now constructor |].
      constructor; [exact Hge |].
      eapply List.Forall_impl; [| exact Hy]. simpl. intros z Hz. lia.
Qed.

Lemma descending_rev (l : list A) :
  descending l -> StronglySorted (fun a b => key a <= key b) (rev l).
Proof.
  induction 1 as [|a l Hl IH Ha]; simpl; [constructor |].
  apply StronglySorted_app. split; [| split; [exact IH | repeat constructor]].
  intros x1 x2 H1 H2. apply list_elem_of_singleton in H2 as ->.
  rewrite List.Forall_forall in Ha. apply Ha.
  apply List.in_rev. now apply list_elem_of_In.
Qed.

(** A loop that inserts the elements one by one sorts them. *)
Lemma fold_insert_sorts (insert : A -> list A -> list A) :
  (forall x sorted, Permutation (x :: sorted) (insert x sorted)) ->
  (forall x sorted, descending sorted -> descending (insert x sorted)) ->
  forall l sorted : list A,
    descending sorted ->
    Permutation (l ++ sorted) (fold_left (fun sorted x => insert x sorted) l sorted)
    /\ descending (fold_left (fun sorted x => insert x sorted) l sorted).
Proof.
  intros Hperm Hdesc. induction l as [|x l IH]; intros sorted Hs; simpl.
  - split; [reflexivity | exact Hs].
  - destruct (IH (insert x sorted) (Hdesc x sorted Hs)) as [Hp Hd].
    split; [| exact Hd]. rewrite <- Hp, <- Hperm.
    now rewrite Permutation_middle.
Qed.






End Insertion.

Lemma insertionSort_contract : sort_Slice_contract Demo.insertionSort.
Proof.
  intros A key l. unfold Demo.insertionSort.
  destruct (fold_insert_sorts key (Demo.insertLeft (fun a b => key a <? key b))
              (insertLeft_Permutation key) (insertLeft_descending key) l [])
    as [Hp Hd]; [constructor |].
  split.
  - rewrite <- Permutation_rev, <- Hp. now rewrite app_nil_r.
  - now apply descending_rev.
Qed.


(* ================================================================== *)
(** * The label of a stage *)

(** C5, at a width too small for the ellipsis: with [width = 4] the label
    width is 2, and a text of four bytes is longer, so the source slices
    [text[:-1]] and panics; no label is produced at all. *)
Lemma truncateLabel_narrow_panics :
  Int.quot 4 2 = 2
  /\ len "0 : " = 4
  /\ truncateLabel 2 "0 : " = Panic "slice bounds out of range".
Proof. repeat split; reflexivity. Qed.

(** C5, amended. For a terminal at least 6 columns wide the label width
    is [floor (width / 2)], at least 3, and for every text: a text longer
    than the label width becomes its first [labelWidth - 3] bytes followed
    by ["..."], which is [labelWidth] bytes long; a text that is not longer
    is left as it is. *)
Theorem truncateLabel_spec (width : Z) (text : string) :
  6 <= width <= Int.max_int ->
  let labelWidth := Int.quot width 2 in
  labelWidth = width / 2
  /\ (labelWidth < len text ->
      exists head : string,
        truncateLabel labelWidth text = Ret (head +:+ "...")
        /\ head = substring 0 (Z.to_nat (labelWidth - 3)) text
        /\ len head = labelWidth - 3
        /\ len (head +:+ "...") = labelWidth)
  /\ (len text <= labelWidth -> truncateLabel labelWidth text = Ret text).
Proof.
  intros Hw labelWidth.
  assert (Hq : labelWidth = width / 2) by (apply quot2_nonneg; lia).
  assert (Hl : 3 <= labelWidth <= width).
  { rewrite Hq. split; [apply Z.div_le_lower_bound | apply Z.div_le_upper_bound]; lia. }
  split; [exact Hq |]. clearbody labelWidth. unfold truncateLabel. split.
  - intros Hlong. apply Z.ltb_lt in Hlong as Hb. rewrite Hb.
    rewrite sub_in_range
      by (unfold Int.in_range, Int.min_int, Int.max_int in *; lia).
    unfold slice_to.
    replace ((labelWidth - 3 <? 0) || (len text <? labelWidth - 3)) with false
      by (symmetry; apply orb_false_iff; split; apply Z.ltb_ge; lia).
    simpl. eexists. split; [reflexivity |]. split; [reflexivity |].
    assert (Hh : len (substring 0 (Z.to_nat (labelWidth - 3)) text) = labelWidth - 3).
    { unfold len in *. rewrite length_substring_0 by lia. lia. }
    split; [exact Hh |]. rewrite len_append, Hh. unfold len. simpl. lia.
  - intros Hshort. apply Z.ltb_ge in Hshort. now rewrite Hshort.
Qed.

Lemma truncateLabel_spec_witness :
  6 <= 40 <= Int.max_int
  /\ truncateLabel (Int.quot 40 2) (labelText (Sample.stage 3 3 10 2))
     = Ret "3 ACTIVE: map at ...".
Proof.
  assert (H : 6 <= 40 <= Int.max_int) by (unfold Int.max_int; lia).
  split; [exact H |].
  destruct (truncateLabel_spec 40 (labelText (Sample.stage 3 3 10 2)) H)
    as (_ & Hlong & _).
  destruct Hlong as (head & -> & -> & _); [vm_compute; reflexivity |].
  reflexivity.
Defined.

(* ================================================================== *)
(** * The rows of a job block *)

Section Rows.

Variable arch : float64 -> Z.
Variables width labelWidth currentHeight : Z.

Abbreviation rows stages := (2 * Z.of_nat (length stages)).

(** The three widgets of a stage stand on two rows: the label and the
    gauge share the first one, the detail line takes the second. *)
Lemma renderStage_rows (stage : Stage.t) (cih cih' : Z) (ds : list Drawable) :
  0 <= currentHeight -> 0 <= cih -> currentHeight + cih + 2 <= Int.max_int ->
  renderStage arch width labelWidth currentHeight stage cih = Ret (cih', ds) ->
  cih' = cih + 2
  /\ exists label bar details,
       ds = [label; bar; details]
       /\ truncateLabel labelWidth (labelText stage)
          = Ret match widget label with Paragraph text _ _ => text | _ => "" end
       /\ widget bar = Gauge (barLabel stage) (percent arch stage)
       /\ widget details
          = Paragraph (detailsText (Stage.Details stage)) ModifierClear ColorRed
       /\ image.MinY (Rectangle label) = currentHeight + cih
       /\ image.MaxY (Rectangle label) = currentHeight + cih + 1
       /\ image.MinY (Rectangle bar) = currentHeight + cih
       /\ image.MaxY (Rectangle bar) = currentHeight + cih + 1
       /\ image.MinY (Rectangle details) = currentHeight + cih + 1
       /\ image.MaxY (Rectangle details) = currentHeight + cih + 2.
Proof.
  intros HcH Hcih Hmax H. unfold renderStage in H.
  apply bind_Ret in H as (text & Htext & H). injection H as <- <-.
  unwrap. split; [lia |].
  do 3 eexists. split; [reflexivity |]. unfold SetRect. simpl.
  split; [exact Htext |]. repeat split; lia.
Qed.

Lemma renderStages_rows (stages : list Stage.t) :
  forall (cih cih' : Z) (ds : list Drawable),
  0 <= currentHeight -> 0 <= cih ->
  currentHeight + cih + rows stages <= Int.max_int ->
  renderStages arch width labelWidth currentHeight stages cih = Ret (cih', ds) ->
  cih' = cih + rows stages
  /\ length ds = (3 * length stages)%nat
  /\ forall (k : nat) (stage : Stage.t),
       stages !! k = Some stage ->
       exists label bar details,
         ds !! (3 * k)%nat = Some label
         /\ ds !! (3 * k + 1)%nat = Some bar
         /\ ds !! (3 * k + 2)%nat = Some details
         /\ widget bar = Gauge (barLabel stage) (percent arch stage)
         /\ widget details
            = Paragraph (detailsText (Stage.Details stage)) ModifierClear ColorRed
         /\ image.MinY (Rectangle label) = currentHeight + cih + 2 * Z.of_nat k
         /\ image.MinY (Rectangle bar) = currentHeight + cih + 2 * Z.of_nat k
         /\ image.MinY (Rectangle details) = currentHeight + cih + 2 * Z.of_nat k + 1
         /\ image.Dy (Rectangle label) = 1
         /\ image.Dy (Rectangle bar) = 1
         /\ image.Dy (Rectangle details) = 1.
Proof.
  induction stages as [|stage rest IH]; intros cih cih' ds HcH Hcih Hmax H.
  - simpl in H. injection H as <- <-. simpl. repeat split; try lia.
    intros k stage Hk. destruct k; discriminate.
  - simpl in H.
    apply bind_Ret in H as ([cih1 ds1] & H1 & H).
    apply bind_Ret in H as ([cih2 ds2] & H2 & H). injection H as <- <-.
    simpl length in Hmax.
    apply renderStage_rows in H1 as (-> & label & bar & details & -> & _ & Hb & Hd & Hy);
      [| lia ..].
    apply IH in H2 as (-> & Hlen & Hk); [| lia ..].
    split; [simpl length; lia |]. split; [simpl; rewrite Hlen; lia |].
    intros [|k] st Hst.
    + injection Hst as <-. exists label, bar, details.
      unfold image.Dy. simpl. repeat split; try assumption; lia.
    + simpl in Hst. destruct (Hk k st Hst) as (l & b & d & Hl & Hb' & Hd' & Hrest).
      exists l, b, d.
      replace (3 * S k)%nat with (S (S (S (3 * k)))) by lia.
      simpl. split; [exact Hl |]. split; [exact Hb' |]. split; [exact Hd' |].
      destruct Hrest as (? & ? & ? & ? & ? & ? & ? & ?).
      repeat split; try assumption; lia.
Qed.


End Rows.



(* ================================================================== *)
(** * Where the layout pass fails, and where it returns *)

Lemma Sprint_int_not_empty (z : Z) : 1 <= len (Sprint_int z).
Proof.
  unfold Sprint_int, len.
  destruct (Z.to_int z) as [d|d]; simpl; [| lia].
  destruct d; simpl; lia.
Qed.

Lemma labelText_len (stage : Stage.t) : 4 <= len (labelText stage).
Proof.
  unfold labelText. rewrite !len_append.
  pose proof (Sprint_int_not_empty (Stage.Index stage)).
  pose proof (len_nonneg (Stage.Status stage)).
  pose proof (len_nonneg (Stage.Name stage)).
  change (len " ") with 1. change (len ": ") with 2. lia.
Qed.

Section Narrow.

Variable arch : float64 -> Z.
Variables width labelWidth currentHeight : Z.
Hypothesis narrow : Int.min_int + 3 <= labelWidth <= 2.

Abbreviation crash := "slice bounds out of range".

Lemma truncateLabel_narrow (text : string) :
  4 <= len text -> truncateLabel labelWidth text = Panic crash.
Proof using narrow.
  intros H. unfold truncateLabel.
  replace (labelWidth <? len text) with true by (symmetry; apply Z.ltb_lt; lia).
  unwrap. unfold slice_to.
  replace (labelWidth - 3 <? 0) with true by (symmetry; apply Z.ltb_lt; lia).
  reflexivity.
Qed.

Lemma renderStages_narrow (stages : list Stage.t) (cih : Z) :
  stages <> [] ->
  renderStages arch width labelWidth currentHeight stages cih = Panic crash.
Proof using narrow.
  destruct stages as [|stage rest]; [congruence | intros _].
  simpl. unfold renderStage.
  rewrite truncateLabel_narrow by apply labelText_len. reflexivity.
Qed.

Lemma renderJob_narrow (job : EnrichedJob.t) (cih : Z) :
  match renderJob arch width labelWidth currentHeight job cih with
  | Ret _ => EnrichedJob.Stages job = []
  | Panic msg => msg = crash
  | Fatal _ => False
  end.
Proof using narrow.
  unfold renderJob. destruct (EnrichedJob.Stages job) as [|stage rest] eqn:E.
  - reflexivity.
  - rewrite renderStages_narrow by congruence. reflexivity.
Qed.

Lemma renderJobs_narrow (jobs : list EnrichedJob.t) (cih : Z) :
  match renderJobs arch width labelWidth currentHeight jobs cih with
  | Ret _ => Forall (fun job => EnrichedJob.Stages job = []) jobs
  | Panic msg => msg = crash
  | Fatal _ => False
  end.
Proof using narrow.
  revert cih. induction jobs as [|job rest IH]; intros cih; simpl; [constructor |].
  pose proof (renderJob_narrow job cih) as Hj.
  destruct (renderJob arch width labelWidth currentHeight job cih) as [[cih1 ds1]| |];
    simpl; try assumption.
  specialize (IH cih1).
  destruct (renderJobs arch width labelWidth currentHeight rest cih1) as [[cih2 ds2]| |];
    simpl; try assumption.
  now constructor.
Qed.

End Narrow.

Lemma renderApps_narrow (arch : float64 -> Z) (width : Z) :
  Int.min_int <= width < 6 ->
  forall (apps : list EnrichedApplication.t) (currentHeight : Z),
  match renderApps arch width apps currentHeight with
  | Ret _ => Forall no_stage apps
  | Panic msg => msg = "slice bounds out of range"
  | Fatal _ => False
  end.
Proof.
  intros Hw.
  assert (Hl : Int.min_int + 3 <= Int.quot width 2 <= 2).
  { unfold Int.quot.
    assert (Hq : Int.min_int + 3 <= Z.quot width 2 <= 2)
      by (unfold Int.min_int in *; Z.to_euclidean_division_equations; lia).
    rewrite wrap_in_range; in_range_lia. }
  induction apps as [|app rest IH]; intros currentHeight; simpl; [constructor |].
  unfold renderApp.
  pose proof (renderJobs_narrow arch width (Int.quot width 2) currentHeight Hl
                (EnrichedApplication.Jobs app) 1) as Hj.
  destruct (renderJobs arch width (Int.quot width 2) currentHeight
              (EnrichedApplication.Jobs app) 1) as [[cih ds]| |]; simpl; try assumption.
  specialize (IH (currentHeight +! (cih +! 1))).
  destruct (renderApps arch width rest (currentHeight +! (cih +! 1))); simpl;
    try assumption.
  now constructor.
Qed.

(** C2: the layout pass is not total. On a terminal less than 6 columns
    wide the label width is below 3, every label is longer than it, and
    the slice [labelText[:labelWidth-3]] panics: a state with a stage to
    draw gets no list of widgets at all. *)
Theorem layout_panics_below_6_columns
    (arch : float64 -> Z) (width height : Z) (state : State.t) :
  Int.min_int <= width < 6 ->
  has_stage state ->
  layout arch width height state = Panic "slice bounds out of range".
Proof.
  intros Hw (app & job & stage & Happ & Hjob & Hstage).
  unfold layout.
  pose proof (renderApps_narrow arch width Hw (State.Apps state) (0 +! 2)) as H.
  destruct (renderApps arch width (State.Apps state) (0 +! 2)); simpl.
  - exfalso. rewrite List.Forall_forall in H. specialize (H app Happ).
    unfold no_stage in H. rewrite List.Forall_forall in H. specialize (H job Hjob).
    rewrite H in Hstage. destruct Hstage.
  - now subst.
  - destruct H.
Qed.

Lemma layout_panics_below_6_columns_witness :
  layout amd64 4 10 Sample.bareState = Panic "slice bounds out of range".
Proof.
  apply layout_panics_below_6_columns.
  - unfold Int.min_int. lia.
  - exists (EnrichedApplication.mk (ApplicationIdAndName.mk "" "") [Sample.bare]),
      Sample.bare, Stage.zero.
    simpl. tauto.
Defined.

Section Wide.

Variable arch : float64 -> Z.
Variables width labelWidth currentHeight : Z.
Hypothesis wide : 3 <= labelWidth <= Int.max_int.

Lemma truncateLabel_returns (text : string) :
  exists text', truncateLabel labelWidth text = Ret text'.
Proof using wide.
  unfold truncateLabel. destruct (Z.ltb_spec labelWidth (len text)) as [Hlong|Hshort].
  - unwrap. unfold slice_to.
    replace ((labelWidth - 3 <? 0) || (len text <? labelWidth - 3)) with false
      by (symmetry; apply orb_false_iff; split; apply Z.ltb_ge; lia).
    simpl. eauto.
  - eauto.
Qed.

Lemma renderStages_returns (stages : list Stage.t) :
  forall cih : Z,
  exists r, renderStages arch width labelWidth currentHeight stages cih = Ret r.
Proof using wide.
  induction stages as [|stage rest IH]; intros cih; simpl; [eauto |].
  unfold renderStage.
  destruct (truncateLabel_returns (labelText stage)) as [text ->]. simpl.
  match goal with |- context [renderStages _ _ _ _ rest ?c] => destruct (IH c) as [[c' ds] ->] end.
  simpl. eauto.
Qed.

Lemma renderJobs_returns (jobs : list EnrichedJob.t) :
  forall cih : Z,
  exists r, renderJobs arch width labelWidth currentHeight jobs cih = Ret r.
Proof using wide.
  induction jobs as [|job rest IH]; intros cih; simpl; [eauto |].
  unfold renderJob.
  destruct (renderStages_returns (EnrichedJob.Stages job) (cih +! 1)) as [[c ds] ->]. simpl.
  match goal with |- context [renderJobs _ _ _ _ rest ?c] => destruct (IH c) as [[c' ds'] ->] end.
  simpl. eauto.
Qed.

End Wide.

Lemma renderApps_returns (arch : float64 -> Z) (width : Z) :
  6 <= width <= Int.max_int ->
  forall (apps : list EnrichedApplication.t) (currentHeight : Z),
  exists ds, renderApps arch width apps currentHeight = Ret ds.
Proof.
  intros Hw.
  assert (Hl : 3 <= Int.quot width 2 <= Int.max_int).
  { rewrite quot2_nonneg by lia. unfold Int.max_int in *.
    Z.to_euclidean_division_equations. lia. }
  induction apps as [|app rest IH]; intros currentHeight; simpl; [eauto |].
  unfold renderApp.
  destruct (renderJobs_returns arch width (Int.quot width 2) currentHeight Hl
              (EnrichedApplication.Jobs app) 1) as [[cih ds] ->]. simpl.
  match goal with |- context [renderApps _ _ rest ?c] => destruct (IH c) as [ds' ->] end.
  simpl. eauto.
Qed.

(** X1. On a terminal at least 6 columns wide the layout pass returns a
    list of widgets for every state: the header first, and after it the
    widgets of the applications. *)
Theorem layout_returns_from_6_columns
    (arch : float64 -> Z) (width height : Z) (state : State.t) :
  6 <= width <= Int.max_int ->
  exists header ds,
    layout arch width height state = Ret (header :: ds)
    /\ widget header
       = Paragraph ("Running against Spark on " +:+ State.Host state)
           ModifierBold ThemeColor
    /\ Rectangle header = image.mk 0 0 width 1.
Proof.
  intros Hw. unfold layout.
  destruct (renderApps_returns arch width Hw (State.Apps state) (0 +! 2)) as [ds ->].
  simpl. do 2 eexists. split; [reflexivity |]. split; [reflexivity |].
  unfold SetRect, image.Rect. simpl. f_equal; lia.
Qed.

Lemma layout_returns_from_6_columns_witness :
  exists header ds, layout amd64 6 1 Sample.state = Ret (header :: ds).
Proof.
  destruct (layout_returns_from_6_columns amd64 6 1 Sample.state) as (header & ds & H & _).
  - unfold Int.max_int. lia.
  - eauto.
Defined.

(** X2. With no application the list is the header alone, at any width
    (scenario 5 of the design document). *)
Theorem layout_of_no_application (arch : float64 -> Z) (width height : Z) (host : string) :
  layout arch width height (State.mk [] host)
  = Ret [SetRect (Paragraph ("Running against Spark on " +:+ host) ModifierBold ThemeColor)
           false 0 0 width 1].
Proof. reflexivity. Qed.

(* ================================================================== *)
(** * Which widgets overlap *)

Lemma Overlaps_true (r s : image.Rectangle) :
  image.Overlaps r s = true <->
  image.MinX r < image.MaxX s /\ image.MinX s < image.MaxX r
  /\ image.MinY r < image.MaxY s /\ image.MinY s < image.MaxY r
  /\ image.MinX r < image.MaxX r /\ image.MinX s < image.MaxX s
  /\ image.MinY r < image.MaxY r /\ image.MinY s < image.MaxY s.
Proof.
  unfold image.Overlaps, image.Empty.
  rewrite !andb_true_iff, !negb_true_iff, !orb_false_iff, !Z.ltb_lt, !Z.leb_gt. lia.
Qed.

Lemma Overlaps_sym (r s : image.Rectangle) : image.Overlaps r s = image.Overlaps s r.
Proof.
  apply eq_true_iff_eq. rewrite !Overlaps_true. lia.
Qed.

Lemma apart_sym (a b : Drawable) : apart a b -> apart b a.
Proof.
  unfold apart, overlap. intros H Hl. rewrite Overlaps_sym. now apply H.
Qed.

Lemma apart_rows (a b : Drawable) :
  image.MaxY (Rectangle a) <= image.MinY (Rectangle b) -> apart a b.
Proof.
  intros H _. unfold overlap.
  destruct (image.Overlaps (Rectangle a) (Rectangle b)) eqn:E; [| reflexivity].
  apply Overlaps_true in E. lia.
Qed.

Lemma apart_layers (a b : Drawable) : layer a <> layer b -> apart a b.
Proof. intros H Hl. contradiction. Qed.

Lemma Band_weaken (lo hi lo' hi' : Z) (ds : list Drawable) :
  lo' <= lo -> hi <= hi' -> Band lo hi ds -> Band lo' hi' ds.
Proof.
  intros Hlo Hhi H. unfold Band in *. eapply List.Forall_impl; [| exact H].
  simpl. intros d. lia.
Qed.

Lemma Band_app (lo hi : Z) (ds ds' : list Drawable) :
  Band lo hi ds -> Band lo hi ds' -> Band lo hi (ds ++ ds').
Proof. unfold Band. intros. now apply Forall_app. Qed.

Lemma Band_apart (lo mid mid' hi : Z) (ds ds' : list Drawable) :
  Band lo mid ds -> Band mid' hi ds' -> mid <= mid' ->
  Forall (fun a => Forall (apart a) ds') ds.
Proof.
  unfold Band. intros H H' Hmid. eapply List.Forall_impl; [| exact H]. simpl.
  intros a [_ Ha]. eapply List.Forall_impl; [| exact H']. simpl.
  intros b [Hb _]. apply apart_rows. lia.
Qed.

Lemma FOP_app {A : Type} (R : A -> A -> Prop) (l l' : list A) :
  ForallOrdPairs R l -> ForallOrdPairs R l' ->
  Forall (fun a => Forall (R a) l') l ->
  ForallOrdPairs R (l ++ l').
Proof.
  induction 1 as [|a l Ha Hl IH]; intros Hl' Hx; simpl; [exact Hl' |].
  inversion Hx; subst. constructor.
  - now apply Forall_app.
  - now apply IH.
Qed.

(** Ordered pairs of a symmetric relation cover every two positions. *)
Lemma FOP_lookup {A : Type} (R : A -> A -> Prop) (l : list A) :
  (forall a b, R a b -> R b a) ->
  ForallOrdPairs R l ->
  forall (i j : nat) (a b : A),
    i <> j -> l !! i = Some a -> l !! j = Some b -> R a b.
Proof.
  intros Hsym. induction 1 as [|x l Hx Hl IH]; intros i j a b Hij Hi Hj.
  - destruct i; discriminate.
  - rewrite List.Forall_forall in Hx.
    destruct i as [|i], j as [|j]; simpl in *; try congruence.
    + injection Hi as <-. apply Hx. apply list_elem_of_In.
      eapply list_elem_of_lookup_2; eassumption.
    + injection Hj as <-. apply Hsym, Hx. apply list_elem_of_In.
      eapply list_elem_of_lookup_2; eassumption.
    + eapply (IH i j); [lia | assumption ..].
Qed.

Section Disjoint.

Variable arch : float64 -> Z.
Variable width : Z.
Hypothesis width_ok : 0 <= width <= Int.max_int.

Let labelWidth : Z := Int.quot width 2.

Abbreviation Apart ds := (ForallOrdPairs apart ds).
Abbreviation Content ds := (Forall (fun d => layer d = 2%nat) ds).
Abbreviation Inner ds := (Forall (fun d => layer d <> 0%nat) ds).

(** The label and the gauge of a stage share a row and split it at
    [labelWidth]; the detail line has the next row to itself. *)
Lemma renderStage_band (currentHeight : Z) (stage : Stage.t) (cih cih' : Z)
    (ds : list Drawable) :
  0 <= currentHeight -> 0 <= cih -> currentHeight + cih + 2 <= Int.max_int ->
  renderStage arch width labelWidth currentHeight stage cih = Ret (cih', ds) ->
  cih' = cih + 2
  /\ Band (currentHeight + cih) (currentHeight + cih + 2) ds
  /\ Apart ds /\ Content ds.
Proof using width_ok.
  intros HcH Hcih Hmax H. unfold renderStage in H.
  apply bind_Ret in H as (text & _ & H). injection H as <- <-.
  assert (Hlw : labelWidth = width / 2) by (apply quot2_nonneg; exact width_ok).
  unwrap. unfold SetRect. split; [lia |]. split; [| split].
  - unfold Band. repeat constructor; simpl; lia.
  - repeat constructor; intros _; unfold overlap; simpl Rectangle.
    + match goal with |- ?o = false => destruct o eqn:E; [| reflexivity] end.
      apply Overlaps_true in E. simpl in E. rewrite Hlw in E.
      exfalso. Z.div_mod_to_equations. lia.
    + match goal with |- ?o = false => destruct o eqn:E; [| reflexivity] end.
      apply Overlaps_true in E. simpl in E. lia.
    + match goal with |- ?o = false => destruct o eqn:E; [| reflexivity] end.
      apply Overlaps_true in E. simpl in E. lia.
  - repeat constructor.
Qed.

Lemma renderStages_band (currentHeight : Z) (stages : list Stage.t) :
  forall (cih cih' : Z) (ds : list Drawable),
  0 <= currentHeight -> 0 <= cih ->
  currentHeight + cih + 2 * Z.of_nat (length stages) <= Int.max_int ->
  renderStages arch width labelWidth currentHeight stages cih = Ret (cih', ds) ->
  cih' = cih + 2 * Z.of_nat (length stages)
  /\ Band (currentHeight + cih) (currentHeight + cih') ds
  /\ Apart ds /\ Content ds.
Proof using width_ok.
  induction stages as [|stage rest IH]; intros cih cih' ds HcH Hcih Hmax H.
  - simpl in H. injection H as <- <-. simpl.
    repeat split; try lia; constructor.
  - simpl in H. simpl length in Hmax.
    apply bind_Ret in H as ([cih1 ds1] & H1 & H).
    apply bind_Ret in H as ([cih2 ds2] & H2 & H). injection H as <- <-.
    apply renderStage_band in H1 as (-> & B1 & A1 & C1); [| lia ..].
    apply IH in H2 as (-> & B2 & A2 & C2); [| lia ..].
    split; [simpl length; lia |]. split; [| split].
    + apply Band_app; eapply Band_weaken; try eassumption; lia.
    + apply FOP_app; try assumption. eapply Band_apart; [eassumption .. | lia].
    + now apply Forall_app.
Qed.

Lemma Content_Inner (ds : list Drawable) : Content ds -> Inner ds.
Proof. intros H. eapply List.Forall_impl; [| exact H]. simpl. intros d ->. discriminate. Qed.

(** The frame of a job spans its rows; the widgets of its stages lie
    inside it, on another layer. *)
Lemma renderJob_band (currentHeight : Z) (job : EnrichedJob.t) (cih cih' : Z)
    (ds : list Drawable) :
  0 <= currentHeight -> 0 <= cih ->
  currentHeight + cih + jobRows job <= Int.max_int ->
  renderJob arch width labelWidth currentHeight job cih = Ret (cih', ds) ->
  cih' = cih + jobRows job
  /\ Band (currentHeight + cih) (currentHeight + cih') ds
  /\ Apart ds /\ Inner ds.
Proof using width_ok.
  unfold jobRows. intros HcH Hcih Hmax H. unfold renderJob in H.
  apply bind_Ret in H as ([cih1 ds1] & H1 & H). injection H as <- <-.
  revert H1. unwrap. intros H1.
  apply renderStages_band in H1 as (-> & B1 & A1 & C1); [| lia ..].
  unwrap. split; [lia |]. split; [| split].
  - constructor; [unfold SetRect; simpl; lia |].
    eapply Band_weaken; try eassumption; lia.
  - constructor; [| exact A1].
    eapply List.Forall_impl; [| exact C1]. simpl. intros d Hd.
    apply apart_layers. rewrite Hd. discriminate.
  - constructor; [discriminate | now apply Content_Inner].
Qed.

Lemma renderJobs_band (currentHeight : Z) (jobs : list EnrichedJob.t) :
  forall (cih cih' : Z) (ds : list Drawable),
  0 <= currentHeight -> 0 <= cih ->
  currentHeight + cih + jobsRows jobs <= Int.max_int ->
  renderJobs arch width labelWidth currentHeight jobs cih = Ret (cih', ds) ->
  cih' = cih + jobsRows jobs
  /\ Band (currentHeight + cih) (currentHeight + cih') ds
  /\ Apart ds /\ Inner ds.
Proof using width_ok.
  induction jobs as [|job rest IH]; intros cih cih' ds HcH Hcih Hmax H.
  - simpl in H. injection H as <- <-. simpl.
    repeat split; try lia; constructor.
  - simpl in H. simpl in Hmax.
    assert (Hrest : 0 <= jobsRows rest).
    { clear. induction rest as [|j r IHr]; simpl; [lia |]. unfold jobRows. lia. }
    assert (Hjob : 2 <= jobRows job) by (unfold jobRows; lia).
    apply bind_Ret in H as ([cih1 ds1] & H1 & H).
    apply bind_Ret in H as ([cih2 ds2] & H2 & H). injection H as <- <-.
    apply renderJob_band in H1 as (-> & B1 & A1 & I1); [| lia ..].
    apply IH in H2 as (-> & B2 & A2 & I2); [| lia ..].
    split; [simpl; lia |]. split; [| split].
    + apply Band_app; eapply Band_weaken; try eassumption; lia.
    + apply FOP_app; try assumption. eapply Band_apart; [eassumption .. | lia].
    + now apply Forall_app.
Qed.

Lemma jobsRows_nonneg (jobs : list EnrichedJob.t) : 0 <= jobsRows jobs.
Proof. induction jobs as [|j r IH]; simpl; [lia |]. unfold jobRows. lia. Qed.

Lemma appsRows_nonneg (apps : list EnrichedApplication.t) : 0 <= appsRows apps.
Proof.
  induction apps as [|a r IH]; simpl; [lia |]. unfold appRows.
  pose proof (jobsRows_nonneg (EnrichedApplication.Jobs a)). lia.
Qed.

(** The frame of an application spans its rows, the blocks of its jobs
    lie inside it, on other layers. *)
Lemma renderApp_band (app : EnrichedApplication.t) (currentHeight currentHeight' : Z)
    (ds : list Drawable) :
  0 <= currentHeight ->
  currentHeight + appRows app <= Int.max_int ->
  renderApp arch width app currentHeight = Ret (currentHeight', ds) ->
  currentHeight' = currentHeight + appRows app
  /\ Band currentHeight currentHeight' ds
  /\ Apart ds.
Proof using width_ok.
  unfold appRows. intros HcH Hmax H. unfold renderApp in H.
  pose proof (jobsRows_nonneg (EnrichedApplication.Jobs app)) as Hjobs.
  apply bind_Ret in H as ([cih1 ds1] & H1 & H). injection H as <- <-.
  apply renderJobs_band in H1 as (-> & B1 & A1 & I1); [| lia ..].
  unwrap. split; [lia |]. split.
  - constructor; [unfold SetRect; simpl; lia |].
    eapply Band_weaken; try eassumption; lia.
  - constructor; [| exact A1].
    eapply List.Forall_impl; [| exact I1]. simpl. intros d Hd.
    apply apart_layers. intros E. apply Hd. rewrite <- E. reflexivity.
Qed.

Lemma renderApps_band (apps : list EnrichedApplication.t) :
  forall (currentHeight : Z) (ds : list Drawable),
  0 <= currentHeight ->
  currentHeight + appsRows apps <= Int.max_int ->
  renderApps arch width apps currentHeight = Ret ds ->
  Band currentHeight (currentHeight + appsRows apps) ds /\ Apart ds.
Proof using width_ok.
  induction apps as [|app rest IH]; intros currentHeight ds HcH Hmax H.
  - simpl in H. injection H as <-. split; constructor.
  - simpl in H. simpl in Hmax.
    pose proof (appsRows_nonneg rest) as Hrest.
    assert (Happ : 2 <= appRows app)
      by (unfold appRows; pose proof (jobsRows_nonneg (EnrichedApplication.Jobs app)); lia).
    apply bind_Ret in H as ([cH1 ds1] & H1 & H).
    apply bind_Ret in H as (ds2 & H2 & H). injection H as <-.
    apply renderApp_band in H1 as (-> & B1 & A1); [| lia ..].
    apply IH in H2 as (B2 & A2); [| lia ..].
    split.
    + simpl. apply Band_app; eapply Band_weaken; try eassumption; lia.
    + apply FOP_app; try assumption. eapply Band_apart; [eassumption .. | lia].
Qed.

Lemma layout_Apart (height : Z) (state : State.t) (ds : list Drawable) :
  stateRows state <= Int.max_int ->
  layout arch width height state = Ret ds ->
  Apart ds.
Proof using width_ok.
  unfold stateRows. intros Hmax H. unfold layout in H.
  pose proof (appsRows_nonneg (State.Apps state)) as Happs.
  apply bind_Ret in H as (ds1 & H1 & H). injection H as <-.
  revert H1. unwrap. intros H1.
  apply renderApps_band in H1 as (B1 & A1); [| lia ..].
  constructor; [| exact A1].
  eapply List.Forall_impl; [| exact B1]. simpl. intros d [Hd _].
  apply apart_rows. unfold SetRect. simpl. lia.
Qed.

End Disjoint.

(** ** A frame and what it frames are the only widgets that overlap *)

Lemma overlap_rows (a b : Drawable) :
  image.MaxY (Rectangle a) <= image.MinY (Rectangle b) -> overlap a b = false.
Proof.
  intros H. unfold overlap.
  destruct (image.Overlaps (Rectangle a) (Rectangle b)) eqn:E; [| reflexivity].
  apply Overlaps_true in E. lia.
Qed.

Lemma Band_disjoint (lo mid mid' hi : Z) (ds ds' : list Drawable) :
  Band lo mid ds -> Band mid' hi ds' -> mid <= mid' -> disjoint ds ds'.
Proof.
  unfold Band. rewrite !List.Forall_forall. intros H H' Hmid a b Ha Hb.
  apply overlap_rows. specialize (H a Ha). specialize (H' b Hb). lia.
Qed.

Lemma Band_app_inv (lo hi : Z) (ds ds' : list Drawable) :
  Band lo hi (ds ++ ds') -> Band lo hi ds /\ Band lo hi ds'.
Proof. unfold Band. apply Forall_app. Qed.

Lemma Band_block (lo hi : Z) (Js : list (Drawable * list Drawable))
    (K : Drawable * list Drawable) :
  Band lo hi (flat_map jobBlockOf Js) -> In K Js -> Band lo hi (jobBlockOf K).
Proof.
  unfold Band. rewrite !List.Forall_forall. intros H HK d Hd.
  apply H. apply in_flat_map. eauto.
Qed.

Lemma Band_appBlock (lo hi : Z) (As : list (Drawable * list (Drawable * list Drawable)))
    (B : Drawable * list (Drawable * list Drawable)) :
  Band lo hi (flat_map appBlockOf As) -> In B As -> Band lo hi (appBlockOf B).
Proof.
  unfold Band. rewrite !List.Forall_forall. intros H HB d Hd.
  apply H. apply in_flat_map. eauto.
Qed.

Lemma content_pairs (ds : list Drawable) :
  ForallOrdPairs apart ds -> Forall (fun d => layer d = 2%nat) ds ->
  ForallOrdPairs (fun a b => overlap a b = false) ds.
Proof.
  induction 1 as [|a l Ha Hl IH]; intros Hc; [constructor |].
  inversion Hc as [|? ? Hca Hcl]; subst. constructor; [| now apply IH].
  rewrite List.Forall_forall in *. intros b Hb. apply Ha; [exact Hb |].
  rewrite Hca. symmetry. now apply Hcl.
Qed.

Section Blocks.

Variable arch : float64 -> Z.
Variable width : Z.
Hypothesis width_ok : 0 <= width <= Int.max_int.

Abbreviation noOverlap := (fun a b : Drawable => overlap a b = false).
Abbreviation jobsApart :=
  (fun J K : Drawable * list Drawable => disjoint (jobBlockOf J) (jobBlockOf K)).
Abbreviation appsApart :=
  (fun A B : Drawable * list (Drawable * list Drawable) =>
     disjoint (appBlockOf A) (appBlockOf B)).

Lemma renderJob_block (currentHeight : Z) (job : EnrichedJob.t) (cih cih' : Z)
    (ds : list Drawable) :
  0 <= currentHeight -> 0 <= cih ->
  currentHeight + cih + jobRows job <= Int.max_int ->
  renderJob arch width (Int.quot width 2) currentHeight job cih = Ret (cih', ds) ->
  exists J, ds = jobBlockOf J /\ jobShape job J /\ ForallOrdPairs noOverlap (snd J).
Proof using width_ok.
  unfold jobRows. intros HcH Hcih Hmax H. unfold renderJob in H.
  apply bind_Ret in H as ([cih1 ds1] & H1 & H). injection H as <- <-.
  revert H1. unwrap. intros H1. pose proof H1 as H1'.
  apply (renderStages_band arch width width_ok) in H1 as (_ & _ & A1 & C1); [| lia ..].
  apply renderStages_rows in H1' as (_ & Hlen & _); [| lia ..].
  eexists (_, ds1). split; [reflexivity |]. split.
  - split; [reflexivity |]. split; [exact Hlen | exact C1].
  - now apply content_pairs.
Qed.

Lemma renderJobs_blocks (currentHeight : Z) (jobs : list EnrichedJob.t) :
  forall (cih cih' : Z) (ds : list Drawable),
  0 <= currentHeight -> 0 <= cih ->
  currentHeight + cih + jobsRows jobs <= Int.max_int ->
  renderJobs arch width (Int.quot width 2) currentHeight jobs cih = Ret (cih', ds) ->
  exists Js,
    ds = flat_map jobBlockOf Js
    /\ Forall2 jobShape jobs Js
    /\ ForallOrdPairs jobsApart Js
    /\ Forall (fun J => ForallOrdPairs noOverlap (snd J)) Js.
Proof using width_ok.
  induction jobs as [|job rest IH]; intros cih cih' ds HcH Hcih Hmax H.
  - simpl in H. injection H as <- <-. exists []. repeat split; constructor.
  - simpl in H. simpl in Hmax.
    assert (Hrest : 0 <= jobsRows rest).
    { clear. induction rest as [|j r IHr]; simpl; [lia |]. unfold jobRows. lia. }
    assert (Hjob : 2 <= jobRows job) by (unfold jobRows; lia).
    apply bind_Ret in H as ([cih1 ds1] & H1 & H).
    apply bind_Ret in H as ([cih2 ds2] & H2 & H). injection H as <- <-.
    pose proof H1 as H1'. pose proof H2 as H2'.
    apply (renderJob_band arch width width_ok) in H1' as (-> & B1 & _); [| lia ..].
    apply (renderJobs_band arch width width_ok) in H2' as (_ & B2 & _); [| lia ..].
    apply renderJob_block in H1 as (J & -> & SJ & PJ); [| lia ..].
    apply IH in H2 as (Js & -> & SJs & AJs & PJs); [| lia ..].
    exists (J :: Js). split; [reflexivity |]. split; [now constructor |].
    split; [| now constructor]. constructor; [| exact AJs].
    apply List.Forall_forall. intros K HK.
    eapply Band_disjoint; [exact B1 | eapply Band_block; eassumption | lia].
Qed.

Lemma renderApp_block (app : EnrichedApplication.t) (currentHeight currentHeight' : Z)
    (ds : list Drawable) :
  0 <= currentHeight ->
  currentHeight + appRows app <= Int.max_int ->
  renderApp arch width app currentHeight = Ret (currentHeight', ds) ->
  exists A,
    ds = appBlockOf A
    /\ appShape app A
    /\ ForallOrdPairs jobsApart (snd A)
    /\ Forall (fun J => ForallOrdPairs noOverlap (snd J)) (snd A).
Proof using width_ok.
  unfold appRows. intros HcH Hmax H. unfold renderApp in H.
  assert (Hjobs : 0 <= jobsRows (EnrichedApplication.Jobs app)).
  { clear. induction (EnrichedApplication.Jobs app) as [|j r IHr]; simpl; [lia |].
    unfold jobRows. lia. }
  apply bind_Ret in H as ([cih1 ds1] & H1 & H). injection H as <- <-.
  apply renderJobs_blocks in H1 as (Js & -> & SJs & AJs & PJs); [| lia ..].
  eexists (_, Js). split; [reflexivity |]. split; [| split; assumption].
  split; [reflexivity | exact SJs].
Qed.

Lemma renderApps_blocks (apps : list EnrichedApplication.t) :
  forall (currentHeight : Z) (ds : list Drawable),
  0 <= currentHeight ->
  currentHeight + appsRows apps <= Int.max_int ->
  renderApps arch width apps currentHeight = Ret ds ->
  exists As,
    ds = flat_map appBlockOf As
    /\ Forall2 appShape apps As
    /\ ForallOrdPairs appsApart As
    /\ Forall (fun A => ForallOrdPairs jobsApart (snd A)
                        /\ Forall (fun J => ForallOrdPairs noOverlap (snd J)) (snd A)) As.
Proof using width_ok.
  induction apps as [|app rest IH]; intros currentHeight ds HcH Hmax H.
  - simpl in H. injection H as <-. exists []. repeat split; constructor.
  - simpl in H. simpl in Hmax.
    assert (Hrest : 0 <= appsRows rest).
    { clear. induction rest as [|a r IHr]; simpl; [lia |]. unfold appRows.
      assert (0 <= jobsRows (EnrichedApplication.Jobs a)); [| lia].
      induction (EnrichedApplication.Jobs a) as [|j q IHq]; simpl; [lia |].
      unfold jobRows. lia. }
    assert (Happ : 2 <= appRows app).
    { unfold appRows. assert (0 <= jobsRows (EnrichedApplication.Jobs app)); [| lia].
      induction (EnrichedApplication.Jobs app) as [|j q IHq]; simpl; [lia |].
      unfold jobRows. lia. }
    apply bind_Ret in H as ([cH1 ds1] & H1 & H).
    apply bind_Ret in H as (ds2 & H2 & H). injection H as <-.
    pose proof H1 as H1'. pose proof H2 as H2'.
    apply (renderApp_band arch width width_ok) in H1' as (-> & B1 & _); [| lia ..].
    apply (renderApps_band arch width width_ok) in H2' as (B2 & _); [| lia ..].
    apply renderApp_block in H1 as (A & -> & SA & AA & PA); [| lia ..].
    apply IH in H2 as (As & -> & SAs & AAs & PAs); [| lia ..].
    exists (A :: As). split; [reflexivity |]. split; [now constructor |].
    split; [| constructor; [split; assumption | exact PAs]].
    constructor; [| exact AAs].
    apply List.Forall_forall. intros B HB.
    eapply Band_disjoint; [exact B1 | eapply Band_appBlock; eassumption | lia].
Qed.

End Blocks.

(** C7. When the terminal width is not negative and the rows of the
    state fit an [int], the list that the layout pass returns is the
    header followed by one block for each application: its frame and,
    for each of its jobs, the frame of the job and three content widgets
    for each stage. The header overlaps no other widget; no widget of an
    application overlaps a widget of another application; within an
    application no widget of a job, its frame included, overlaps a widget
    of another job; within a job no two content widgets overlap, the
    label and the gauge of a row among them. So the only widgets that
    overlap are a frame and what it frames, as the nesting of the blocks
    has it; in particular two widgets of one layer never overlap. *)
Theorem layout_regions_disjoint
    (arch : float64 -> Z) (width height : Z) (state : State.t) (ds : list Drawable) :
  0 <= width <= Int.max_int ->
  stateRows state <= Int.max_int ->
  layout arch width height state = Ret ds ->
  (exists header blocks,
     ds = header :: flat_map appBlockOf blocks
     /\ layer header = 2%nat
     /\ Forall2 appShape (State.Apps state) blocks
     /\ disjoint [header] (flat_map appBlockOf blocks)
     /\ ForallOrdPairs
          (fun A B => disjoint (appBlockOf A) (appBlockOf B)) blocks
     /\ Forall
          (fun A =>
             ForallOrdPairs
               (fun J K => disjoint (jobBlockOf J) (jobBlockOf K)) (snd A)
             /\ Forall
                  (fun J => ForallOrdPairs (fun a b => overlap a b = false) (snd J))
                  (snd A))
          blocks)
  /\ (forall (i j : nat) (a b : Drawable),
        i <> j -> ds !! i = Some a -> ds !! j = Some b ->
        layer a = layer b -> overlap a b = false).
Proof.
  intros Hw Hrows H. split.
  - unfold layout in H. apply bind_Ret in H as (ds1 & H1 & H). injection H as <-.
    revert H1. unwrap. intros H1. unfold stateRows in Hrows. pose proof H1 as H1'.
    apply (renderApps_band arch width Hw) in H1' as (B1 & _); [| lia ..].
    apply (renderApps_blocks arch width Hw) in H1 as (As & -> & SAs & AAs & PAs);
      [| lia ..].
    eexists _, As. split; [reflexivity |]. split; [reflexivity |].
    split; [exact SAs |]. split; [| split; assumption].
    eapply (Band_disjoint 0 1 2); [| exact B1 | lia].
    constructor; [| constructor]. unfold SetRect. simpl. lia.
  - intros i j a b Hij Ha Hb.
    eapply FOP_lookup with (R := apart); try eassumption.
    + apply apart_sym.
    + eapply layout_Apart; eassumption.
Qed.

Lemma layout_regions_disjoint_witness :
  exists ds frame label,
    layout amd64 40 10 Sample.twoJobs = Ret ds
    /\ ds !! 2%nat = Some frame /\ ds !! 7%nat = Some label
    /\ layer frame = 1%nat /\ layer label = 2%nat
    /\ overlap frame label = false.
Proof.
  destruct (layout amd64 40 10 Sample.twoJobs) as [ds| |] eqn:E;
    try (vm_compute in E; discriminate).
  destruct (layout_regions_disjoint amd64 40 10 Sample.twoJobs ds)
    as [(header & blocks & Hds & _ & Hshape & _ & _ & Hjobs) _];
    try assumption; try (vm_compute; intuition discriminate).
  unfold Sample.twoJobs in Hshape. cbn [State.Apps] in Hshape.
  inversion Hshape as [|app A apps As [_ HA] HAs]; subst.
  inversion HAs; subst. cbn [EnrichedApplication.Jobs] in HA.
  destruct A as [root Js]. cbn [fst snd] in *.
  inversion HA as [|job1 J jobs1 Js1 (HlJ & HnJ & _) HJs1]; subst.
  inversion HJs1 as [|job2 K jobs2 Js2 (_ & HnK & HcK) HJs2]; subst.
  inversion HJs2; subst.
  destruct J as [jf ws]. destruct K as [kf ws']. cbn [fst snd] in *.
  destruct ws as [|a1 [|a2 [|a3 [|]]]]; try discriminate.
  destruct ws' as [|b1 [|b2 [|b3 [|]]]]; try discriminate.
  inversion HcK as [|? ? Hb1 _]; subst.
  inversion Hjobs as [|? ? [Hapart _] _]; subst. cbn [snd] in Hapart.
  inversion Hapart as [|? ? HJK _]; subst.
  inversion HJK as [|? ? Hdis _]; subst.
  eexists _, jf, b1. split; [reflexivity |].
  split; [reflexivity |]. split; [reflexivity |].
  split; [exact HlJ |]. split; [exact Hb1 |].
  apply Hdis; simpl; tauto.
Defined.



(* ================================================================== *)
(** * The state aggregation *)

(** ** Resolving the stage references of a job *)

Lemma foldl_insert_lookup_None (stages : list Stage.t) :
  forall (m : gmap Z Stage.t) (k : Z),
    foldl (fun m stage => <[Stage.Index stage := stage]> m) m stages !! k = None
    <-> m !! k = None /\ Forall (fun stage => Stage.Index stage <> k) stages.
Proof.
  induction stages as [|stage rest IH]; intros m k; simpl.
  - split; [intros H; split; [exact H | constructor] | tauto].
  - rewrite IH. rewrite lookup_insert_None. split.
    + intros [[Hm Hne] Hrest]. split; [exact Hm |]. now constructor.
    + intros [Hm Hall]. inversion Hall; subst. tauto.
Qed.

Lemma stagesMap_lookup_None (stages : list Stage.t) (k : Z) :
  stagesMap stages !! k = None <-> Forall (fun stage => Stage.Index stage <> k) stages.
Proof.
  unfold stagesMap. rewrite foldl_insert_lookup_None, lookup_empty. tauto.
Qed.

Lemma foldl_insert_lookup_Some (stages : list Stage.t) :
  forall (m : gmap Z Stage.t) (k : Z) (stage : Stage.t),
    foldl (fun m stage => <[Stage.Index stage := stage]> m) m stages !! k = Some stage ->
    (m !! k = Some stage /\ Forall (fun s => Stage.Index s <> k) stages)
    \/ (In stage stages /\ Stage.Index stage = k).
Proof.
  induction stages as [|s rest IH]; intros m k stage H; simpl in *.
  - left. split; [exact H | constructor].
  - apply IH in H as [[H Hrest]|[Hin Hk]].
    + apply lookup_insert_Some in H as [[<- <-]|[Hne H]].
      * right. split; [now left | reflexivity].
      * left. split; [exact H | now constructor].
    + right. split; [now right | exact Hk].
Qed.

Lemma stagesMap_lookup_Some (stages : list Stage.t) (k : Z) (stage : Stage.t) :
  stagesMap stages !! k = Some stage -> In stage stages /\ Stage.Index stage = k.
Proof.
  unfold stagesMap. intros H.
  apply foldl_insert_lookup_Some in H as [[H _]|H]; [| exact H].
  rewrite lookup_empty in H. discriminate.
Qed.

(** C6, amended. Resolving the stage references of a job cannot fail: it
    is a lookup for each reference, in the order of the references. A
    reference to an index that no stage of the application has resolves to
    the zero value of [Stage], whatever the index, the job and the stages
    are: index 0, empty name, status and details, no tasks. Nothing in it
    says that the reference was not resolved. *)
Theorem unknown_stage_resolves_to_zero_value :
  Stage.zero = Stage.mk 0 "" "" "" 0 0 0 0 0
  /\ forall (stages : list Stage.t) (job : Job.t),
       length (EnrichedJob.Stages (enrichJob (stagesMap stages) job))
       = length (Job.Stages job)
       /\ EnrichedJob.Job (enrichJob (stagesMap stages) job) = job
       /\ forall (k : nat) (jobStage : Z),
            Job.Stages job !! k = Some jobStage ->
            (Forall (fun stage => Stage.Index stage <> jobStage) stages ->
             EnrichedJob.Stages (enrichJob (stagesMap stages) job) !! k = Some Stage.zero)
            /\ (forall stage,
                  stagesMap stages !! jobStage = Some stage ->
                  EnrichedJob.Stages (enrichJob (stagesMap stages) job) !! k = Some stage
                  /\ In stage stages /\ Stage.Index stage = jobStage).
Proof.
  split; [reflexivity |]. intros stages job. unfold enrichJob. simpl.
  split; [apply length_map |]. split; [reflexivity |].
  intros k jobStage Hk. rewrite list_lookup_fmap, Hk. simpl. unfold map_index. split.
  - intros Habsent. apply stagesMap_lookup_None in Habsent. now rewrite Habsent.
  - intros stage Hs. rewrite Hs. split; [reflexivity |].
    now apply stagesMap_lookup_Some.
Qed.

(** C6 does not hold as stated, in its last part: the stage that an
    unknown reference resolves to has an empty name and an empty status,
    and it is the very value that a reference to a stage 0 whose fields
    are all zero resolves to. *)
Lemma unknown_stage_is_not_flagged :
  let job (jobStage : Z) := Job.mk 0 "collect at Main.scala:18" [jobStage] "RUNNING" in
  let unknown := enrichJob (stagesMap [Demo.stage 1]) (job 7) in
  let known := enrichJob (stagesMap [Stage.zero; Demo.stage 1]) (job 0) in
  EnrichedJob.Stages unknown = [Stage.zero]
  /\ Stage.Name Stage.zero = ""
  /\ Stage.Status Stage.zero = ""
  /\ EnrichedJob.Stages known = EnrichedJob.Stages unknown.
Proof. vm_compute. repeat split. Qed.

Lemma unknown_stage_resolves_to_zero_value_witness :
  EnrichedJob.Stages
    (enrichJob (stagesMap Demo.stages) (Job.mk 5 "count at Main.scala:9" [7] "RUNNING"))
    !! 0%nat = Some Stage.zero.
Proof.
  destruct unknown_stage_resolves_to_zero_value as [_ H].
  destruct (H Demo.stages (Job.mk 5 "count at Main.scala:9" [7] "RUNNING")) as (_ & _ & Hk).
  destruct (Hk 0%nat 7 eq_refl) as [Hzero _].
  apply Hzero. repeat constructor; discriminate.
Defined.

(** ** Failures of the endpoint reads *)

Section Aggregation.

Variable W : Type.
Variable Response : Type.
Variable http_Get : string -> W -> (string + Response) * W.
Variable ioutil_ReadAll : Response -> W -> (string + string) * W.
Variable Unmarshal_apps :
  string -> list ApplicationIdAndName.t -> string + list ApplicationIdAndName.t.
Variable Unmarshal_jobs : string -> list Job.t -> string + list Job.t.
Variable Unmarshal_stages : string -> list Stage.t -> string + list Stage.t.
Variable sort_Slice : forall A : Type, (A -> A -> bool) -> list A -> list A.

Abbreviation readApiEndpoint' := (@readApiEndpoint W Response http_Get ioutil_ReadAll).
Abbreviation getApplications' :=
  (getApplications W Response http_Get ioutil_ReadAll Unmarshal_apps).
Abbreviation getJobs' :=
  (getJobs W Response http_Get ioutil_ReadAll Unmarshal_jobs sort_Slice).
Abbreviation getStages' :=
  (getStages W Response http_Get ioutil_ReadAll Unmarshal_stages sort_Slice).
Abbreviation enrichApp' :=
  (enrichApp W Response http_Get ioutil_ReadAll Unmarshal_jobs Unmarshal_stages sort_Slice).
Abbreviation enrichApps' :=
  (enrichApps W Response http_Get ioutil_ReadAll Unmarshal_jobs Unmarshal_stages sort_Slice).
Abbreviation computeState' :=
  (computeState W Response http_Get ioutil_ReadAll
     Unmarshal_apps Unmarshal_jobs Unmarshal_stages sort_Slice).

Abbreviation jobsEndpoint app :=
  ("/api/v1/applications/" +:+ ApplicationIdAndName.Id app +:+ "/jobs").
Abbreviation stagesEndpoint app :=
  ("/api/v1/applications/" +:+ ApplicationIdAndName.Id app +:+ "/stages").

(** The ways [readApiEndpoint] goes, one for each library call. *)
Lemma readApiEndpoint_cases {A : Type} (Unmarshal : string -> A -> string + A)
    (host endpoint : string) (out : A) (w : World W) :
  readApiEndpoint' Unmarshal host endpoint out w =
  match http_Get (host +:+ endpoint) (net w) with
  | (inl err, _) => Fatal ("Failed to GET endpoint " +:+ endpoint +:+ ": " +:+ err)
  | (inr resp, n1) =>
      match ioutil_ReadAll resp n1 with
      | (inl err, _) => Fatal ("Failed to read body for " +:+ endpoint +:+ ": " +:+ err)
      | (inr body, n2) =>
          match Unmarshal body out with
          | inl err =>
              Fatal ("Failed to parse applications response for "
                       +:+ endpoint +:+ ": " +:+ err)
          | inr v => Ret (v, mkWorld n2 (trace w ++ [EvGet (host +:+ endpoint)]))
          end
      end
  end.
Proof.
  unfold readApiEndpoint, mbind, IO_bind, emit, call, log_Fatalf. cbn.
  destruct (http_Get (host +:+ endpoint) (net w)) as [[err|resp] n1]; cbn;
    [reflexivity |].
  destruct (ioutil_ReadAll resp n1) as [[err|body] n2]; cbn; [reflexivity |].
  destruct (Unmarshal body out); reflexivity.
Qed.

Lemma readApiEndpoint_no_panic {A : Type} (Unmarshal : string -> A -> string + A)
    (host endpoint : string) (out : A) (w : World W) :
  no_panic (readApiEndpoint' Unmarshal host endpoint out w).
Proof.
  rewrite readApiEndpoint_cases.
  destruct (http_Get (host +:+ endpoint) (net w)) as [[err|resp] n1]; [exact I |].
  destruct (ioutil_ReadAll resp n1) as [[err|body] n2]; [exact I |].
  destruct (Unmarshal body out); exact I.
Qed.

(** A bind in [IO] is fatal when its first part is, and otherwise goes on
    with the second part. *)
Lemma IO_bind_Fatal {A B : Type} (m : IO W A) (f : A -> IO W B) (w : World W) (msg : string) :
  m w = Fatal msg -> mbind f m w = Fatal msg.
Proof. unfold mbind, IO_bind. now intros ->. Qed.

Lemma IO_bind_Ret {A B : Type} (m : IO W A) (f : A -> IO W B) (w w' : World W) (a : A) :
  m w = Ret (a, w') -> mbind f m w = f a w'.
Proof. unfold mbind, IO_bind. now intros ->. Qed.

Lemma IO_bind_inv {A B : Type} (m : IO W A) (f : A -> IO W B) (w w' : World W) (b : B) :
  mbind f m w = Ret (b, w') -> exists a w1, m w = Ret (a, w1) /\ f a w1 = Ret (b, w').
Proof.
  unfold mbind, IO_bind. destruct (m w) as [[a w1]| |]; try discriminate. eauto.
Qed.

Lemma IO_bind_no_panic {A B : Type} (m : IO W A) (f : A -> IO W B) (w : World W) :
  no_panic (m w) -> (forall a w', no_panic (f a w')) -> no_panic (mbind f m w).
Proof.
  unfold mbind, IO_bind. intros Hm Hf.
  destruct (m w) as [[a w']| |]; [apply Hf | destruct Hm | exact I].
Qed.

(** The three readers fail when their endpoint read does, and only then. *)
Lemma readers_Fatal (host : string) (app : ApplicationIdAndName.t) (w : World W)
    (msg : string) :
  (getApplications' host w = Fatal msg
   <-> readApiEndpoint' Unmarshal_apps host "/api/v1/applications" [] w = Fatal msg)
  /\ (getJobs' host app w = Fatal msg
      <-> readApiEndpoint' Unmarshal_jobs host (jobsEndpoint app) [] w = Fatal msg)
  /\ (getStages' host app w = Fatal msg
      <-> readApiEndpoint' Unmarshal_stages host (stagesEndpoint app) [] w = Fatal msg).
Proof.
  split; [reflexivity |].
  split; unfold getJobs, getStages, mbind, IO_bind;
    match goal with |- context [readApiEndpoint' ?u ?h ?e ?o ?w] =>
      destruct (readApiEndpoint' u h e o w) as [[fetched w']| |] end;
    split; intros H; try discriminate; exact H.
Qed.

Lemma enrichApp_no_panic (host : string) (app : ApplicationIdAndName.t) (w : World W) :
  no_panic (enrichApp' host app w).
Proof.
  unfold enrichApp, getJobs, getStages.
  repeat first
    [ apply readApiEndpoint_no_panic
    | exact I
    | apply IO_bind_no_panic; [| intros ? ?] ].
Qed.

Lemma enrichApps_no_panic (host : string) (apps : list ApplicationIdAndName.t) :
  forall w : World W, no_panic (enrichApps' host apps w).
Proof.
  induction apps as [|app rest IH]; intros w; simpl; [exact I |].
  apply IO_bind_no_panic; [apply enrichApp_no_panic | intros e w1].
  apply IO_bind_no_panic; [apply IH | intros es w2]. exact I.
Qed.

(** The applications that were enriched before one fails do not matter:
    the loop is fatal with the message of the failure. *)
Lemma enrichApps_Fatal (host : string) (before : list ApplicationIdAndName.t) :
  forall (app : ApplicationIdAndName.t) (after : list ApplicationIdAndName.t)
         (done : list EnrichedApplication.t) (w w1 : World W) (msg : string),
    enrichApps' host before w = Ret (done, w1) ->
    enrichApp' host app w1 = Fatal msg ->
    enrichApps' host (before ++ app :: after) w = Fatal msg.
Proof.
  induction before as [|b before IH]; intros app after done w w1 msg Hdone Happ; simpl in *.
  - injection Hdone as <- <-. now apply IO_bind_Fatal.
  - apply IO_bind_inv in Hdone as (e & w2 & He & Hdone).
    apply IO_bind_inv in Hdone as (es & w3 & Hes & Hret).
    injection Hret as <- <-.
    rewrite (IO_bind_Ret _ _ _ _ _ He). apply IO_bind_Fatal.
    eapply IH; eassumption.
Qed.

(** What a returned loop has done: one enriched application for each
    application, in their order. *)
Lemma enrichApps_Ret (host : string) (apps : list ApplicationIdAndName.t) :
  forall (es : list EnrichedApplication.t) (w w' : World W),
    enrichApps' host apps w = Ret (es, w') ->
    map EnrichedApplication.App es = apps
    /\ Forall (fun e => exists wa wb,
                 enrichApp' host (EnrichedApplication.App e) wa = Ret (e, wb)) es.
Proof.
  induction apps as [|app rest IH]; intros es w w' H; simpl in H.
  - injection H as <- <-. split; [reflexivity | constructor].
  - apply IO_bind_inv in H as (e & w1 & He & H).
    apply IO_bind_inv in H as (es' & w2 & Hes & H). injection H as <- <-.
    apply IH in Hes as [Hmap Hall].
    assert (Happ : EnrichedApplication.App e = app).
    { unfold enrichApp in He.
      apply IO_bind_inv in He as (jobs & wj & _ & He).
      apply IO_bind_inv in He as (stages & ws & _ & He). now injection He as <- <-. }
    split; [simpl; now rewrite Happ, Hmap |].
    constructor; [| exact Hall]. exists w, w1. now rewrite Happ.
Qed.

(** The ways [computeState] goes. An endpoint read is fatal exactly when
    one of its three library calls returns an error; a fatal read of the
    applications, or of the jobs or stages of an application after the
    applications before it were enriched, is fatal for [computeState],
    with the same message; a state that is returned holds one enriched
    application for each application of the list, in the order of the
    list. *)
Lemma computeState_cases (host : string) (w : World W) :
  no_panic (computeState' host w)
  /\ (forall (A : Type) (Unmarshal : string -> A -> string + A)
             (endpoint : string) (out : A) (w0 : World W),
        (exists msg, readApiEndpoint' Unmarshal host endpoint out w0 = Fatal msg)
        <-> (exists err n, http_Get (host +:+ endpoint) (net w0) = (inl err, n))
            \/ (exists resp n1 err n2,
                  http_Get (host +:+ endpoint) (net w0) = (inr resp, n1)
                  /\ ioutil_ReadAll resp n1 = (inl err, n2))
            \/ (exists resp n1 body n2 err,
                  http_Get (host +:+ endpoint) (net w0) = (inr resp, n1)
                  /\ ioutil_ReadAll resp n1 = (inr body, n2)
                  /\ Unmarshal body out = inl err))
  /\ (forall msg, getApplications' host w = Fatal msg -> computeState' host w = Fatal msg)
  /\ (forall apps w1 before app after done w2 msg,
        getApplications' host w = Ret (apps, w1) ->
        apps = before ++ app :: after ->
        enrichApps' host before w1 = Ret (done, w2) ->
        getJobs' host app w2 = Fatal msg
        \/ (exists jobs w3,
              getJobs' host app w2 = Ret (jobs, w3) /\ getStages' host app w3 = Fatal msg) ->
        computeState' host w = Fatal msg)
  /\ (forall state w',
        computeState' host w = Ret (state, w') ->
        State.Host state = host
        /\ exists apps w1,
             getApplications' host w = Ret (apps, w1)
             /\ enrichApps' host apps w1 = Ret (State.Apps state, w')
             /\ map EnrichedApplication.App (State.Apps state) = apps).
Proof.
  split; [| split; [| split; [| split]]].
  - unfold computeState, getApplications.
    apply IO_bind_no_panic; [apply readApiEndpoint_no_panic | intros apps w1].
    apply IO_bind_no_panic; [apply enrichApps_no_panic | intros es w2]. exact I.
  - intros A Unmarshal endpoint out w0. rewrite readApiEndpoint_cases.
    destruct (http_Get (host +:+ endpoint) (net w0)) as [[err|resp] n1].
    { split; [intros _; left; now exists err, n1 | intros _; eexists; reflexivity]. }
    destruct (ioutil_ReadAll resp n1) as [[err|body] n2] eqn:Er.
    { split; [intros _; right; left; now exists resp, n1, err, n2
             | intros _; eexists; reflexivity]. }
    destruct (Unmarshal body out) as [err|v] eqn:E.
    { split; [intros _; right; right; now exists resp, n1, body, n2, err
             | intros _; eexists; reflexivity]. }
    split; [intros [msg H]; discriminate |].
    intros [(err & n & H)|[(r & m1 & err & m2 & H1 & H2)|(r & m1 & b & m2 & err & H1 & H2 & H3)]];
      congruence.
  - intros msg H. unfold computeState. now apply IO_bind_Fatal.
  - intros apps w1 before app after done w2 msg Happs -> Hdone Hfail.
    unfold computeState. rewrite (IO_bind_Ret _ _ _ _ _ Happs).
    apply IO_bind_Fatal. eapply enrichApps_Fatal; [exact Hdone |].
    unfold enrichApp. destruct Hfail as [Hj|(jobs & w3 & Hj & Hs)].
    + now apply IO_bind_Fatal.
    + rewrite (IO_bind_Ret _ _ _ _ _ Hj). now apply IO_bind_Fatal.
  - intros state w' H. unfold computeState in H.
    apply IO_bind_inv in H as (apps & w1 & Ha & H).
    apply IO_bind_inv in H as (es & w2 & He & H). injection H as <- <-.
    simpl. split; [reflexivity |].
    exists apps, w1. split; [exact Ha |]. split; [exact He |].
    now apply enrichApps_Ret in He as [Hmap _].
Qed.

(** ** The order of jobs and stages *)

Abbreviation byJobIndex := (fun a b : Job.t => Job.Index a <= Job.Index b).
Abbreviation byStageIndex := (fun a b : Stage.t => Stage.Index a <= Stage.Index b).



End Aggregation.



(* ================================================================== *)
(** * The detail line of a stage *)

Lemma firstForeignLine_None (details : string) :
  firstForeignLine details = None
  <-> Forall (fun line => HasPrefix line "org.apache" = true) (Split_LF details).
Proof.
  unfold firstForeignLine. rewrite find_None_Forall.
  split; intros H; eapply Forall_impl; try exact H; simpl; intros line;
    destruct (HasPrefix line "org.apache"); simpl; congruence.
Qed.

Lemma Join_LF_cons (piece piece' : string) (pieces : list string) :
  Join_LF (piece :: piece' :: pieces) = piece +:+ String LF (Join_LF (piece' :: pieces)).
Proof. reflexivity. Qed.

Lemma Join_Split_LF (s : string) : Join_LF (Split_LF s) = s.
Proof.
  induction s as [|c s IH]; [reflexivity |]. cbn [Split_LF].
  destruct (Split_LF_cons s) as (piece & pieces & Hs). rewrite Hs in *.
  destruct (Ascii.eqb c LF) eqn:E.
  - apply Ascii.eqb_eq in E. subst c.
    rewrite Join_LF_cons, IH. reflexivity.
  - destruct pieces as [|piece' pieces].
    + cbn [Join_LF] in *. now rewrite IH.
    + rewrite Join_LF_cons in *. rewrite <- IH. reflexivity.
Qed.

Lemma Split_LF_no_LF (s : string) :
  Forall (fun line => has_LF line = false) (Split_LF s).
Proof.
  induction s as [|c s IH]; simpl; [repeat constructor |].
  destruct (Ascii.eqb c LF) eqn:E; [constructor; [reflexivity | exact IH] |].
  destruct (Split_LF_cons s) as (piece & pieces & Hs). rewrite Hs in *.
  inversion IH as [|? ? Hp Hps]; subst. constructor; [| exact Hps].
  simpl. now rewrite E.
Qed.

Lemma find_first {A : Type} (f : A -> bool) (l : list A) (x : A) :
  List.find f l = Some x ->
  exists before after,
    l = before ++ x :: after /\ Forall (fun y => f y = false) before /\ f x = true.
Proof.
  induction l as [|y l IH]; simpl; [discriminate |].
  destruct (f y) eqn:E.
  - intros [= <-]. exists [], l. repeat split; [constructor | exact E].
  - intros H. destruct (IH H) as (before & after & -> & Hb & Hx).
    exists (y :: before), after. repeat split; [constructor; assumption | exact Hx].
Qed.

Lemma HasPrefix_spec (s p : string) :
  HasPrefix s p = true <-> exists rest : string, s = p +:+ rest.
Proof.
  unfold HasPrefix. revert s. induction p as [|c p IH]; intros s.
  - split; [intros _; now exists s | now destruct s].
  - destruct s as [|d s]; simpl.
    + split; [discriminate | intros [rest [=]]].
    + destruct (ascii_dec c d) as [->|Hne].
      * rewrite IH. split; intros [rest H]; exists rest; [now rewrite H | now injection H].
      * split; [discriminate | intros [rest [= E _]]; now destruct Hne].
Qed.

Lemma find_app_first {A : Type} (f : A -> bool) (before after : list A) (x : A) :
  Forall (fun y => f y = false) before -> f x = true ->
  List.find f (before ++ x :: after) = Some x.
Proof.
  induction 1 as [|y before Hy _ IH]; intros Hx; simpl.
  - now rewrite Hx.
  - rewrite Hy. now apply IH.
Qed.

Lemma foreign_line (line : string) :
  negb (HasPrefix line "org.apache") = false <-> starts_with_org_apache line.
Proof.
  unfold starts_with_org_apache. rewrite <- HasPrefix_spec.
  now destruct (HasPrefix line "org.apache").
Qed.

Lemma foreign_lines (lines : list string) :
  Forall (fun line => negb (HasPrefix line "org.apache") = false) lines
  <-> Forall starts_with_org_apache lines.
Proof. split; apply List.Forall_impl; intros line; apply foreign_line. Qed.

(** The two ways the loop over the lines ends. *)
Lemma detailsText_cases (details : string) :
  (Forall starts_with_org_apache (Split_LF details)
   /\ detailsText details = "<spark internal>")
  \/ (exists before after,
        Split_LF details = before ++ detailsText details :: after
        /\ Forall starts_with_org_apache before
        /\ ~ starts_with_org_apache (detailsText details)).
Proof.
  unfold detailsText, firstForeignLine.
  destruct (List.find (fun text => negb (HasPrefix text "org.apache")) (Split_LF details))
    as [line|] eqn:E.
  - right. apply find_first in E as (before & after & Hs & Hb & Hx).
    exists before, after. split; [exact Hs |]. split; [now apply foreign_lines |].
    intros H. apply foreign_line in H. congruence.
  - left. split; [| reflexivity]. apply foreign_lines. now apply find_None_Forall.
Qed.

Lemma detailsText_first (details : string) (before after : list string) (line : string) :
  Split_LF details = before ++ line :: after ->
  Forall starts_with_org_apache before ->
  ~ starts_with_org_apache line ->
  detailsText details = line.
Proof.
  intros Hs Hb Hl. unfold detailsText, firstForeignLine. rewrite Hs.
  rewrite (find_app_first _ before after line); [reflexivity | now apply foreign_lines |].
  destruct (negb (HasPrefix line "org.apache")) eqn:E; [reflexivity |].
  now apply foreign_line in E.
Qed.

Lemma placeholder_is_foreign : ~ starts_with_org_apache "<spark internal>".
Proof. intros [rest H]. discriminate. Qed.

(** C10 does not hold as stated: the detail line is [<spark internal>]
    also when the first line of [details] that does not start with
    [org.apache] is that very text. [details] then has a line that does
    not start with [org.apache], and the placeholder text appears all the
    same. *)
Lemma placeholder_text_of_a_foreign_line :
  Split_LF "<spark internal>" = ["<spark internal>"]
  /\ HasPrefix "<spark internal>" "org.apache" = false
  /\ ~ starts_with_org_apache "<spark internal>"
  /\ detailsText "<spark internal>" = "<spark internal>"
  /\ detailsText ("org.apache.spark.rdd.RDD.collect(RDD.scala:1030)"
                    +:+ String LF "<spark internal>")
     = "<spark internal>".
Proof.
  split; [reflexivity |]. split; [reflexivity |].
  split; [exact placeholder_is_foreign |]. split; reflexivity.
Qed.

(** C10, amended. The detail widget of a stage shows [detailsText] of
    its [details]. For the empty [details] that is the empty string: the
    one line of [""] is [""], which does not start with [org.apache].
    For every [details], with its lines the pieces between the line
    feeds: the text is [<spark internal>] exactly when every line starts
    with [org.apache], and [details] is then not empty, or when the first
    line that does not start with it is itself [<spark internal>]; and
    when some line does not start with [org.apache], the text is the
    first such line. *)
Theorem detail_line_text :
  (forall (arch : float64 -> Z) (width labelWidth currentHeight : Z) (stage : Stage.t)
          (cih cih' : Z) (ds : list Drawable),
     renderStage arch width labelWidth currentHeight stage cih = Ret (cih', ds) ->
     exists label bar details,
       ds = [label; bar; details]
       /\ widget details
          = Paragraph (detailsText (Stage.Details stage)) ModifierClear ColorRed)
  /\ detailsText "" = ""
  /\ forall details : string,
       exists lines : list string,
         lines <> []
         /\ Join_LF lines = details
         /\ Forall (fun line => has_LF line = false) lines
         /\ (detailsText details = "<spark internal>"
             <-> Forall starts_with_org_apache lines
                 \/ exists before after,
                      lines = before ++ "<spark internal>" :: after
                      /\ Forall starts_with_org_apache before)
         /\ (Forall starts_with_org_apache lines -> details <> "")
         /\ (forall before line after,
               lines = before ++ line :: after ->
               Forall starts_with_org_apache before ->
               ~ starts_with_org_apache line ->
               detailsText details = line).
Proof.
  split; [| split; [reflexivity |]].
  - intros arch width labelWidth currentHeight stage cih cih' ds H.
    unfold renderStage in H. apply bind_Ret in H as (text & _ & H).
    injection H as <- <-. do 3 eexists. split; reflexivity.
  - intros details. exists (Split_LF details).
    split; [destruct (Split_LF_cons details) as (p & ps & ->); discriminate |].
    split; [apply Join_Split_LF |]. split; [apply Split_LF_no_LF |].
    split; [| split].
    + split.
      * intros Ht. destruct (detailsText_cases details)
          as [[Hall _]|(before & after & Hs & Hb & _)]; [now left |].
        right. exists before, after. rewrite Ht in Hs. now split.
      * intros [Hall|(before & after & Hs & Hb)].
        -- destruct (detailsText_cases details)
             as [[_ Ht]|(before & after & Hs & _ & Hn)]; [exact Ht |].
           exfalso. apply Hn. rewrite List.Forall_forall in Hall. apply Hall.
           rewrite Hs. apply in_or_app. right. now left.
        -- eapply detailsText_first; [exact Hs | exact Hb | exact placeholder_is_foreign].
    + intros Hall ->. inversion Hall as [|? ? [rest H] _]; subst. discriminate.
    + intros before line after. apply detailsText_first.
Qed.

Lemma detail_line_text_witness :
  Stage.Details Stage.zero = ""
  /\ exists cih label bar details,
       renderStage amd64 40 (Int.quot 40 2) 2 Stage.zero 2 = Ret (cih, [label; bar; details])
       /\ widget details = Paragraph "" ModifierClear ColorRed.
Proof.
  split; [reflexivity |].
  destruct (renderStage amd64 40 (Int.quot 40 2) 2 Stage.zero 2) as [[cih ds]| |] eqn:E;
    try (vm_compute in E; discriminate).
  destruct detail_line_text as (Hstage & _ & _).
  destruct (Hstage _ _ _ _ _ _ _ _ E) as (label & bar & details & -> & Hd).
  exists cih, label, bar, details. split; [reflexivity | exact Hd].
Defined.

(* ================================================================== *)
(** * The event loop *)

Section EventLoop.

Variable arch : float64 -> Z.
Variable W : Type.
Variable Response : Type.
Variable http_Get : string -> W -> (string + Response) * W.
Variable ioutil_ReadAll : Response -> W -> (string + string) * W.
Variable Unmarshal_apps :
  string -> list ApplicationIdAndName.t -> string + list ApplicationIdAndName.t.
Variable Unmarshal_jobs : string -> list Job.t -> string + list Job.t.
Variable Unmarshal_stages : string -> list Stage.t -> string + list Stage.t.
Variable sort_Slice : forall A : Type, (A -> A -> bool) -> list A -> list A.

Abbreviation iteration' :=
  (iteration arch W Response http_Get ioutil_ReadAll
     Unmarshal_apps Unmarshal_jobs Unmarshal_stages sort_Slice).

Lemma render_cases (width height : Z) (state : State.t) (w : World W) :
  render arch W width height state w =
  match layout arch width height state with
  | Ret drawables =>
      Ret (tt, mkWorld (net w) (trace w ++ [EvClear; EvRender drawables]))
  | Panic msg => Panic msg
  | Fatal msg => Fatal msg
  end.
Proof.
  unfold render, mbind, IO_bind, lift, emit.
  destruct (layout arch width height state); cbn; [| reflexivity ..].
  now rewrite <- app_assoc.
Qed.

(** C9. On a resize event the loop draws the state it holds at the size
    of the event's payload and goes on holding that state and that size.
    The network is left as it was and nothing is fetched: the only things
    the process does are the [ui.Clear] and the [ui.Render] of [render].
    When the layout pass panics at that size the process ends. *)
Theorem resize_keeps_the_state
    (host : string) (Width Height : Z) (h : Held) (w : World W) :
  iteration' host (uiEvents (mkEvent "<Resize>" (Resize Width Height))) h w =
  match layout arch Width Height (state h) with
  | Ret drawables =>
      Ret (Some (mkHeld (state h) Width Height),
           mkWorld (net w) (trace w ++ [EvClear; EvRender drawables]))
  | Panic msg => Panic msg
  | Fatal msg => Fatal msg
  end.
Proof.
  unfold iteration. cbn [ID payload String.eqb Ascii.eqb Bool.eqb orb].
  unfold mbind at 1, IO_bind at 1. rewrite render_cases.
  destruct (layout arch Width Height (state h)); reflexivity.
Qed.

Abbreviation readApiEndpoint' := (@readApiEndpoint W Response http_Get ioutil_ReadAll).
Abbreviation getApplications' :=
  (getApplications W Response http_Get ioutil_ReadAll Unmarshal_apps).
Abbreviation getJobs' :=
  (getJobs W Response http_Get ioutil_ReadAll Unmarshal_jobs sort_Slice).
Abbreviation getStages' :=
  (getStages W Response http_Get ioutil_ReadAll Unmarshal_stages sort_Slice).
Abbreviation enrichApps' :=
  (enrichApps W Response http_Get ioutil_ReadAll Unmarshal_jobs Unmarshal_stages sort_Slice).
Abbreviation computeState' :=
  (computeState W Response http_Get ioutil_ReadAll
     Unmarshal_apps Unmarshal_jobs Unmarshal_stages sort_Slice).

Lemma refresh_Fatal (host : string) (wakeup : Wakeup) (h : Held) (w : World W)
    (msg : string) :
  refresh wakeup ->
  computeState' host w = Fatal msg ->
  iteration' host wakeup h w = Fatal msg.
Proof.
  intros [->|[p ->]] H; unfold iteration; cbn [ID String.eqb Ascii.eqb Bool.eqb];
    now apply IO_bind_Fatal.
Qed.

(** C8. [computeState] returns a state or fails, and a failure is the end
    of the process in [log.Fatalf], with a message that names the endpoint
    and the error; it never panics. An endpoint read fails exactly when
    [http.Get], the read of the body or [json.Unmarshal] returns an error,
    and each of the three readers fails exactly when its endpoint read does.
    When the read of the applications fails, or the read of the jobs or of
    the stages of an application after the applications before it were
    enriched, [computeState] fails with the same message and returns no
    state, and so does the refresh that called it: nothing is drawn. A
    state that is returned holds one enriched application for each
    application of the list, in the order of the list. *)
Theorem computeState_returns_or_is_fatal (host : string) (w : World W) :
  no_panic (computeState' host w)
  /\ (forall (A : Type) (Unmarshal : string -> A -> string + A)
             (endpoint : string) (out : A) (w0 : World W),
        (exists msg, readApiEndpoint' Unmarshal host endpoint out w0 = Fatal msg)
        <-> (exists err n, http_Get (host +:+ endpoint) (net w0) = (inl err, n))
            \/ (exists resp n1 err n2,
                  http_Get (host +:+ endpoint) (net w0) = (inr resp, n1)
                  /\ ioutil_ReadAll resp n1 = (inl err, n2))
            \/ (exists resp n1 body n2 err,
                  http_Get (host +:+ endpoint) (net w0) = (inr resp, n1)
                  /\ ioutil_ReadAll resp n1 = (inr body, n2)
                  /\ Unmarshal body out = inl err))
  /\ (forall app w0 msg,
        (getApplications' host w0 = Fatal msg
         <-> readApiEndpoint' Unmarshal_apps host "/api/v1/applications" [] w0 = Fatal msg)
        /\ (getJobs' host app w0 = Fatal msg
            <-> readApiEndpoint' Unmarshal_jobs host
                  ("/api/v1/applications/" +:+ ApplicationIdAndName.Id app +:+ "/jobs") [] w0
                = Fatal msg)
        /\ (getStages' host app w0 = Fatal msg
            <-> readApiEndpoint' Unmarshal_stages host
                  ("/api/v1/applications/" +:+ ApplicationIdAndName.Id app +:+ "/stages") [] w0
                = Fatal msg))
  /\ (forall msg, getApplications' host w = Fatal msg -> computeState' host w = Fatal msg)
  /\ (forall apps w1 before app after done w2 msg,
        getApplications' host w = Ret (apps, w1) ->
        apps = before ++ app :: after ->
        enrichApps' host before w1 = Ret (done, w2) ->
        getJobs' host app w2 = Fatal msg
        \/ (exists jobs w3,
              getJobs' host app w2 = Ret (jobs, w3) /\ getStages' host app w3 = Fatal msg) ->
        computeState' host w = Fatal msg)
  /\ (forall msg wakeup h,
        refresh wakeup ->
        computeState' host w = Fatal msg ->
        iteration' host wakeup h w = Fatal msg)
  /\ (forall state w',
        computeState' host w = Ret (state, w') ->
        State.Host state = host
        /\ exists apps w1,
             getApplications' host w = Ret (apps, w1)
             /\ enrichApps' host apps w1 = Ret (State.Apps state, w')
             /\ map EnrichedApplication.App (State.Apps state) = apps).
Proof.
  destruct (computeState_cases W Response http_Get ioutil_ReadAll
              Unmarshal_apps Unmarshal_jobs Unmarshal_stages sort_Slice host w)
    as (H1 & H2 & H3 & H4 & H5).
  split; [exact H1 |]. split; [exact H2 |].
  split; [intros app w0 msg; apply readers_Fatal |].
  split; [exact H3 |]. split; [exact H4 |]. split; [| exact H5].
  intros msg wakeup h Hr Hf. now apply refresh_Fatal.
Qed.

(** X3. The quit keys end the loop at once; an event that is none of
    [r], [q], [<C-c>] and [<Resize>] changes nothing. Neither fetches nor
    draws. *)
Theorem quit_and_unknown_events (host : string) (e : Event) (h : Held) (w : World W) :
  (ID e = "q" \/ ID e = "<C-c>" -> iteration' host (uiEvents e) h w = Ret (None, w))
  /\ (ID e <> "r" -> ID e <> "q" -> ID e <> "<C-c>" -> ID e <> "<Resize>" ->
      iteration' host (uiEvents e) h w = Ret (Some h, w)).
Proof.
  split.
  - intros [H|H]; unfold iteration; rewrite H; reflexivity.
  - intros Hr Hq Hc Hz. unfold iteration.
    apply String.eqb_neq in Hr, Hq, Hc, Hz. now rewrite Hr, Hq, Hc, Hz.
Qed.

End EventLoop.

Lemma quit_and_unknown_events_witness :
  Demo.iteration Demo.host (uiEvents (mkEvent "q" OtherPayload))
    (mkHeld Sample.state 80 24) Demo.start
  = Ret (None, Demo.start).
Proof.
  destruct (quit_and_unknown_events amd64 Demo.W Demo.Response Demo.http_Get
              Demo.ioutil_ReadAll Demo.Unmarshal_apps Demo.Unmarshal_jobs
              Demo.Unmarshal_stages Demo.insertionSort Demo.host
              (mkEvent "q" OtherPayload) (mkHeld Sample.state 80 24) Demo.start)
    as [H _].
  apply H. now left.
Defined.

Lemma computeState_returns_or_is_fatal_witness :
  let run :=
    computeState Demo.W Demo.Response Demo.http_Get Demo.ioutil_ReadAll
      Demo.Unmarshal_apps Demo.Unmarshal_jobs
      (fun _ _ => inl "unexpected end of JSON input") Demo.insertionSort in
  run Demo.host Demo.start
  = Fatal ("Failed to parse applications response for "
             +:+ "/api/v1/applications/local-1/stages: unexpected end of JSON input").
Proof.
  intros run.
  destruct (computeState_returns_or_is_fatal amd64 Demo.W Demo.Response Demo.http_Get
              Demo.ioutil_ReadAll Demo.Unmarshal_apps Demo.Unmarshal_jobs
              (fun _ _ => inl "unexpected end of JSON input") Demo.insertionSort
              Demo.host Demo.start) as (_ & _ & _ & _ & H & _).
  eapply (H [Demo.app] _ [] Demo.app [] [] _).
  - vm_compute. reflexivity.
  - reflexivity.
  - reflexivity.
  - right. do 2 eexists. split; vm_compute; reflexivity.
Defined.

(** A run of [main] against the sample engine: the start, a resize to 40
    columns and the key [q]. The three endpoints are read once, the state
    is drawn at 80 and then at 40 columns, and the terminal is closed. *)
Example main_resize_then_quit :
  exists state fetched first second,
    Demo.computeState Demo.host Demo.start = Ret (state, fetched)
    /\ layout amd64 80 24 state = Ret first
    /\ layout amd64 40 10 state = Ret second
    /\ Demo.main ["sparkmon"]
         [uiEvents (mkEvent "<Resize>" (Resize 40 10)); uiEvents (mkEvent "q" OtherPayload)]
         Demo.start
       = Ret (None,
              mkWorld 3%nat
                [EvGet "http://localhost:4040/api/v1/applications";
                 EvGet "http://localhost:4040/api/v1/applications/local-1/jobs";
                 EvGet "http://localhost:4040/api/v1/applications/local-1/stages";
                 EvClear; EvRender first; EvClear; EvRender second; EvClose]).
Proof.
  do 4 eexists. split; [vm_compute; reflexivity |].
  split; [vm_compute; reflexivity |]. split; vm_compute; reflexivity.
Qed.

(* ================================================================== *)
(** * The percent of a gauge: binary64 arithmetic *)

#[local] Open Scope Q_scope.

(** ** Powers of two and binades *)

Lemma pow2_pos (k : Z) : 0 < 2 ^ k.
Proof. apply Qpower_0_lt. reflexivity. Qed.

Lemma pow2_add (a b : Z) : 2 ^ (a + b) == 2 ^ a * 2 ^ b.
Proof. apply Qpower_plus. discriminate. Qed.

Lemma pow2_le (a b : Z) : (a <= b)%Z -> 2 ^ a <= 2 ^ b.
Proof. intros H. apply Qpower_le_compat_l; [exact H | discriminate]. Qed.

Lemma pow2_lt_inv (a b : Z) : 2 ^ a < 2 ^ b -> (a < b)%Z.
Proof. intros H. eapply Qpower_lt_compat_l_inv; [exact H | reflexivity]. Qed.

Lemma pow2_Z (k : Z) : (0 <= k)%Z -> inject_Z (2 ^ k) == 2 ^ k.
Proof. intros H. now rewrite Zpower_Qpower. Qed.

(** [2^(binade q - 1) <= q < 2^binade q] for a positive [q]. *)
Lemma binade_spec (q : Q) : 0 < q -> 2 ^ (binade q - 1) <= q < 2 ^ binade q.
Proof.
  intros Hq. destruct q as [n d]. 
  assert (Hn : (0 < n)%Z) by (unfold Qlt in Hq; simpl in Hq; lia).
  unfold binade. simpl Qnum. simpl Qden.
  set (ln := Z.log2 n). set (ld := Z.log2 (Zpos d)).
  destruct (Z.log2_spec n Hn) as [Hn1 Hn2]. fold ln in Hn1, Hn2.
  destruct (Z.log2_spec (Zpos d) (Pos2Z.is_pos d)) as [Hd1 Hd2]. fold ld in Hd1, Hd2.
  assert (Hln : (0 <= ln)%Z) by apply Z.log2_nonneg.
  assert (Hld : (0 <= ld)%Z) by apply Z.log2_nonneg.
  (* the four bounds, in Q *)
  assert (Qn1 : 2 ^ ln <= inject_Z n) by (rewrite <- pow2_Z by lia; now rewrite <- Zle_Qle).
  assert (Qn2 : inject_Z n < 2 ^ (ln + 1)).
  { rewrite <- pow2_Z by lia. rewrite <- Zlt_Qlt. now rewrite <- Z.add_1_r in Hn2. }
  assert (Qd1 : 2 ^ ld <= inject_Z (Zpos d)) by (rewrite <- pow2_Z by lia; now rewrite <- Zle_Qle).
  assert (Qd2 : inject_Z (Zpos d) < 2 ^ (ld + 1)).
  { rewrite <- pow2_Z by lia. rewrite <- Zlt_Qlt. now rewrite <- Z.add_1_r in Hd2. }
  assert (Hqd : (n # d) * inject_Z (Zpos d) == inject_Z n).
  { rewrite Qmake_Qdiv. field. discriminate. }
  assert (Hdpos : 0 < inject_Z (Zpos d)) by reflexivity.
  set (D := inject_Z (Zpos d)) in *. set (N := inject_Z n) in *. set (x := n # d) in *.
  assert (Hlo : 2 ^ (ln - ld - 1) < x).
  { apply (Qmult_lt_r _ _ D Hdpos). rewrite Hqd.
    eapply Qlt_le_trans; [| exact Qn1].
    replace ln with ((ln - ld - 1) + (ld + 1))%Z at 2 by lia. rewrite pow2_add.
    apply Qmult_lt_l; [apply pow2_pos | exact Qd2]. }
  assert (Hhi : x < 2 ^ (ln - ld + 1)).
  { apply (Qmult_lt_r _ _ D Hdpos). rewrite Hqd.
    eapply Qlt_le_trans; [exact Qn2 |].
    replace (ln + 1)%Z with ((ln - ld + 1) + ld)%Z by lia. rewrite pow2_add.
    apply Qmult_le_l; [apply pow2_pos | exact Qd1]. }
  destruct (Qle_bool (2 ^ (ln - ld)) x) eqn:E.
  - apply Qle_bool_iff in E. split.
    + now replace (ln - ld + 1 - 1)%Z with (ln - ld)%Z by lia.
    + exact Hhi.
  - assert (E' : x < 2 ^ (ln - ld)).
    { apply Qnot_le_lt. intros H. apply Qle_bool_iff in H. congruence. }
    split; [apply Qlt_le_weak; exact Hlo | exact E'].
Qed.

(** ** Rounding to the nearest integer *)

Lemma Qcompare_cases (p q : Q) :
  match Qcompare p q with
  | Eq => p == q
  | Lt => p < q
  | Gt => q < p
  end.
Proof.
  destruct (Qcompare p q) eqn:E.
  - now apply Qeq_alt.
  - now apply Qlt_alt.
  - now apply Qgt_alt.
Qed.

Lemma rne_cases (q : Q) :
  (rne q = Qfloor q /\ q - inject_Z (Qfloor q) <= 1 # 2)
  \/ (rne q = (Qfloor q + 1)%Z /\ 1 # 2 <= q - inject_Z (Qfloor q)).
Proof.
  unfold rne. pose proof (Qcompare_cases (q - inject_Z (Qfloor q)) (1 # 2)) as E.
  destruct (Qcompare (q - inject_Z (Qfloor q)) (1 # 2)).
  - destruct (Z.even (Qfloor q)); [left | right]; split;
      try reflexivity; rewrite E; apply Qle_refl.
  - left. split; [reflexivity | now apply Qlt_le_weak].
  - right. split; [reflexivity | now apply Qlt_le_weak].
Qed.

Lemma rne_near (q : Q) :
  q - (1 # 2) <= inject_Z (rne q) <= q + (1 # 2).
Proof.
  pose proof (Qfloor_le q) as Hlo. pose proof (Qlt_floor q) as Hhi.
  rewrite inject_Z_plus in Hhi. change (inject_Z 1) with 1 in Hhi.
  destruct (rne_cases q) as [[-> H]|[-> H]];
    [| rewrite inject_Z_plus; change (inject_Z 1) with 1]; lra.
Qed.

Lemma rne_Z (k : Z) : rne (inject_Z k) = k.
Proof.
  unfold rne. rewrite Qfloor_Z.
  pose proof (Qcompare_cases (inject_Z k - inject_Z k) (1 # 2)) as E.
  destruct (Qcompare (inject_Z k - inject_Z k) (1 # 2)); [| reflexivity |]; exfalso; lra.
Qed.

Lemma rne_mono (q q' : Q) : q <= q' -> (rne q <= rne q')%Z.
Proof.
  intros H. pose proof (Qfloor_resp_le _ _ H) as Hf.
  pose proof (Qfloor_le q) as Hlo. pose proof (Qlt_floor q) as Hhi.
  pose proof (Qfloor_le q') as Hlo'. pose proof (Qlt_floor q') as Hhi'.
  rewrite inject_Z_plus in Hhi, Hhi'. change (inject_Z 1) with 1 in Hhi, Hhi'.
  destruct (Z.eq_dec (Qfloor q) (Qfloor q')) as [Heq|Hne].
  - unfold rne. rewrite <- Heq.
    pose proof (Qcompare_cases (q - inject_Z (Qfloor q)) (1 # 2)) as E.
    pose proof (Qcompare_cases (q' - inject_Z (Qfloor q)) (1 # 2)) as E'.
    destruct (Qcompare (q - inject_Z (Qfloor q)) (1 # 2));
      destruct (Qcompare (q' - inject_Z (Qfloor q)) (1 # 2));
      try (destruct (Z.even (Qfloor q))); try lia; exfalso; lra.
  - destruct (rne_cases q) as [[-> _]|[-> _]], (rne_cases q') as [[-> _]|[-> _]]; lia.
Qed.

Lemma rne_le_Z (q : Q) (k : Z) : q <= inject_Z k -> (rne q <= k)%Z.
Proof. intros H. rewrite <- (rne_Z k). now apply rne_mono. Qed.

Lemma rne_ge_Z (q : Q) (k : Z) : inject_Z k <= q -> (k <= rne q)%Z.
Proof. intros H. rewrite <- (rne_Z k). now apply rne_mono. Qed.

(** ** Rounding to the format *)

Lemma binade_unique (q : Q) (e : Z) :
  2 ^ (e - 1) <= q < 2 ^ e -> binade q = e.
Proof.
  intros [Hlo Hhi].
  assert (Hq : 0 < q) by (eapply Qlt_le_trans; [apply (pow2_pos (e - 1)) | exact Hlo]).
  destruct (binade_spec q Hq) as [Blo Bhi].
  assert ((binade q - 1 < e)%Z)
    by (apply pow2_lt_inv; eapply Qle_lt_trans; eassumption).
  assert ((e - 1 < binade q)%Z)
    by (apply pow2_lt_inv; eapply Qle_lt_trans; eassumption).
  lia.
Qed.

Lemma binade_mono (q q' : Q) : 0 < q -> q <= q' -> (binade q <= binade q')%Z.
Proof.
  intros Hq Hle.
  assert (Hq' : 0 < q') by (eapply Qlt_le_trans; eassumption).
  destruct (binade_spec q Hq) as [Blo _]. destruct (binade_spec q' Hq') as [_ Bhi'].
  assert ((binade q - 1 < binade q')%Z); [| lia].
  apply pow2_lt_inv. eapply Qle_lt_trans; [exact Blo |].
  eapply Qle_lt_trans; eassumption.
Qed.

Lemma normal_ulp_exp (q : Q) : normal q -> ulp_exp q = (binade q - prec)%Z.
Proof. intros [_ H]. unfold ulp_exp. lia. Qed.

(** The significand of a normal number before rounding lies in
    [2^52, 2^53). *)
Lemma normal_significand (q : Q) :
  normal q ->
  inject_Z (2 ^ 52) <= q / 2 ^ ulp_exp q < inject_Z (2 ^ 53).
Proof.
  intros Hn. rewrite (normal_ulp_exp q Hn). destruct Hn as [Hq _].
  destruct (binade_spec q Hq) as [Blo Bhi]. unfold prec.
  set (E := binade q) in *.
  pose proof (pow2_pos (E - 53)) as Hs.
  rewrite !pow2_Z by lia. split.
  - apply Qle_shift_div_l; [exact Hs |].
    rewrite <- pow2_add. now replace (52 + (E - 53))%Z with (E - 1)%Z by lia.
  - apply Qlt_shift_div_r; [exact Hs |].
    rewrite <- pow2_add. now replace (53 + (E - 53))%Z with E by lia.
Qed.

Lemma round_mag_significand (q : Q) :
  normal q -> (2 ^ 52 <= rne (q / 2 ^ ulp_exp q) <= 2 ^ 53)%Z.
Proof.
  intros Hn. destruct (normal_significand q Hn) as [Hlo Hhi]. split.
  - now apply rne_ge_Z.
  - apply rne_le_Z. now apply Qlt_le_weak.
Qed.

(** The rounded value stays in the closed binade of the exact one. *)
Lemma round_mag_binade (q : Q) :
  normal q -> 2 ^ (binade q - 1) <= round_mag q <= 2 ^ binade q.
Proof.
  intros Hn. destruct (round_mag_significand q Hn) as [Hlo Hhi].
  unfold round_mag. rewrite (normal_ulp_exp q Hn) in *. unfold prec in *.
  set (E := binade q) in *. set (m := rne (q / 2 ^ (E - 53))) in *.
  pose proof (pow2_pos (E - 53)) as Hs.
  rewrite Zle_Qle in Hlo, Hhi. rewrite pow2_Z in Hlo, Hhi by lia.
  split.
  - replace (E - 1)%Z with (52 + (E - 53))%Z by lia. rewrite pow2_add.
    apply Qmult_le_compat_r; [exact Hlo | now apply Qlt_le_weak].
  - replace E with (53 + (E - 53))%Z at 2 by lia. rewrite pow2_add.
    apply Qmult_le_compat_r; [exact Hhi | now apply Qlt_le_weak].
Qed.

Lemma round_mag_pos (q : Q) : normal q -> 0 < round_mag q.
Proof.
  intros Hn. eapply Qlt_le_trans; [apply (pow2_pos (binade q - 1)) |].
  now apply round_mag_binade.
Qed.

(** The relative error of a rounding is at most [2^-53]. *)
Lemma round_mag_near (q : Q) :
  normal q ->
  q * (1 - unit_roundoff) <= round_mag q <= q * (1 + unit_roundoff).
Proof.
  intros Hn. destruct (normal_significand q Hn) as [Hlo _].
  pose proof (rne_near (q / 2 ^ ulp_exp q)) as [Hm1 Hm2].
  unfold round_mag. set (s := 2 ^ ulp_exp q) in *.
  assert (Hs : 0 < s) by apply pow2_pos.
  set (m := inject_Z (rne (q / s))) in *.
  assert (Hr : q / s * s == q) by (field; lra).
  set (r := q / s) in *.
  change (inject_Z (2 ^ 52)) with (4503599627370496 # 1) in Hlo.
  unfold unit_roundoff.
  assert (H1 : (r - (1 # 2)) * s <= m * s)
    by (apply Qmult_le_compat_r; [exact Hm1 | lra]).
  assert (H2 : m * s <= (r + (1 # 2)) * s)
    by (apply Qmult_le_compat_r; [exact Hm2 | lra]).
  assert (H3 : (4503599627370496 # 1) * s <= r * s)
    by (apply Qmult_le_compat_r; [exact Hlo | lra]).
  rewrite Hr in H3.
  assert (E1 : (r - (1 # 2)) * s == q - (1 # 2) * s) by (rewrite <- Hr; ring).
  assert (E2 : (r + (1 # 2)) * s == q + (1 # 2) * s) by (rewrite <- Hr; ring).
  rewrite E1 in H1. rewrite E2 in H2. lra.
Qed.

Lemma round_mag_mono (q q' : Q) :
  normal q -> normal q' -> q <= q' -> round_mag q <= round_mag q'.
Proof.
  intros Hn Hn' Hle.
  pose proof (binade_mono q q' (proj1 Hn) Hle) as Hb.
  destruct (Z.eq_dec (binade q) (binade q')) as [Heq|Hne].
  - unfold round_mag. rewrite (normal_ulp_exp q Hn), (normal_ulp_exp q' Hn'), Heq.
    pose proof (pow2_pos (binade q' - prec)) as Hs.
    apply Qmult_le_compat_r; [| now apply Qlt_le_weak].
    rewrite <- Zle_Qle. apply rne_mono.
    apply Qmult_le_compat_r; [exact Hle |].
    apply Qlt_le_weak, Qinv_lt_0_compat, Hs.
  - destruct (round_mag_binade q Hn) as [_ Hhi].
    destruct (round_mag_binade q' Hn') as [Hlo' _].
    eapply Qle_trans; [exact Hhi |]. eapply Qle_trans; [| exact Hlo'].
    apply pow2_le. lia.
Qed.

(** Rounding does not see how the exact value is written. *)
Lemma normal_comp (q q' : Q) : q == q' -> normal q -> normal q'.
Proof.
  intros Heq [Hq Hb]. destruct (binade_spec q Hq) as [Blo Bhi].
  remember (binade q) as E eqn:HE. clear HE.
  rewrite Heq in Hq, Blo, Bhi. split; [exact Hq |].
  now rewrite (binade_unique q' E) by (split; assumption).
Qed.

Lemma round_mag_comp (q q' : Q) : q == q' -> normal q -> round_mag q == round_mag q'.
Proof.
  intros Heq Hn. pose proof (normal_comp q q' Heq Hn) as Hn'.
  apply Qle_antisym; apply round_mag_mono; try assumption; rewrite Heq; apply Qle_refl.
Qed.

(** A rounding that does not overflow is the rounded magnitude. *)
Lemma round_finite (neg : bool) (q : Q) :
  normal q -> (binade q <= emax - 1)%Z -> round neg q = Fin neg (round_mag q).
Proof.
  intros Hn Hb. unfold round.
  replace (Qle_bool q 0) with false.
  2:{ symmetry. apply not_true_is_false. intros H. apply Qle_bool_iff in H.
      destruct Hn as [Hq _]. lra. }
  replace (Qle_bool (2 ^ emax) (round_mag q)) with false; [reflexivity |].
  symmetry. apply not_true_is_false. intros H. apply Qle_bool_iff in H.
  destruct (round_mag_binade q Hn) as [_ Hhi].
  assert (Hlt : 2 ^ binade q < 2 ^ emax)
    by (apply Qpower_lt_compat_l; [lia | reflexivity]).
  lra.
Qed.

(** ** The percent of a gauge *)

Lemma int_normal (z : Z) :
  (1 <= z <= Int.max_int)%Z ->
  normal (inject_Z z) /\ (1 <= binade (inject_Z z) <= 64)%Z.
Proof.
  intros [Hlo Hhi].
  assert (Hq : 0 < inject_Z z)
    by (change 0 with (inject_Z 0); rewrite <- Zlt_Qlt; lia).
  destruct (binade_spec (inject_Z z) Hq) as [Blo Bhi].
  assert (H1 : inject_Z 1 <= inject_Z z) by (rewrite <- Zle_Qle; lia).
  assert (H2 : inject_Z z < inject_Z (2 ^ 63))
    by (rewrite <- Zlt_Qlt; unfold Int.max_int in Hhi; lia).
  rewrite pow2_Z in H2 by lia. change (inject_Z 1) with (2 ^ 0) in H1.
  assert ((0 < binade (inject_Z z))%Z)
    by (apply pow2_lt_inv; eapply Qle_lt_trans; eassumption).
  assert ((binade (inject_Z z) - 1 < 63)%Z)
    by (apply pow2_lt_inv; eapply Qle_lt_trans; eassumption).
  split; [| lia]. split; [exact Hq |]. unfold emin, emax, prec. lia.
Qed.

Lemma of_int_pos (z : Z) :
  (1 <= z <= Int.max_int)%Z -> of_int z = Fin false (round_mag (inject_Z z)).
Proof.
  intros Hz. destruct (int_normal z Hz) as [Hn Hb]. unfold of_int.
  replace (z <? 0)%Z with false by (symmetry; apply Z.ltb_ge; lia).
  rewrite Z.abs_eq by lia. apply round_finite; [exact Hn | unfold emax; lia].
Qed.

(** A positive rational between [2^-64] and [2^7] is normal and its
    rounding does not overflow. *)
Lemma small_normal (q : Q) :
  2 ^ (-64) <= q -> q < 2 ^ 7 -> normal q /\ (binade q <= emax - 1)%Z.
Proof.
  intros Hlo Hhi.
  assert (Hq : 0 < q) by (eapply Qlt_le_trans; [apply (pow2_pos (-64)) | exact Hlo]).
  destruct (binade_spec q Hq) as [Blo Bhi].
  assert ((-64 < binade q)%Z)
    by (apply pow2_lt_inv; eapply Qle_lt_trans; eassumption).
  assert ((binade q - 1 < 7)%Z)
    by (apply pow2_lt_inv; eapply Qle_lt_trans; eassumption).
  unfold normal, emin, emax, prec. split; [split |]; try assumption; lia.
Qed.

Lemma round_mag_1 : round_mag 1 == 1.
Proof. vm_compute. reflexivity. Qed.

Lemma round_mag_100 : round_mag 100 == 100.
Proof. vm_compute. reflexivity. Qed.

Lemma normal_1 : normal 1.
Proof. apply small_normal; vm_compute; congruence. Qed.

Lemma normal_100 : normal 100.
Proof. apply small_normal; vm_compute; congruence. Qed.

(** The quotient of two rounded values against the quotient of the
    exact ones. *)
Lemma ratio_near (c t fc ft u : Q) :
  0 < c -> 0 < t -> 0 < fc -> 0 < ft -> 0 <= u -> u < 1 ->
  c * (1 - u) <= fc <= c * (1 + u) ->
  t * (1 - u) <= ft <= t * (1 + u) ->
  (c / t) * (1 - u) <= (fc / ft) * (1 + u)
  /\ (fc / ft) * (1 - u) <= (c / t) * (1 + u).
Proof.
  intros Hc Ht Hfc Hft Hu0 Hu1 [Hc1 Hc2] [Ht1 Ht2].
  assert (Hp : 0 < ft * t) by (apply Qmult_lt_0_compat; assumption).
  split.
  - apply (Qmult_le_r _ _ (ft * t) Hp).
    setoid_replace (c / t * (1 - u) * (ft * t)) with (c * (1 - u) * ft) using relation Qeq by (field; lra).
    setoid_replace (fc / ft * (1 + u) * (ft * t)) with (fc * (t * (1 + u))) using relation Qeq by (field; lra).
    apply Qmult_le_compat_nonneg; split; try assumption.
    + apply Qmult_le_0_compat; lra.
    + lra.
  - apply (Qmult_le_r _ _ (ft * t) Hp).
    setoid_replace (fc / ft * (1 - u) * (ft * t)) with (fc * (t * (1 - u))) using relation Qeq by (field; lra).
    setoid_replace (c / t * (1 + u) * (ft * t)) with (c * (1 + u) * ft) using relation Qeq by (field; lra).
    apply Qmult_le_compat_nonneg; split; try assumption.
    + lra.
    + apply Qmult_le_0_compat; lra.
Qed.

Section Percent.

Variable arch : float64 -> Z.
Variables completed tasks : Z.
Hypothesis completed_pos : (1 <= completed)%Z.
Hypothesis completed_le : (completed <= tasks)%Z.
Hypothesis tasks_int : (tasks <= Int.max_int)%Z.

Let c : Q := inject_Z completed.
Let t : Q := inject_Z tasks.
Let fc : Q := round_mag c.
Let ft : Q := round_mag t.
Let x : Q := round_mag (fc / ft).
Let y : Q := round_mag (x * 100).

Lemma c_t_pos : 0 < c /\ 0 < t /\ c <= t.
Proof using completed_pos completed_le.
  unfold c, t. change 0 with (inject_Z 0). rewrite <- !Zlt_Qlt, <- Zle_Qle. lia.
Qed.

Lemma fc_ft : 1 <= fc /\ fc <= ft /\ ft <= 2 ^ 64 /\ 0 < ft.
Proof using completed_pos completed_le tasks_int.
  destruct (int_normal completed ltac:(lia)) as [Hnc Hbc].
  destruct (int_normal tasks ltac:(lia)) as [Hnt Hbt].
  destruct c_t_pos as (_ & _ & Hle).
  destruct (round_mag_binade c Hnc) as [Hlo _].
  destruct (round_mag_binade t Hnt) as [_ Hhi].
  assert (H1 : 2 ^ 0 <= 2 ^ (binade c - 1)) by (apply pow2_le; unfold c; lia).
  assert (H2 : 2 ^ binade t <= 2 ^ 64) by (apply pow2_le; unfold t; lia).
  change (2 ^ 0) with 1 in H1.
  pose proof (round_mag_pos t Hnt).
  repeat split; try assumption.
  - unfold fc. lra.
  - now apply round_mag_mono.
  - unfold ft. lra.
Qed.

Lemma ratio_bounds : 2 ^ (-64) <= fc / ft /\ fc / ft <= 1.
Proof using completed_pos completed_le tasks_int.
  destruct fc_ft as (H1 & Hle & H64 & Hpos). split.
  - apply Qle_shift_div_l; [exact Hpos |].
    apply Qle_trans with (2 ^ (-64) * 2 ^ 64).
    + apply Qmult_le_l; [apply pow2_pos | exact H64].
    + rewrite <- pow2_add. change (2 ^ (-64 + 64)) with 1. exact H1.
  - apply Qle_shift_div_r; [exact Hpos | lra].
Qed.

Lemma x_bounds : 2 ^ (-64) <= x /\ x <= 1 /\ normal (fc / ft).
Proof using completed_pos completed_le tasks_int.
  destruct ratio_bounds as [Hlo Hhi].
  destruct (small_normal (fc / ft) Hlo) as [Hn Hb];
    [eapply Qle_lt_trans; [exact Hhi | reflexivity] |].
  pose proof (round_mag_mono _ _ Hn normal_1 Hhi) as Hx. rewrite round_mag_1 in Hx.
  destruct (round_mag_binade _ Hn) as [Hxlo _].
  destruct (binade_spec (fc / ft) (proj1 Hn)) as [_ Bhi].
  assert ((-64 < binade (fc / ft))%Z)
    by (apply pow2_lt_inv; eapply Qle_lt_trans; eassumption).
  assert (2 ^ (-64) <= 2 ^ (binade (fc / ft) - 1)) by (apply pow2_le; lia).
  unfold x. repeat split; try assumption; try lra. apply Hn.
Qed.

Lemma y_bounds : 0 < y /\ y <= 100 /\ normal (x * 100).
Proof using completed_pos completed_le tasks_int.
  destruct x_bounds as (Hlo & Hhi & _).
  assert (Hlo' : 2 ^ (-64) <= x * 100).
  { pose proof (pow2_pos (-64)). lra. }
  destruct (small_normal (x * 100) Hlo') as [Hn Hb];
    [apply Qle_lt_trans with 100; [lra | reflexivity] |].
  assert (Hle : x * 100 <= 100) by lra.
  pose proof (round_mag_mono _ _ Hn normal_100 Hle) as Hy. rewrite round_mag_100 in Hy.
  split; [now apply round_mag_pos |]. split; assumption.
Qed.

(** The chain of the source: conversions, division, multiplication,
    [math.Ceil] and the conversion back. *)
Lemma percent_chain (stage : Stage.t) :
  Stage.CompletedTasks stage = completed -> Stage.Tasks stage = tasks ->
  percent arch stage = Qceiling y.
Proof using completed_pos completed_le tasks_int.
  intros Hc Ht. unfold percent. rewrite Hc, Ht.
  rewrite !of_int_pos by lia. fold c t fc ft.
  destruct fc_ft as (_ & _ & _ & Hft).
  destruct x_bounds as (Hxlo & Hxhi & Hnr).
  destruct y_bounds as (Hy0 & Hy100 & Hny).
  unfold div.
  replace (Qle_bool ft 0) with false.
  2:{ symmetry. apply not_true_is_false. intros H. apply Qle_bool_iff in H. lra. }
  simpl xorb.
  rewrite (round_finite false (fc / ft) Hnr).
  2:{ destruct (binade_spec (fc / ft) (proj1 Hnr)) as [Blo _].
      destruct ratio_bounds as [_ Hr1]. change 1 with (2 ^ 0) in Hr1.
      assert ((binade (fc / ft) - 1 < 1)%Z).
      { apply pow2_lt_inv. eapply Qle_lt_trans; [exact Blo |].
        eapply Qle_lt_trans; [exact Hr1 | reflexivity]. }
      unfold emax. lia. }
  fold x. unfold hundred, mul. simpl xorb.
  rewrite (round_finite false (x * 100) Hny).
  2:{ destruct (binade_spec (x * 100) (proj1 Hny)) as [Blo _].
      assert ((binade (x * 100) - 1 < 7)%Z).
      { apply pow2_lt_inv. eapply Qle_lt_trans; [exact Blo |].
        apply Qle_lt_trans with 100; [lra | reflexivity]. }
      unfold emax. lia. }
  fold y. unfold Ceil, to_int. rewrite Qfloor_Z.
  pose proof (Qceiling_resp_le _ _ Hy100) as Hc100.
  change (Qceiling 100) with 100%Z in Hc100.
  pose proof (Qle_ceiling y) as Hcy.
  assert (Hc0 : (0 < Qceiling y)%Z)
    by (rewrite Zlt_Qlt; change (inject_Z 0) with 0; lra).
  replace (Int.in_rangeb (Qceiling y)) with true; [reflexivity |].
  symmetry. unfold Int.in_rangeb, Int.min_int, Int.max_int.
  apply andb_true_iff. split; apply Z.leb_le; lia.
Qed.

(** The computed value against the exact quotient. *)
Lemma y_near : 100 * (c / t) - 1 <= y <= 100 * (c / t) + 1.
Proof using completed_pos completed_le tasks_int.
  destruct (int_normal completed ltac:(lia)) as [Hnc _].
  destruct (int_normal tasks ltac:(lia)) as [Hnt _].
  destruct c_t_pos as (Hc & Ht & Hle).
  destruct fc_ft as (H1 & _ & _ & Hft).
  destruct x_bounds as (_ & _ & Hnr). destruct y_bounds as (_ & _ & Hny).
  pose proof (round_mag_near c Hnc) as Hfc. pose proof (round_mag_near t Hnt) as Hft'.
  pose proof (round_mag_near _ Hnr) as Hx. pose proof (round_mag_near _ Hny) as Hy.
  fold fc in Hfc. fold ft in Hft'. fold x in Hx. fold y in Hy.
  destruct (ratio_near c t fc ft unit_roundoff) as [Hr1 Hr2];
    try assumption; try lra; try (unfold unit_roundoff; lra).
  assert (HA : 0 < c / t <= 1).
  { split; [apply Qlt_shift_div_l; lra | apply Qle_shift_div_r; lra]. }
  set (A := c / t) in *. set (R := fc / ft) in *.
  unfold unit_roundoff in *. split; lra.
Qed.

End Percent.

Lemma exactPercent_ceiling (completed tasks : Z) :
  (0 < tasks)%Z ->
  Qceiling (100 * (inject_Z completed / inject_Z tasks)) = exactPercent completed tasks.
Proof.
  intros Ht.
  assert (E : 100 * (inject_Z completed / inject_Z tasks)
              == (100 * completed)%Z # Z.to_pos tasks).
  { rewrite (Qmake_Qdiv (100 * completed) (Z.to_pos tasks)), Z2Pos.id by lia.
    rewrite inject_Z_mult.
    change (inject_Z 100) with 100. field.
    change 0 with (inject_Z 0). rewrite inject_Z_injective. lia. }
  rewrite (Qceiling_comp _ _ E). unfold Qceiling, Qfloor, exactPercent. simpl.
  now rewrite Z2Pos.id by lia.
Qed.

Lemma percent_of_nothing_completed (arch : float64 -> Z) (stage : Stage.t) :
  Stage.CompletedTasks stage = 0%Z ->
  (1 <= Stage.Tasks stage <= Int.max_int)%Z ->
  percent arch stage = 0%Z.
Proof.
  intros Hc Ht. unfold percent.
  rewrite Hc, (of_int_pos (Stage.Tasks stage)) by exact Ht.
  destruct (int_normal _ Ht) as [Hn _]. pose proof (round_mag_pos _ Hn) as Hft.
  set (ft := round_mag (inject_Z (Stage.Tasks stage))) in *.
  change (of_int 0) with (Fin false 0). unfold div.
  replace (Qle_bool ft 0) with false.
  2:{ symmetry. apply not_true_is_false. intros H. apply Qle_bool_iff in H. lra. }
  unfold round at 1.
  replace (Qle_bool (0 / ft) 0) with true.
  2:{ symmetry. apply Qle_bool_iff. unfold Qdiv. rewrite Qmult_0_l. apply Qle_refl. }
  reflexivity.
Qed.

Section Exact.

Variable arch : float64 -> Z.
Variable stage : Stage.t.
Hypothesis tasks_pos : (1 <= Stage.Tasks stage <= Int.max_int)%Z.

Abbreviation completed := (Stage.CompletedTasks stage).
Abbreviation tasks := (Stage.Tasks stage).

Lemma percent_of_everything_completed :
  completed = tasks -> percent arch stage = 100%Z.
Proof using tasks_pos.
  intros Hc.
  rewrite (percent_chain arch tasks tasks) by (try assumption; try reflexivity; lia).
  destruct (int_normal tasks tasks_pos) as [Hn _].
  pose proof (round_mag_pos _ Hn) as Hft.
  set (ft := round_mag (inject_Z tasks)) in *.
  assert (E1 : ft / ft == 1) by (field; lra).
  pose proof (round_mag_comp _ _ (Qeq_sym _ _ E1) normal_1) as Ex.
  rewrite round_mag_1 in Ex.
  assert (E2 : 100 == round_mag (ft / ft) * 100) by (rewrite <- Ex; reflexivity).
  pose proof (round_mag_comp _ _ E2 normal_100) as Ey. rewrite round_mag_100 in Ey.
  now rewrite <- (Qceiling_comp _ _ Ey).
Qed.

(** The computed percent is in [0, 100] and within one of the exact
    ceiling. *)
Lemma percent_within_one :
  (0 <= completed <= tasks)%Z ->
  (0 <= percent arch stage <= 100)%Z
  /\ (exactPercent completed tasks - 1 <= percent arch stage
      <= exactPercent completed tasks + 1)%Z.
Proof using tasks_pos.
  intros [Hc0 Hct].
  destruct (Z.eq_dec completed 0%Z) as [Hz|Hnz].
  - rewrite percent_of_nothing_completed by assumption.
    rewrite Hz. unfold exactPercent. simpl. rewrite Z.div_0_l by lia. lia.
  - assert (Hc1 : (1 <= completed)%Z) by lia.
    rewrite (percent_chain arch completed tasks) by (try reflexivity; lia).
    destruct (y_bounds completed tasks Hc1 Hct ltac:(lia)) as (Hy0 & Hy100 & _).
    destruct (y_near completed tasks Hc1 Hct ltac:(lia)) as [Hlo Hhi].
    rewrite <- (exactPercent_ceiling completed tasks) by lia.
    set (y := round_mag (round_mag (round_mag (inject_Z completed)
                                    / round_mag (inject_Z tasks)) * 100)) in *.
    set (z := 100 * (inject_Z completed / inject_Z tasks)) in *.
    pose proof (Qceiling_resp_le _ _ Hy100) as H100.
    change (Qceiling 100) with 100%Z in H100.
    pose proof (Qle_ceiling y) as Hcy.
    assert (H0 : (0 < Qceiling y)%Z)
      by (rewrite Zlt_Qlt; change (inject_Z 0) with 0; lra).
    assert (Hup : (Qceiling y <= Qceiling z + 1)%Z).
    { rewrite <- (Qceiling_Z (Qceiling z + 1)). apply Qceiling_resp_le.
      rewrite inject_Z_plus. change (inject_Z 1) with 1.
      pose proof (Qle_ceiling z). lra. }
    assert (Hdown : (Qceiling z <= Qceiling y + 1)%Z).
    { rewrite <- (Qceiling_Z (Qceiling y + 1)). apply Qceiling_resp_le.
      rewrite inject_Z_plus. change (inject_Z 1) with 1. lra. }
    lia.
Qed.

End Exact.

(** With fewer than [2^44] tasks the computed percent is never below the
    exact ceiling: the error of the three roundings is smaller than the
    distance from an exact quotient to the integer below it. *)
Lemma percent_not_below (arch : float64 -> Z) (stage : Stage.t) :
  (1 <= Stage.Tasks stage <= 2 ^ 44)%Z ->
  (0 <= Stage.CompletedTasks stage <= Stage.Tasks stage)%Z ->
  (exactPercent (Stage.CompletedTasks stage) (Stage.Tasks stage)
   <= percent arch stage)%Z.
Proof.
  set (completed := Stage.CompletedTasks stage). set (tasks := Stage.Tasks stage).
  intros Ht [Hc0 Hct].
  assert (Hmax : (tasks <= Int.max_int)%Z) by (unfold Int.max_int; lia).
  destruct (Z.eq_dec completed 0%Z) as [Hz|Hnz].
  - rewrite percent_of_nothing_completed by (try assumption; fold tasks; lia).
    fold completed. rewrite Hz. unfold exactPercent. simpl.
    rewrite Z.div_0_l by lia. lia.
  - assert (Hc1 : (1 <= completed)%Z) by lia.
    rewrite (percent_chain arch completed tasks) by (try reflexivity; lia).
    destruct (int_normal completed ltac:(lia)) as [Hnc _].
    destruct (int_normal tasks ltac:(lia)) as [Hnt _].
    destruct (c_t_pos completed tasks Hc1 Hct) as (Hc & Htq & Hle).
    destruct (fc_ft completed tasks Hc1 Hct Hmax) as (H1 & _ & _ & Hft).
    destruct (x_bounds completed tasks Hc1 Hct Hmax) as (_ & _ & Hnr).
    destruct (y_bounds completed tasks Hc1 Hct Hmax) as (_ & _ & Hny).
    pose proof (round_mag_near _ Hnc) as Hfc. pose proof (round_mag_near _ Hnt) as Hft'.
    pose proof (round_mag_near _ Hnr) as Hx. pose proof (round_mag_near _ Hny) as Hy.
    destruct (ratio_near (inject_Z completed) (inject_Z tasks)
                (round_mag (inject_Z completed)) (round_mag (inject_Z tasks))
                unit_roundoff) as [Hr1 _];
      try assumption; try lra; try (unfold unit_roundoff; lra).
    set (y := round_mag (round_mag (round_mag (inject_Z completed)
                                    / round_mag (inject_Z tasks)) * 100)) in *.
    set (x := round_mag (round_mag (inject_Z completed) / round_mag (inject_Z tasks))) in *.
    set (R := round_mag (inject_Z completed) / round_mag (inject_Z tasks)) in *.
    set (c := inject_Z completed) in *. set (t := inject_Z tasks) in *.
    assert (HA : 0 < c / t <= 1).
    { split; [apply Qlt_shift_div_l; lra | apply Qle_shift_div_r; lra]. }
    (* the integer below the exact quotient *)
    set (e := exactPercent completed tasks).
    assert (He : ((e - 1) * tasks <= 100 * completed - 1)%Z).
    { unfold e, exactPercent.
      pose proof (Z.div_mod (- (100 * completed)) tasks ltac:(lia)) as Hdm.
      pose proof (Z.mod_pos_bound (- (100 * completed)) tasks ltac:(lia)) as Hr. nia. }
    assert (Hq : inject_Z (e - 1) <= 100 * (c / t) - 1 / t).
    { apply Qle_trans with (inject_Z (100 * completed - 1) / t).
      - apply Qle_shift_div_l; [exact Htq |]. unfold t.
        rewrite <- inject_Z_mult, <- Zle_Qle. exact He.
      - unfold Z.sub. rewrite inject_Z_plus, inject_Z_mult. fold c.
        rewrite inject_Z_opp. change (inject_Z 100) with 100. change (inject_Z 1) with 1.
        apply Qle_lteq. right. field. lra. }
    assert (Hinv : 1 # 17592186044416 <= 1 / t).
    { apply Qle_shift_div_l; [exact Htq |].
      assert (t <= inject_Z (2 ^ 44)) by (unfold t; rewrite <- Zle_Qle; lia).
      change (inject_Z (2 ^ 44)) with (17592186044416 # 1) in *. lra. }
    set (A := c / t) in *. set (it := 1 / t) in *.
    assert (Hlt : inject_Z (e - 1) < y) by (unfold unit_roundoff in *; lra).
    pose proof (Qle_ceiling y) as Hcy.
    assert ((e - 1 < Qceiling y)%Z) by (rewrite Zlt_Qlt; lra).
    lia.
Qed.

#[local] Close Scope Q_scope.

(** [Float64] against the Standard Library's specification of binary64:
    the quotient times 100 is the same value for every
    [completed <= tasks < 48] and for a list of other inputs, zeros,
    negative counts and counts that no binary64 holds among them. *)
Example Float64_agrees_with_SpecFloat :
  all_agree 48 = true
  /\ forallb (fun '(completed, tasks) => agree completed tasks)
       [(7, 100); (29, 100); (57, 100); (20, 10); (0, 0); (1, 0); (-1, 0); (-7, 100);
        (123456789, 987654321); (9007199254740993, 9007199254740995);
        (2 ^ 62 + 1, 2 ^ 63 - 1); (1, 2 ^ 63 - 1); (2 ^ 63 - 1, 1)]
     = true.
Proof. split; vm_compute; reflexivity. Qed.

(** The scenarios of the design document. *)
Example percent_scenarios :
  percent amd64 (Sample.stage 0 10 10 0) = 100
  /\ barLabel (Sample.stage 0 10 10 0) = "10/10"
  /\ percent amd64 (Sample.stage 0 3 10 2) = 30
  /\ barLabel (Sample.stage 0 3 10 2) = "3/10 (2 active)".
Proof. repeat split; vm_compute; reflexivity. Qed.

(** C1 does not hold as stated, in three ways. With 7 of 100 tasks
    completed the percent is 8, not [ceil(700 / 100) = 7]: the quotient
    is rounded to a binary64 value a little above 0.07 and the product to
    one a little above 7. With more tasks completed than there are, the
    percent is above 100. With no tasks the quotient is NaN or an
    infinity, and its conversion gives what the target leaves: the least
    [int] on amd64, and on arm64 the greatest one when a task is
    completed. *)
Lemma percent_is_not_the_exact_ceiling :
  percent amd64 (Sample.stage 0 7 100 0) = 8
  /\ percent arm64 (Sample.stage 0 7 100 0) = 8
  /\ exactPercent 7 100 = 7
  /\ percent amd64 (Sample.stage 0 20 10 0) = 200
  /\ percent amd64 (Sample.stage 0 0 0 0) = Int.min_int
  /\ percent arm64 (Sample.stage 0 1 0 0) = Int.max_int.
Proof. repeat split; vm_compute; reflexivity. Qed.

(** C1, amended. For a stage with at least one task and no more
    completed tasks than tasks, the percent of the gauge is the binary64
    value of [(completedTasks / tasks) * 100], rounded up to an integer.
    It lies in [0, 100]; it is within one of
    [ceil(100 * completedTasks / tasks)], and with at most [2^44] tasks it
    is that ceiling or one more; it is 0 when no task is completed and 100
    when all are. The computation is a division of floats and does not
    fault. *)
Theorem gauge_percent (arch : float64 -> Z) (stage : Stage.t) :
  1 <= Stage.Tasks stage <= Int.max_int ->
  0 <= Stage.CompletedTasks stage <= Stage.Tasks stage ->
  0 <= percent arch stage <= 100
  /\ exactPercent (Stage.CompletedTasks stage) (Stage.Tasks stage) - 1
     <= percent arch stage
     <= exactPercent (Stage.CompletedTasks stage) (Stage.Tasks stage) + 1
  /\ (Stage.Tasks stage <= 2 ^ 44 ->
      exactPercent (Stage.CompletedTasks stage) (Stage.Tasks stage)
      <= percent arch stage)
  /\ (Stage.CompletedTasks stage = 0 -> percent arch stage = 0)
  /\ (Stage.CompletedTasks stage = Stage.Tasks stage -> percent arch stage = 100).
Proof.
  intros Ht Hc.
  destruct (percent_within_one arch stage Ht Hc) as [Hrange Hnear].
  split; [exact Hrange |]. split; [exact Hnear |]. split; [| split].
  - intros Hsmall. apply percent_not_below; [lia | exact Hc].
  - intros Hz. now apply percent_of_nothing_completed.
  - now apply percent_of_everything_completed.
Qed.

Lemma gauge_percent_witness :
  0 <= percent amd64 (Sample.stage 0 7 100 0) <= 100
  /\ exactPercent 7 100 <= percent amd64 (Sample.stage 0 7 100 0) <= exactPercent 7 100 + 1.
Proof.
  assert (Ht : 1 <= Stage.Tasks (Sample.stage 0 7 100 0) <= Int.max_int)
    by (vm_compute; split; discriminate).
  assert (Hc : 0 <= Stage.CompletedTasks (Sample.stage 0 7 100 0)
               <= Stage.Tasks (Sample.stage 0 7 100 0))
    by (vm_compute; split; discriminate).
  destruct (gauge_percent amd64 (Sample.stage 0 7 100 0) Ht Hc)
    as (Hrange & [_ Hup] & Hlow & _).
  split; [exact Hrange |]. split; [| exact Hup].
  apply Hlow. vm_compute. discriminate.
Defined.

(* ================================================================== *)
(** * More on the layout pass *)

(** ** Exactly where it returns *)

Lemma renderJobs_no_stage_returns (arch : float64 -> Z)
    (width labelWidth currentHeight : Z) (jobs : list EnrichedJob.t) :
  Forall (fun job => EnrichedJob.Stages job = []) jobs ->
  forall cih : Z,
  exists r, renderJobs arch width labelWidth currentHeight jobs cih = Ret r.
Proof.
  induction 1 as [|job rest Hjob _ IH]; intros cih; simpl; [eauto |].
  unfold renderJob. rewrite Hjob. simpl.
  match goal with |- context [renderJobs _ _ _ _ rest ?c] => destruct (IH c) as [[c' ds'] ->] end.
  simpl. eauto.
Qed.

Lemma renderApps_no_stage_returns (arch : float64 -> Z) (width : Z)
    (apps : list EnrichedApplication.t) :
  Forall no_stage apps ->
  forall currentHeight : Z,
  exists ds, renderApps arch width apps currentHeight = Ret ds.
Proof.
  induction 1 as [|app rest Happ _ IH]; intros currentHeight; simpl; [eauto |].
  unfold renderApp.
  destruct (renderJobs_no_stage_returns arch width (Int.quot width 2) currentHeight
              (EnrichedApplication.Jobs app) Happ 1) as [[cih ds] ->]. simpl.
  match goal with |- context [renderApps _ _ rest ?c] => destruct (IH c) as [ds' ->] end.
  simpl. eauto.
Qed.

(** X5. The layout pass returns a list of widgets exactly when the
    terminal is at least 6 columns wide or no job of the state has a
    stage; on every other input it panics. In particular a state without
    applications, or whose applications have no jobs, is laid out at any
    width. *)
Theorem layout_returns_iff
    (arch : float64 -> Z) (width height : Z) (state : State.t) :
  Int.min_int <= width <= Int.max_int ->
  (exists ds, layout arch width height state = Ret ds)
  <-> 6 <= width \/ Forall no_stage (State.Apps state).
Proof.
  intros Hw. unfold layout. split.
  - intros [ds H]. destruct (Z.le_gt_cases 6 width) as [Hwide|Hnarrow]; [now left | right].
    pose proof (renderApps_narrow arch width ltac:(lia) (State.Apps state) (0 +! 2)) as Hn.
    destruct (renderApps arch width (State.Apps state) (0 +! 2)); try discriminate.
    exact Hn.
  - intros [Hwide|Hnone].
    + destruct (renderApps_returns arch width ltac:(lia) (State.Apps state) (0 +! 2))
        as [ds ->]. simpl. eauto.
    + destruct (renderApps_no_stage_returns arch width (State.Apps state) Hnone (0 +! 2))
        as [ds ->]. simpl. eauto.
Qed.

Lemma layout_returns_iff_witness :
  (exists ds, layout amd64 3 1 (State.mk [EnrichedApplication.mk Demo.app []] Demo.host) = Ret ds)
  /\ ~ (exists ds, layout amd64 3 1 Sample.state = Ret ds).
Proof.
  split.
  - apply layout_returns_iff; [unfold Int.min_int, Int.max_int; lia |].
    right. repeat constructor.
  - intros H. apply layout_returns_iff in H; [| unfold Int.min_int, Int.max_int; lia].
    destruct H as [H|H]; [lia |].
    inversion H as [|? ? Happ _]; subst. inversion Happ as [|? ? Hjob _]; subst.
    discriminate.
Defined.

(** ** How many widgets *)

Lemma renderStages_length (arch : float64 -> Z) (width labelWidth currentHeight : Z)
    (stages : list Stage.t) :
  forall (cih cih' : Z) (ds : list Drawable),
  renderStages arch width labelWidth currentHeight stages cih = Ret (cih', ds) ->
  length ds = (3 * length stages)%nat.
Proof.
  induction stages as [|stage rest IH]; intros cih cih' ds H; simpl in H.
  - now injection H as <- <-.
  - apply bind_Ret in H as ([c1 ds1] & H1 & H).
    apply bind_Ret in H as ([c2 ds2] & H2 & H). injection H as <- <-.
    unfold renderStage in H1. apply bind_Ret in H1 as (text & _ & H1).
    injection H1 as <- <-. apply IH in H2. simpl. rewrite H2. lia.
Qed.

Lemma renderJobs_length (arch : float64 -> Z) (width labelWidth currentHeight : Z)
    (jobs : list EnrichedJob.t) :
  forall (cih cih' : Z) (ds : list Drawable),
  renderJobs arch width labelWidth currentHeight jobs cih = Ret (cih', ds) ->
  length ds = fold_right (fun job n => (jobWidgets job + n)%nat) 0%nat jobs.
Proof.
  induction jobs as [|job rest IH]; intros cih cih' ds H; simpl in H.
  - now injection H as <- <-.
  - apply bind_Ret in H as ([c1 ds1] & H1 & H).
    apply bind_Ret in H as ([c2 ds2] & H2 & H). injection H as <- <-.
    unfold renderJob in H1. apply bind_Ret in H1 as ([c3 ds3] & H3 & H1).
    injection H1 as <- <-. apply renderStages_length in H3. apply IH in H2.
    rewrite length_app. cbn [length fold_right]. rewrite H2, H3.
    unfold jobWidgets. lia.
Qed.

Lemma renderApps_length (arch : float64 -> Z) (width : Z)
    (apps : list EnrichedApplication.t) :
  forall (currentHeight : Z) (ds : list Drawable),
  renderApps arch width apps currentHeight = Ret ds ->
  length ds = fold_right (fun app n => (appWidgets app + n)%nat) 0%nat apps.
Proof.
  induction apps as [|app rest IH]; intros currentHeight ds H; simpl in H.
  - now injection H as <-.
  - apply bind_Ret in H as ([c1 ds1] & H1 & H).
    apply bind_Ret in H as (ds2 & H2 & H). injection H as <-.
    unfold renderApp in H1. apply bind_Ret in H1 as ([c3 ds3] & H3 & H1).
    injection H1 as <- <-. apply renderJobs_length in H3. apply IH in H2.
    rewrite length_app. cbn [length fold_right]. rewrite H2, H3.
    unfold appWidgets. lia.
Qed.

(** X6. When the layout pass returns, its list holds one header, one
    frame for each application, one frame for each job and three widgets
    for each resolved stage, and nothing else; neither the width nor the
    height of the terminal changes that number: nothing is clipped to the
    screen. *)
Theorem layout_length
    (arch : float64 -> Z) (width height : Z) (state : State.t) (ds : list Drawable) :
  layout arch width height state = Ret ds ->
  length ds = stateWidgets state.
Proof.
  intros H. unfold layout in H. apply bind_Ret in H as (ds1 & H1 & H).
  injection H as <-. apply renderApps_length in H1. cbn [length].
  unfold stateWidgets. now rewrite H1.
Qed.

Lemma layout_length_witness :
  exists ds, layout amd64 40 2 Sample.state = Ret ds /\ length ds = 6%nat.
Proof.
  destruct (layout amd64 40 2 Sample.state) as [ds| |] eqn:E;
    try (vm_compute in E; discriminate).
  exists ds. split; [reflexivity |].
  exact (layout_length amd64 40 2 Sample.state ds E).
Defined.

(** ** Where the frames are *)

Lemma framesOf_app (ds ds' : list Drawable) :
  framesOf (ds ++ ds') = framesOf ds ++ framesOf ds'.
Proof. apply List.filter_app. Qed.

Lemma framesOf_content (ds : list Drawable) :
  Forall (fun d => layer d = 2%nat) ds -> framesOf ds = [].
Proof.
  induction 1 as [|d ds Hd _ IH]; [reflexivity |].
  unfold framesOf in *. simpl. now rewrite Hd.
Qed.

Lemma jobsRows_ge0 (jobs : list EnrichedJob.t) : 0 <= jobsRows jobs.
Proof. induction jobs as [|j r IH]; simpl; [lia |]. unfold jobRows. lia. Qed.

Lemma appsRows_ge0 (apps : list EnrichedApplication.t) : 0 <= appsRows apps.
Proof.
  induction apps as [|a r IH]; simpl; [lia |]. unfold appRows.
  pose proof (jobsRows_ge0 (EnrichedApplication.Jobs a)). lia.
Qed.

Section Frames.

Variable arch : float64 -> Z.
Variable width : Z.
Hypothesis width_ok : 0 <= width <= Int.max_int.

Lemma renderJobs_frames (currentHeight : Z) (jobs : list EnrichedJob.t) :
  forall (cih cih' : Z) (ds : list Drawable),
  0 <= currentHeight -> 0 <= cih ->
  currentHeight + cih + jobsRows jobs <= Int.max_int ->
  renderJobs arch width (Int.quot width 2) currentHeight jobs cih = Ret (cih', ds) ->
  framesOf ds = jobFrames width currentHeight cih jobs.
Proof using width_ok.
  induction jobs as [|job rest IH]; intros cih cih' ds HcH Hcih Hmax H.
  - simpl in H. now injection H as <- <-.
  - simpl in H. simpl in Hmax.
    pose proof (jobsRows_ge0 rest) as Hrest.
    assert (Hjob : 2 <= jobRows job) by (unfold jobRows; lia).
    apply bind_Ret in H as ([cih1 ds1] & H1 & H).
    apply bind_Ret in H as ([cih2 ds2] & H2 & H). injection H as <- <-.
    pose proof H1 as H1'.
    apply (renderJob_band arch width width_ok) in H1' as (-> & _); [| lia ..].
    apply IH in H2; [| lia ..].
    rewrite framesOf_app, H2. simpl. f_equal.
    unfold renderJob in H1. apply bind_Ret in H1 as ([cih3 ds3] & H3 & H1).
    injection H1 as E <-. revert H3. unwrap. intros H3.
    apply (renderStages_band arch width width_ok) in H3 as (-> & _ & _ & C3);
      [| unfold jobRows in *; lia ..].
    unfold framesOf. simpl. fold (framesOf ds3). rewrite (framesOf_content ds3 C3).
    unfold jobRows in *. unwrap. do 2 f_equal. lia.
Qed.

Lemma renderApps_frames (apps : list EnrichedApplication.t) :
  forall (currentHeight : Z) (ds : list Drawable),
  0 <= currentHeight ->
  currentHeight + appsRows apps <= Int.max_int ->
  renderApps arch width apps currentHeight = Ret ds ->
  framesOf ds = frames width currentHeight apps.
Proof using width_ok.
  induction apps as [|app rest IH]; intros currentHeight ds HcH Hmax H.
  - simpl in H. now injection H as <-.
  - simpl in H. simpl in Hmax.
    pose proof (appsRows_ge0 rest) as Hrest.
    pose proof (jobsRows_ge0 (EnrichedApplication.Jobs app)) as Hjobs.
    assert (Happ : appRows app = 1 + jobsRows (EnrichedApplication.Jobs app) + 1)
      by reflexivity.
    apply bind_Ret in H as ([cH1 ds1] & H1 & H).
    apply bind_Ret in H as (ds2 & H2 & H). injection H as <-.
    pose proof H1 as H1'.
    apply (renderApp_band arch width width_ok) in H1' as (-> & _); [| lia ..].
    apply IH in H2; [| lia ..].
    rewrite framesOf_app, H2.
    unfold renderApp in H1. apply bind_Ret in H1 as ([cih3 ds3] & H3 & H1).
    injection H1 as E <-. pose proof H3 as H3'.
    apply (renderJobs_band arch width width_ok) in H3' as (-> & _); [| lia ..].
    apply renderJobs_frames in H3; [| lia ..].
    unfold framesOf at 1. simpl. fold (framesOf ds3). rewrite H3.
    unwrap.
    replace (currentHeight + (1 + jobsRows (EnrichedApplication.Jobs app)) + 1)
      with (currentHeight + appRows app) by lia.
    reflexivity.
Qed.

End Frames.

(** X7. The frames among the widgets of a layout are, in the order of the
    state: for each application its frame, titled with name and id, as
    wide as the terminal, starting in the row where the application
    before it ended (row 2 for the first) and as high as its rows
    (2 + the rows of its jobs); then the frames of its jobs, titled with
    name and index, one column in from either side, one below the other
    from the row after the application's top border, each 2 + 2 * stages
    rows high. Frames leave no row between them and the height of the
    terminal plays no part. *)
Theorem layout_frames
    (arch : float64 -> Z) (width height : Z) (state : State.t) (ds : list Drawable) :
  0 <= width <= Int.max_int ->
  stateRows state <= Int.max_int ->
  layout arch width height state = Ret ds ->
  framesOf ds = frames width 2 (State.Apps state).
Proof.
  intros Hw Hrows H. unfold layout in H. apply bind_Ret in H as (ds1 & H1 & H).
  injection H as <-. revert H1. unwrap. intros H1. unfold stateRows in Hrows.
  apply (renderApps_frames arch width Hw) in H1; [| lia ..].
  unfold framesOf at 1. simpl. exact H1.
Qed.

Lemma layout_frames_witness :
  exists ds, layout amd64 40 2 Sample.state = Ret ds
    /\ map Rectangle (framesOf ds) = [image.mk 0 2 40 8; image.mk 1 3 39 7].
Proof.
  destruct (layout amd64 40 2 Sample.state) as [ds| |] eqn:E;
    try (vm_compute in E; discriminate).
  exists ds. split; [reflexivity |].
  rewrite (layout_frames amd64 40 2 Sample.state ds); [reflexivity | | | exact E];
    vm_compute; intuition discriminate.
Defined.

(** ** Content stays within the borders *)

Section Within.

Variable arch : float64 -> Z.
Variable width : Z.
Hypothesis width_ok : 4 <= width <= Int.max_int.

Let labelWidth : Z := Int.quot width 2.

Lemma width_ok' : 0 <= width <= Int.max_int.
Proof using width_ok. lia. Qed.

Lemma renderStages_cols (currentHeight : Z) (stages : list Stage.t) :
  forall (cih cih' : Z) (ds : list Drawable),
  renderStages arch width labelWidth currentHeight stages cih = Ret (cih', ds) ->
  Cols 2 (width - 2) ds.
Proof using width_ok.
  assert (Hlw : labelWidth = width / 2) by (apply quot2_nonneg; lia).
  induction stages as [|stage rest IH]; intros cih cih' ds H; simpl in H.
  - injection H as <- <-. constructor.
  - apply bind_Ret in H as ([c1 ds1] & H1 & H).
    apply bind_Ret in H as ([c2 ds2] & H2 & H). injection H as <- <-.
    apply IH in H2. apply Forall_app. split; [| exact H2].
    unfold renderStage in H1. apply bind_Ret in H1 as (text & _ & H1).
    injection H1 as <- <-. unwrap. unfold SetRect.
    repeat constructor; simpl; rewrite ?Hlw; Z.div_mod_to_equations; lia.
Qed.

Lemma renderJobs_cols (currentHeight : Z) (jobs : list EnrichedJob.t) :
  forall (cih cih' : Z) (ds : list Drawable),
  renderJobs arch width labelWidth currentHeight jobs cih = Ret (cih', ds) ->
  Cols 1 (width - 1) ds.
Proof using width_ok.
  induction jobs as [|job rest IH]; intros cih cih' ds H; simpl in H.
  - injection H as <- <-. constructor.
  - apply bind_Ret in H as ([c1 ds1] & H1 & H).
    apply bind_Ret in H as ([c2 ds2] & H2 & H). injection H as <- <-.
    apply IH in H2. apply Forall_app. split; [| exact H2].
    unfold renderJob in H1. apply bind_Ret in H1 as ([c3 ds3] & H3 & H1).
    injection H1 as <- <-. apply renderStages_cols in H3. unwrap.
    constructor; [unfold SetRect; simpl; lia |].
    eapply List.Forall_impl; [| exact H3]. simpl. intros d. lia.
Qed.

Lemma within_intro (f : Drawable) (ds : list Drawable) (x0 x1 y0 y1 : Z) :
  Rectangle f = image.mk x0 y0 x1 y1 ->
  Cols (x0 + 1) (x1 - 1) ds -> Band (y0 + 1) (y1 - 1) ds ->
  Forall (within f) ds.
Proof.
  intros Hf Hc Hb. unfold Cols, Band in *.
  rewrite List.Forall_forall in *. intros d Hd.
  specialize (Hc d Hd). specialize (Hb d Hd).
  unfold within, inside, shrink. rewrite Hf. simpl.
  apply orb_true_iff. right. rewrite !andb_true_iff, !Z.leb_le. lia.
Qed.

(** X8. From 4 columns on, the label, the gauge and the detail line of
    every stage of a job are drawn within the border of the job's frame:
    they touch neither its top and bottom lines nor its side columns. *)
Theorem stages_within_job_frame
    (currentHeight : Z) (job : EnrichedJob.t) (cih cih' : Z) (ds : list Drawable) :
  0 <= currentHeight -> 0 <= cih ->
  currentHeight + cih + jobRows job <= Int.max_int ->
  renderJob arch width labelWidth currentHeight job cih = Ret (cih', ds) ->
  exists (frame : Drawable) (content : list Drawable),
    ds = frame :: content
    /\ layer frame = 1%nat /\ Border frame = true
    /\ Forall (fun d => layer d = 2%nat) content
    /\ Forall (within frame) content.
Proof using width_ok.
  unfold jobRows. intros HcH Hcih Hmax H. unfold renderJob in H.
  apply bind_Ret in H as ([cih1 ds1] & H1 & H). injection H as <- <-.
  pose proof (renderStages_cols _ _ _ _ _ H1) as Hc.
  revert H1. unwrap. intros H1.
  apply (renderStages_band arch width width_ok') in H1 as (-> & B1 & _ & C1); [| lia ..].
  unwrap. eexists _, _. split; [reflexivity |].
  split; [reflexivity |]. split; [reflexivity |]. split; [exact C1 |].
  eapply within_intro.
  - unfold SetRect, image.Rect. simpl.
    rewrite !Z.min_l, !Z.max_r by lia. reflexivity.
  - eapply List.Forall_impl; [| exact Hc]. simpl. intros d. lia.
  - eapply Band_weaken; [| | exact B1]; lia.
Qed.

(** X9. From 4 columns on, the frames of the jobs of an application and
    everything in them are drawn within the border of the application's
    frame. *)
Theorem jobs_within_app_frame
    (app : EnrichedApplication.t) (currentHeight currentHeight' : Z)
    (ds : list Drawable) :
  0 <= currentHeight ->
  currentHeight + appRows app <= Int.max_int ->
  renderApp arch width app currentHeight = Ret (currentHeight', ds) ->
  exists (root : Drawable) (inner : list Drawable),
    ds = root :: inner
    /\ layer root = 0%nat /\ Border root = true
    /\ Forall (fun d => layer d <> 0%nat) inner
    /\ Forall (within root) inner.
Proof using width_ok.
  unfold appRows. intros HcH Hmax H. unfold renderApp in H.
  pose proof (jobsRows_ge0 (EnrichedApplication.Jobs app)) as Hjobs.
  apply bind_Ret in H as ([cih1 ds1] & H1 & H). injection H as <- <-.
  pose proof (renderJobs_cols _ _ _ _ _ H1) as Hc.
  apply (renderJobs_band arch width width_ok') in H1 as (-> & B1 & _ & I1); [| lia ..].
  unwrap. eexists _, _. split; [reflexivity |].
  split; [reflexivity |]. split; [reflexivity |]. split; [exact I1 |].
  eapply within_intro.
  - unfold SetRect, image.Rect. simpl.
    rewrite !Z.min_l, !Z.max_r by lia. reflexivity.
  - eapply List.Forall_impl; [| exact Hc]. simpl. intros d. lia.
  - eapply Band_weaken; [| | exact B1]; lia.
Qed.

End Within.

Lemma stages_within_job_frame_witness :
  exists cih frame content,
    renderJob amd64 40 (Int.quot 40 2) 2 Sample.job 1 = Ret (cih, frame :: content)
    /\ length content = 3%nat
    /\ Forall (within frame) content.
Proof.
  destruct (renderJob amd64 40 (Int.quot 40 2) 2 Sample.job 1) as [[cih ds]| |] eqn:E;
    try (vm_compute in E; discriminate).
  assert (Hw : 4 <= 40 <= Int.max_int) by (vm_compute; intuition discriminate).
  assert (Hmax : 2 + 1 + jobRows Sample.job <= Int.max_int) by (vm_compute; discriminate).
  destruct (stages_within_job_frame amd64 40 Hw 2 Sample.job 1 cih ds
              ltac:(lia) ltac:(lia) Hmax E)
    as (frame & content & -> & _ & _ & _ & Hin).
  exists cih, frame, content. split; [reflexivity |]. split; [| exact Hin].
  vm_compute in E. now injection E as _ _ <-.
Defined.

Lemma jobs_within_app_frame_witness :
  exists currentHeight root inner,
    renderApp amd64 40 Sample.app 2 = Ret (currentHeight, root :: inner)
    /\ length inner = 4%nat
    /\ Forall (within root) inner.
Proof.
  destruct (renderApp amd64 40 Sample.app 2) as [[cH ds]| |] eqn:E;
    try (vm_compute in E; discriminate).
  assert (Hw : 4 <= 40 <= Int.max_int) by (vm_compute; intuition discriminate).
  assert (Hmax : 2 + appRows Sample.app <= Int.max_int) by (vm_compute; discriminate).
  destruct (jobs_within_app_frame amd64 40 Hw Sample.app 2 cH ds ltac:(lia) Hmax E)
    as (root & inner & -> & _ & _ & _ & Hin).
  exists cH, root, inner. split; [reflexivity |]. split; [| exact Hin].
  vm_compute in E. now injection E as _ _ <-.
Defined.

(** ** The rows of a layout *)

Lemma renderApps_bottom (arch : float64 -> Z) (width : Z)
    (apps : list EnrichedApplication.t) :
  0 <= width <= Int.max_int ->
  forall (currentHeight : Z) (ds : list Drawable),
  0 <= currentHeight ->
  currentHeight + appsRows apps <= Int.max_int ->
  apps <> [] ->
  renderApps arch width apps currentHeight = Ret ds ->
  exists d, In d ds /\ layer d = 0%nat
            /\ image.MaxY (Rectangle d) = currentHeight + appsRows apps.
Proof.
  intros Hw. induction apps as [|app rest IH]; intros currentHeight ds HcH Hmax Hne H;
    [contradiction |].
  simpl in H. simpl in Hmax.
  pose proof (appsRows_ge0 rest) as Hrest.
  pose proof (jobsRows_ge0 (EnrichedApplication.Jobs app)) as Hjobs.
  assert (Happ : appRows app = 1 + jobsRows (EnrichedApplication.Jobs app) + 1)
    by reflexivity.
  apply bind_Ret in H as ([cH1 ds1] & H1 & H).
  apply bind_Ret in H as (ds2 & H2 & H). injection H as <-.
  pose proof H1 as H1'.
  apply (renderApp_band arch width Hw) in H1' as (-> & _); [| lia ..].
  destruct rest as [|app' rest].
  - unfold renderApp in H1. apply bind_Ret in H1 as ([cih3 ds3] & H3 & H1).
    injection H1 as _ <-.
    apply (renderJobs_band arch width Hw) in H3 as (-> & _); [| lia ..].
    eexists. split; [left; reflexivity |]. split; [reflexivity |].
    unwrap. unfold SetRect. simpl. lia.
  - apply IH in H2 as (d & Hd & Hl & Hy); [| lia | simpl in *; lia | discriminate].
    exists d. split; [apply in_or_app; now right |]. split; [exact Hl |].
    rewrite Hy. simpl. lia.
Qed.

(** X10. The layout takes the rows 0 .. rows - 1, where rows is 2 for
    the header and the blank row below it, plus 2 for each application,
    2 for each job and 2 for each resolved stage. The header lies on row
    0, every other widget lies in the rows from 2 on, and when there is
    an application the frame of one ends with the last row. The height of
    the terminal does not enter: what does not fit is neither left out
    nor moved. *)
Theorem layout_rows
    (arch : float64 -> Z) (width height : Z) (state : State.t) (ds : list Drawable) :
  0 <= width <= Int.max_int ->
  stateRows state <= Int.max_int ->
  layout arch width height state = Ret ds ->
  exists header rest,
    ds = header :: rest
    /\ Rectangle header = image.mk 0 0 width 1
    /\ Band 2 (stateRows state) rest
    /\ (State.Apps state <> [] ->
        exists d, In d rest /\ layer d = 0%nat
                  /\ image.MaxY (Rectangle d) = stateRows state).
Proof.
  intros Hw Hrows H. unfold layout in H. apply bind_Ret in H as (ds1 & H1 & H).
  injection H as <-. revert H1. unwrap. intros H1. unfold stateRows in *.
  eexists _, _. split; [reflexivity |]. split; [| split].
  - unfold SetRect, image.Rect. simpl. f_equal; lia.
  - apply (renderApps_band arch width Hw) in H1 as [B _]; [exact B | lia ..].
  - intros Hne. apply renderApps_bottom in H1; [exact H1 | assumption || lia ..].
Qed.

Lemma layout_rows_witness :
  exists header rest,
    layout amd64 40 2 Sample.state = Ret (header :: rest)
    /\ stateRows Sample.state = 8
    /\ Band 2 8 rest.
Proof.
  destruct (layout amd64 40 2 Sample.state) as [ds| |] eqn:E;
    try (vm_compute in E; discriminate).
  destruct (layout_rows amd64 40 2 Sample.state ds) as (header & rest & -> & _ & B & _);
    [vm_compute; intuition discriminate | vm_compute; discriminate | exact E |].
  exists header, rest. split; [reflexivity |]. split; [reflexivity | exact B].
Defined.

(** ** The label and its widget *)

Lemma truncateLabel_len (labelWidth : Z) (text text' : string) :
  3 <= labelWidth <= Int.max_int ->
  truncateLabel labelWidth text = Ret text' ->
  len text' = Z.min (len text) labelWidth.
Proof.
  intros Hl. unfold truncateLabel.
  destruct (Z.ltb_spec labelWidth (len text)) as [Hlong|Hshort].
  - rewrite sub_in_range by in_range_lia. unfold slice_to.
    replace ((labelWidth - 3 <? 0) || (len text <? labelWidth - 3)) with false
      by (symmetry; apply orb_false_iff; split; apply Z.ltb_ge; lia).
    simpl. intros [= <-].
    assert (Hh : len (substring 0 (Z.to_nat (labelWidth - 3)) text) = labelWidth - 3).
    { unfold len in *. rewrite length_substring_0 by lia. lia. }
    rewrite len_append, Hh. change (len "...") with 3. lia.
  - intros [= <-]. lia.
Qed.

(** X11. On a terminal at least 6 columns wide the text of a label is
    the label text of the stage cut to [labelWidth] bytes, while the
    widget that shows it is [labelWidth - 2] columns wide: a label text of
    more than [labelWidth - 2] bytes is given to a widget narrower than
    it, the ellipsis of a cut text included. *)
Theorem label_text_and_widget_width
    (arch : float64 -> Z) (width currentHeight : Z) (stage : Stage.t) (cih cih' : Z)
    (ds : list Drawable) :
  6 <= width <= Int.max_int ->
  renderStage arch width (Int.quot width 2) currentHeight stage cih = Ret (cih', ds) ->
  exists label bar details text,
    ds = [label; bar; details]
    /\ widget label = Paragraph text ThemeModifier ThemeColor
    /\ len text = Z.min (len (labelText stage)) (width / 2)
    /\ image.MaxX (Rectangle label) - image.MinX (Rectangle label) = width / 2 - 2
    /\ (width / 2 - 2 < len (labelText stage) ->
        image.MaxX (Rectangle label) - image.MinX (Rectangle label) < len text).
Proof.
  intros Hw H. unfold renderStage in H.
  assert (Hq : Int.quot width 2 = width / 2) by (apply quot2_nonneg; lia).
  assert (Hl : 3 <= width / 2 <= Int.max_int) by (Z.div_mod_to_equations; lia).
  rewrite Hq in H. apply bind_Ret in H as (text & Ht & H). injection H as <- <-.
  apply truncateLabel_len in Ht; [| exact Hl].
  eexists _, _, _, text. split; [reflexivity |]. split; [reflexivity |].
  split; [exact Ht |]. unfold SetRect, image.Rect. cbn [Rectangle image.MaxX image.MinX].
  split; lia.
Qed.

Lemma label_text_and_widget_width_witness :
  exists label bar details,
    renderStage amd64 40 (Int.quot 40 2) 2 (Sample.stage 3 3 10 2) 2
    = Ret (4, [label; bar; details])
    /\ widget label = Paragraph "3 ACTIVE: map at ..." ThemeModifier ThemeColor
    /\ image.MaxX (Rectangle label) - image.MinX (Rectangle label) = 18.
Proof.
  destruct (renderStage amd64 40 (Int.quot 40 2) 2 (Sample.stage 3 3 10 2) 2)
    as [[cih ds]| |] eqn:E; try (vm_compute in E; discriminate).
  destruct (label_text_and_widget_width amd64 40 2 (Sample.stage 3 3 10 2) 2 cih ds)
    as (label & bar & details & text & -> & Hw & _ & Hx & _);
    [unfold Int.max_int; lia | exact E |].
  exists label, bar, details. vm_compute in E. injection E as <- <- _ _.
  split; [reflexivity |]. split; [reflexivity | reflexivity].
Defined.

(* ================================================================== *)
(** * More on the percent of a gauge *)

#[local] Open Scope Q_scope.

Lemma Qceiling_pos (q : Q) : 0 < q -> (1 <= Qceiling q)%Z.
Proof.
  intros Hq. pose proof (Qle_ceiling q) as H.
  assert (H0 : inject_Z 0 < inject_Z (Qceiling q))
    by (change (inject_Z 0) with 0; lra).
  rewrite <- Zlt_Qlt in H0. lia.
Qed.

Lemma percent_pos (arch : float64 -> Z) (stage : Stage.t) :
  (1 <= Stage.CompletedTasks stage)%Z ->
  (Stage.CompletedTasks stage <= Stage.Tasks stage)%Z ->
  (Stage.Tasks stage <= Int.max_int)%Z ->
  (1 <= percent arch stage)%Z.
Proof.
  intros Hc Hle Ht.
  rewrite (percent_chain arch _ _ Hc Hle Ht stage eq_refl eq_refl).
  apply Qceiling_pos. apply (y_bounds _ _ Hc Hle Ht).
Qed.

Lemma quotient_mono (a a' b b' : Q) :
  0 < a -> a <= a' -> 0 < b' -> b' <= b -> a / b <= a' / b'.
Proof.
  intros Ha Haa Hb Hbb.
  assert (Hb0 : 0 < b) by lra.
  apply Qle_shift_div_l; [exact Hb' || exact Hb |].
  apply Qle_trans with (a / b * b).
  - apply Qmult_le_l; [| exact Hbb].
    apply Qlt_shift_div_l; [exact Hb0 | lra].
  - setoid_replace (a / b * b) with a using relation Qeq; [exact Haa |].
    field. lra.
Qed.

Lemma percent_mono_pos (arch : float64 -> Z) (stage stage' : Stage.t) :
  (1 <= Stage.CompletedTasks stage <= Stage.CompletedTasks stage')%Z ->
  (Stage.CompletedTasks stage' <= Stage.Tasks stage')%Z ->
  (Stage.Tasks stage' <= Stage.Tasks stage <= Int.max_int)%Z ->
  (percent arch stage <= percent arch stage')%Z.
Proof.
  intros [Hc Hcc] Hle [Htt Ht].
  assert (Hc1 : (1 <= Stage.CompletedTasks stage')%Z) by lia.
  assert (Hle1 : (Stage.CompletedTasks stage <= Stage.Tasks stage)%Z) by lia.
  assert (Ht1 : (Stage.Tasks stage' <= Int.max_int)%Z) by lia.
  rewrite (percent_chain arch _ _ Hc Hle1 Ht stage eq_refl eq_refl).
  rewrite (percent_chain arch _ _ Hc1 Hle Ht1 stage' eq_refl eq_refl).
  apply Qceiling_resp_le.
  destruct (int_normal (Stage.CompletedTasks stage) ltac:(lia)) as [Nc _].
  destruct (int_normal (Stage.CompletedTasks stage') ltac:(lia)) as [Nc' _].
  destruct (int_normal (Stage.Tasks stage) ltac:(lia)) as [Nt _].
  destruct (int_normal (Stage.Tasks stage') ltac:(lia)) as [Nt' _].
  destruct (x_bounds _ _ Hc Hle1 Ht) as (_ & _ & Nx).
  destruct (x_bounds _ _ Hc1 Hle Ht1) as (_ & _ & Nx').
  destruct (y_bounds _ _ Hc Hle1 Ht) as (_ & _ & Ny).
  destruct (y_bounds _ _ Hc1 Hle Ht1) as (_ & _ & Ny').
  apply round_mag_mono; [exact Ny | exact Ny' |].
  apply Qmult_le_compat_r; [| discriminate].
  apply round_mag_mono; [exact Nx | exact Nx' |].
  apply quotient_mono.
  - now apply round_mag_pos.
  - apply round_mag_mono; [exact Nc | exact Nc' | rewrite <- Zle_Qle; exact Hcc].
  - now apply round_mag_pos.
  - apply round_mag_mono; [exact Nt' | exact Nt | rewrite <- Zle_Qle; exact Htt].
Qed.

#[local] Close Scope Q_scope.

(** X12. The percent of a gauge never goes down as a stage advances: of
    two stages, the one with at least as many completed tasks out of no
    more tasks has at least the percent of the other, whatever the three
    roundings of the binary64 computation do. Both stages have at least
    one task and no more completed tasks than tasks. *)
Theorem percent_monotone (arch : float64 -> Z) (stage stage' : Stage.t) :
  0 <= Stage.CompletedTasks stage <= Stage.CompletedTasks stage' ->
  Stage.CompletedTasks stage' <= Stage.Tasks stage' ->
  1 <= Stage.Tasks stage' <= Stage.Tasks stage ->
  Stage.Tasks stage <= Int.max_int ->
  percent arch stage <= percent arch stage'.
Proof.
  intros [Hc Hcc] Hle [Ht1 Htt] Ht.
  destruct (Z.eq_dec (Stage.CompletedTasks stage) 0) as [Hz|Hnz].
  - rewrite (percent_of_nothing_completed arch stage Hz) by lia.
    apply (percent_within_one arch stage'); lia.
  - apply percent_mono_pos; lia.
Qed.

Lemma percent_monotone_witness :
  percent amd64 (Sample.stage 0 3 10 2) <= percent amd64 (Sample.stage 0 7 10 2)
  /\ percent amd64 (Sample.stage 0 7 100 0) <= percent amd64 (Sample.stage 0 7 10 2).
Proof.
  split; apply percent_monotone;
    cbn [Sample.stage Stage.CompletedTasks Stage.Tasks]; unfold Int.max_int; lia.
Defined.

(** X13. A gauge is at 0 percent exactly when no task of its stage is
    completed: a single completed task shows as at least 1 percent,
    however many tasks the stage has. The stage has at least one task and
    no more completed tasks than tasks. *)
Theorem percent_zero_iff (arch : float64 -> Z) (stage : Stage.t) :
  1 <= Stage.Tasks stage <= Int.max_int ->
  0 <= Stage.CompletedTasks stage <= Stage.Tasks stage ->
  (percent arch stage = 0 <-> Stage.CompletedTasks stage = 0).
Proof.
  intros Ht Hc. split.
  - intros Hp. destruct (Z.eq_dec (Stage.CompletedTasks stage) 0) as [Hz|Hnz]; [exact Hz |].
    pose proof (percent_pos arch stage ltac:(lia) ltac:(lia) ltac:(lia)). lia.
  - intros Hz. now apply percent_of_nothing_completed.
Qed.

Lemma percent_zero_iff_witness :
  percent amd64 (Sample.stage 0 1 (2 ^ 63 - 1) 0) <> 0.
Proof.
  assert (Ht : 1 <= Stage.Tasks (Sample.stage 0 1 (2 ^ 63 - 1) 0) <= Int.max_int)
    by (cbn [Sample.stage Stage.Tasks]; unfold Int.max_int; lia).
  assert (Hc : 0 <= Stage.CompletedTasks (Sample.stage 0 1 (2 ^ 63 - 1) 0)
               <= Stage.Tasks (Sample.stage 0 1 (2 ^ 63 - 1) 0))
    by (cbn [Sample.stage Stage.Tasks Stage.CompletedTasks]; lia).
  intros H.
  apply (proj1 (percent_zero_iff amd64 (Sample.stage 0 1 (2 ^ 63 - 1) 0) Ht Hc)) in H.
  cbn [Sample.stage Stage.CompletedTasks] in H. lia.
Defined.

(* ================================================================== *)
(** * More on the detail line *)

(** X14. The detail line of a stage is one line of text: it holds no
    line feed and does not start with [org.apache]. [details] is its
    lines joined by line feeds, and the detail line is the first of them
    that does not start with [org.apache]: every line before it does;
    when every line does, it is [<spark internal>]. *)
Theorem detail_line_is_the_first_foreign_line (details : string) :
  has_LF (detailsText details) = false
  /\ HasPrefix (detailsText details) "org.apache" = false
  /\ Join_LF (Split_LF details) = details
  /\ ((detailsText details = "<spark internal>"
       /\ Forall (fun line => HasPrefix line "org.apache" = true) (Split_LF details))
      \/ exists before after,
           Split_LF details = before ++ detailsText details :: after
           /\ Forall (fun line => HasPrefix line "org.apache" = true) before).
Proof.
  pose proof (Split_LF_no_LF details) as Hlf.
  unfold detailsText. destruct (firstForeignLine details) as [line|] eqn:E.
  - unfold firstForeignLine in E. apply find_first in E as (before & after & Hs & Hb & Hx).
    rewrite Hs in Hlf. apply Forall_app in Hlf as [_ Hlf].
    inversion Hlf as [|? ? Hline _]; subst.
    split; [exact Hline |].
    split; [now destruct (HasPrefix line "org.apache") |].
    split; [apply Join_Split_LF |].
    right. exists before, after. split; [exact Hs |].
    eapply List.Forall_impl; [| exact Hb]. simpl. intros l.
    now destruct (HasPrefix l "org.apache").
  - split; [reflexivity |]. split; [reflexivity |].
    split; [apply Join_Split_LF |].
    left. split; [reflexivity |]. now apply firstForeignLine_None.
Qed.

(* ================================================================== *)
(** * More on the state aggregation *)

(** ** The lookup table of the stages *)

Lemma foldl_insert_last (stages : list Stage.t) (k : Z) :
  forall m : gmap Z Stage.t,
    foldl (fun m stage => <[Stage.Index stage := stage]> m) m stages !! k
    = match last (List.filter (fun stage => Stage.Index stage =? k) stages) with
      | Some stage => Some stage
      | None => m !! k
      end.
Proof.
  induction stages as [|stage rest IH]; intros m; [reflexivity |].
  cbn [foldl List.filter]. rewrite IH.
  destruct (Z.eqb_spec (Stage.Index stage) k) as [E|E].
  - rewrite last_cons.
    destruct (last (List.filter (fun s => Stage.Index s =? k) rest)); [reflexivity |].
    rewrite <- E. apply lookup_insert_eq.
  - destruct (last (List.filter (fun s => Stage.Index s =? k) rest)); [reflexivity |].
    now apply lookup_insert_ne.
Qed.

(** A lookup in the table gives the last stage of the list that has the
    index. *)
Lemma stagesMap_lookup_last (stages : list Stage.t) (k : Z) :
  stagesMap stages !! k
  = last (List.filter (fun stage => Stage.Index stage =? k) stages).
Proof.
  unfold stagesMap. rewrite foldl_insert_last.
  now destruct (last (List.filter (fun s => Stage.Index s =? k) stages)).
Qed.

Lemma stagesMap_lookup_unique (stages : list Stage.t) (stage : Stage.t) :
  List.NoDup (map Stage.Index stages) -> In stage stages ->
  stagesMap stages !! Stage.Index stage = Some stage.
Proof.
  intros Hnd Hin.
  destruct (stagesMap stages !! Stage.Index stage) as [s|] eqn:E.
  - apply stagesMap_lookup_Some in E as [Hs Hi].
    f_equal. now apply (NoDup_map_inj Stage.Index stages).
  - apply stagesMap_lookup_None in E. rewrite List.Forall_forall in E.
    now destruct (E stage Hin).
Qed.

Lemma stagesMap_Permutation (stages stages' : list Stage.t) :
  List.NoDup (map Stage.Index stages) -> Permutation stages stages' ->
  stagesMap stages' = stagesMap stages.
Proof.
  intros Hnd Hp.
  assert (Hnd' : List.NoDup (map Stage.Index stages')).
  { eapply Permutation_NoDup; [| exact Hnd]. now apply Permutation_map. }
  apply map_eq. intros k.
  destruct (stagesMap stages !! k) as [s|] eqn:E.
  - apply stagesMap_lookup_Some in E as [Hs <-].
    apply stagesMap_lookup_unique; [exact Hnd' |].
    eapply Permutation_in; eassumption.
  - apply stagesMap_lookup_None. apply stagesMap_lookup_None in E.
    rewrite List.Forall_forall in *. intros s Hs. apply E.
    eapply Permutation_in; [symmetry |]; eassumption.
Qed.

(** X16. When the stages of an application have distinct indices, the
    sort of [getStages] has no effect on the state: the lookup table
    built from the sorted stages is the table of the stages as they were
    fetched, so every job resolves to the same stages, and a stage of the
    list is found under its index. *)
Theorem stage_sort_does_not_matter
    (sort_Slice : forall A : Type, (A -> A -> bool) -> list A -> list A)
    (stages : list Stage.t) :
  sort_Slice_contract sort_Slice ->
  List.NoDup (map Stage.Index stages) ->
  let sorted := sort_Slice Stage.t (fun a b => Stage.Index a <? Stage.Index b) stages in
  stagesMap sorted = stagesMap stages
  /\ (forall job : Job.t, enrichJob (stagesMap sorted) job = enrichJob (stagesMap stages) job)
  /\ (forall stage : Stage.t,
        In stage stages -> map_index (stagesMap sorted) (Stage.Index stage) = stage).
Proof.
  intros Hsort Hnd sorted.
  assert (H : stagesMap sorted = stagesMap stages).
  { apply stagesMap_Permutation; [exact Hnd |]. apply (Hsort Stage.t Stage.Index). }
  split; [exact H |]. rewrite H. split; [reflexivity |].
  intros stage Hin. unfold map_index.
  now rewrite stagesMap_lookup_unique.
Qed.

Lemma stage_sort_does_not_matter_witness :
  stagesMap (Demo.insertionSort Stage.t (fun a b => Stage.Index a <? Stage.Index b)
               Demo.stages)
  = stagesMap Demo.stages.
Proof.
  apply (stage_sort_does_not_matter Demo.insertionSort Demo.stages).
  - exact insertionSort_contract.
  - simpl. repeat constructor; rewrite ?list_elem_of_In; simpl; intuition discriminate.
Defined.

(** ** The requests of a refresh *)

Section Requests.

Variable W : Type.
Variable Response : Type.
Variable http_Get : string -> W -> (string + Response) * W.
Variable ioutil_ReadAll : Response -> W -> (string + string) * W.
Variable Unmarshal_apps :
  string -> list ApplicationIdAndName.t -> string + list ApplicationIdAndName.t.
Variable Unmarshal_jobs : string -> list Job.t -> string + list Job.t.
Variable Unmarshal_stages : string -> list Stage.t -> string + list Stage.t.
Variable sort_Slice : forall A : Type, (A -> A -> bool) -> list A -> list A.

Abbreviation readApiEndpoint' := (@readApiEndpoint W Response http_Get ioutil_ReadAll).
Abbreviation enrichApp' :=
  (enrichApp W Response http_Get ioutil_ReadAll Unmarshal_jobs Unmarshal_stages sort_Slice).
Abbreviation enrichApps' :=
  (enrichApps W Response http_Get ioutil_ReadAll Unmarshal_jobs Unmarshal_stages sort_Slice).
Abbreviation computeState' :=
  (computeState W Response http_Get ioutil_ReadAll
     Unmarshal_apps Unmarshal_jobs Unmarshal_stages sort_Slice).

Lemma readApiEndpoint_trace {A : Type} (Unmarshal : string -> A -> string + A)
    (host endpoint : string) (out v : A) (w w' : World W) :
  readApiEndpoint' Unmarshal host endpoint out w = Ret (v, w') ->
  trace w' = trace w ++ [EvGet (host +:+ endpoint)].
Proof.
  rewrite readApiEndpoint_cases.
  destruct (http_Get (host +:+ endpoint) (net w)) as [[err|resp] n1]; [discriminate |].
  destruct (ioutil_ReadAll resp n1) as [[err|body] n2]; [discriminate |].
  destruct (Unmarshal body out) as [err|v']; [discriminate |].
  now intros [= _ <-].
Qed.

Lemma enrichApp_trace (host : string) (app : ApplicationIdAndName.t)
    (e : EnrichedApplication.t) (w w' : World W) :
  enrichApp' host app w = Ret (e, w') ->
  trace w' = trace w ++ flat_map (fun app => List.tl (requests host [app])) [app].
Proof.
  unfold enrichApp, getJobs, getStages. intros H.
  apply IO_bind_inv in H as (jobs & w1 & H1 & H).
  apply IO_bind_inv in H1 as (fetchedJobs & w1' & H1 & [= _ <-]).
  apply IO_bind_inv in H as (stages & w2 & H2 & [= _ <-]).
  apply IO_bind_inv in H2 as (fetchedStages & w2' & H2 & [= _ <-]).
  apply readApiEndpoint_trace in H1, H2. rewrite H2, H1, <- app_assoc. reflexivity.
Qed.

Lemma enrichApps_trace (host : string) (apps : list ApplicationIdAndName.t) :
  forall (es : list EnrichedApplication.t) (w w' : World W),
    enrichApps' host apps w = Ret (es, w') ->
    trace w' = trace w ++ List.tl (requests host apps).
Proof.
  induction apps as [|app rest IH]; intros es w w' H.
  - injection H as _ <-. simpl. now rewrite app_nil_r.
  - cbn [enrichApps] in H.
    apply IO_bind_inv in H as (e & w1 & H1 & H).
    apply IO_bind_inv in H as (es' & w2 & H2 & [= _ <-]).
    apply enrichApp_trace in H1. apply IH in H2. rewrite H2, H1.
    simpl. rewrite <- app_assoc. reflexivity.
Qed.

(** X17. A [computeState] that returns has sent one request for the list
    of applications and then, for each application of the state in order,
    one for its jobs and one for its stages: 1 + 2 * applications [GET]s
    to the host and nothing else; it draws nothing. *)
Theorem computeState_requests (host : string) (w w' : World W) (state : State.t) :
  computeState' host w = Ret (state, w') ->
  trace w' = trace w ++ requests host (map EnrichedApplication.App (State.Apps state))
  /\ length (requests host (map EnrichedApplication.App (State.Apps state)))
     = S (2 * length (State.Apps state)).
Proof.
  intros H. split.
  - pose proof H as H'. apply computeState_cases in H' as (_ & apps & w1 & Hg & He & ->).
    unfold getApplications in Hg. apply readApiEndpoint_trace in Hg.
    apply enrichApps_trace in He. rewrite He, Hg, <- app_assoc. reflexivity.
  - unfold requests. cbn [length]. f_equal.
    induction (State.Apps state) as [|e es IH]; [reflexivity |].
    simpl. rewrite IH. lia.
Qed.

Abbreviation byIndex := (fun a b : Stage.t => Stage.Index a <? Stage.Index b).

(** X15. In a state that [computeState] returns, a stage reference of a
    job resolves to the last stage with that index in the list of the
    application's stages as [sort.Slice] left it, not as it was fetched;
    it resolves to the zero [Stage] when no stage has the index. With a
    sort that honours the contract of [sort.Slice], the stage is one of
    the fetched stages with that index, and which one it is among several
    is up to the sort. *)
Theorem resolved_stage_is_last_of_sorted
    (host : string) (w w' : World W) (state : State.t) :
  computeState' host w = Ret (state, w') ->
  forall e : EnrichedApplication.t,
    In e (State.Apps state) ->
    exists fetchedStages wa wb,
      readApiEndpoint' Unmarshal_stages host
        ("/api/v1/applications/" +:+ ApplicationIdAndName.Id (EnrichedApplication.App e)
           +:+ "/stages") [] wa
      = Ret (fetchedStages, wb)
      /\ (forall job : EnrichedJob.t,
            In job (EnrichedApplication.Jobs e) ->
            EnrichedJob.Stages job
            = map (fun jobStage =>
                     default Stage.zero
                       (last (List.filter (fun stage => Stage.Index stage =? jobStage)
                                (sort_Slice Stage.t byIndex fetchedStages))))
                (Job.Stages (EnrichedJob.Job job)))
      /\ (sort_Slice_contract sort_Slice ->
          forall jobStage : Z,
            match last (List.filter (fun stage => Stage.Index stage =? jobStage)
                          (sort_Slice Stage.t byIndex fetchedStages)) with
            | Some stage => In stage fetchedStages /\ Stage.Index stage = jobStage
            | None => Forall (fun stage => Stage.Index stage <> jobStage) fetchedStages
            end).
Proof.
  intros H e He. unfold computeState in H.
  apply IO_bind_inv in H as (apps & w1 & _ & H).
  apply IO_bind_inv in H as (es & w2 & Hes & H). injection H as <- <-.
  apply enrichApps_Ret in Hes as [_ Hall].
  rewrite List.Forall_forall in Hall. destruct (Hall e He) as (wa & wc & Happ).
  unfold enrichApp, getJobs, getStages in Happ.
  apply IO_bind_inv in Happ as (jobs & w3 & Hj & Happ).
  apply IO_bind_inv in Happ as (stages & w4 & Hs & Happ).
  apply IO_bind_inv in Hs as (fetchedStages & w5 & Hs & [= <- <-]).
  injection Happ as <- <-. cbn [EnrichedApplication.App EnrichedApplication.Jobs].
  exists fetchedStages, w3, w5. split; [exact Hs |]. split.
  - intros job Hin. apply in_map_iff in Hin as (j & <- & _).
    cbn [enrichJob EnrichedJob.Stages EnrichedJob.Job].
    apply map_ext. intros jobStage. unfold map_index.
    now rewrite stagesMap_lookup_last.
  - intros Hsort jobStage. destruct (Hsort Stage.t Stage.Index fetchedStages) as [Hp _].
    rewrite <- stagesMap_lookup_last.
    destruct (stagesMap (sort_Slice Stage.t byIndex fetchedStages) !! jobStage)
      as [stage|] eqn:E.
    + apply stagesMap_lookup_Some in E as [Hin Hi]. split; [| exact Hi].
      eapply Permutation_in; [symmetry; exact Hp | exact Hin].
    + apply stagesMap_lookup_None in E. rewrite List.Forall_forall in *.
      intros stage Hin. apply E. eapply Permutation_in; [exact Hp | exact Hin].
Qed.

End Requests.

Lemma computeState_requests_witness :
  exists state w',
    Demo.computeState Demo.host Demo.start = Ret (state, w')
    /\ trace w'
       = [EvGet "http://localhost:4040/api/v1/applications";
          EvGet "http://localhost:4040/api/v1/applications/local-1/jobs";
          EvGet "http://localhost:4040/api/v1/applications/local-1/stages"].
Proof.
  destruct (Demo.computeState Demo.host Demo.start) as [[state w']| |] eqn:E;
    try (vm_compute in E; discriminate).
  exists state, w'. split; [reflexivity |].
  destruct (computeState_requests _ _ _ _ _ _ _ _ _ _ _ _ E) as [-> _].
  vm_compute in E. now injection E as <- _.
Defined.

Lemma resolved_stage_is_last_of_sorted_witness :
  exists state w' e job0 job1,
    Demo.computeState Demo.host Demo.start = Ret (state, w')
    /\ State.Apps state = [e]
    /\ EnrichedApplication.Jobs e = [job0; job1]
    /\ exists fetchedStages,
         EnrichedJob.Stages job1
         = map (fun jobStage =>
                  default Stage.zero
                    (last (List.filter (fun stage => Stage.Index stage =? jobStage)
                             (Demo.insertionSort Stage.t
                                (fun a b => Stage.Index a <? Stage.Index b) fetchedStages))))
             (Job.Stages (EnrichedJob.Job job1)).
Proof.
  destruct (Demo.computeState Demo.host Demo.start) as [[state w']| |] eqn:E;
    try (vm_compute in E; discriminate).
  assert (Hs : exists e job0 job1,
             State.Apps state = [e] /\ EnrichedApplication.Jobs e = [job0; job1]).
  { vm_compute in E. injection E as <- <-. do 3 eexists. split; reflexivity. }
  destruct Hs as (e & job0 & job1 & Ea & Ej).
  exists state, w', e, job0, job1. split; [reflexivity |]. split; [exact Ea |].
  split; [exact Ej |]. unfold Demo.computeState in E.
  destruct (resolved_stage_is_last_of_sorted _ _ _ _ _ _ _ _ _ _ _ _ E e)
    as (fetchedStages & wa & wb & _ & Hres & _); [rewrite Ea; now left |].
  exists fetchedStages. apply Hres. rewrite Ej. right. now left.
Defined.

(* ================================================================== *)
(** * More on the event loop *)

Section Loop.

Variable arch : float64 -> Z.
Variable W : Type.
Variable Response : Type.
Variable http_Get : string -> W -> (string + Response) * W.
Variable ioutil_ReadAll : Response -> W -> (string + string) * W.
Variable Unmarshal_apps :
  string -> list ApplicationIdAndName.t -> string + list ApplicationIdAndName.t.
Variable Unmarshal_jobs : string -> list Job.t -> string + list Job.t.
Variable Unmarshal_stages : string -> list Stage.t -> string + list Stage.t.
Variable sort_Slice : forall A : Type, (A -> A -> bool) -> list A -> list A.
Variable ui_Init : W -> option string * W.
Variable ui_TerminalDimensions : W -> Z * Z.

Abbreviation computeState' :=
  (computeState W Response http_Get ioutil_ReadAll
     Unmarshal_apps Unmarshal_jobs Unmarshal_stages sort_Slice).
Abbreviation iteration' :=
  (iteration arch W Response http_Get ioutil_ReadAll
     Unmarshal_apps Unmarshal_jobs Unmarshal_stages sort_Slice).
Abbreviation loop' :=
  (loop arch W Response http_Get ioutil_ReadAll
     Unmarshal_apps Unmarshal_jobs Unmarshal_stages sort_Slice).
Abbreviation main' :=
  (main arch W Response http_Get ioutil_ReadAll
     Unmarshal_apps Unmarshal_jobs Unmarshal_stages sort_Slice
     ui_Init ui_TerminalDimensions).

(** The state a loop holds is the one it started with or one that
    [computeState] returned for the host. *)
Abbreviation fetched host h h' :=
  (state h' = state h \/ exists wa wb, computeState' host wa = Ret (state h', wb)).

Lemma computeState_Host (host : string) (w w' : World W) (st : State.t) :
  computeState' host w = Ret (st, w') -> State.Host st = host.
Proof.
  intros H.
  destruct (computeState_cases W Response http_Get ioutil_ReadAll Unmarshal_apps
              Unmarshal_jobs Unmarshal_stages sort_Slice host w) as (_ & _ & _ & _ & Hc).
  now destruct (Hc st w' H) as [Hh _].
Qed.

Lemma render_Ret (width height : Z) (st : State.t) (w w' : World W) (u : unit) :
  render arch W width height st w = Ret (u, w') ->
  exists ds, layout arch width height st = Ret ds
             /\ w' = mkWorld (net w) (trace w ++ [EvClear; EvRender ds]).
Proof.
  rewrite render_cases. destruct (layout arch width height st) as [ds| |]; try discriminate.
  intros [= _ <-]. eauto.
Qed.

Lemma refresh_Some (host : string) (h : Held) (w w' : World W) (r : option Held) :
  (st ← computeState' host;
   render arch W (termWidth h) (termHeight h) st;;
   mret (Some (mkHeld st (termWidth h) (termHeight h)))) w = Ret (r, w') ->
  exists h', r = Some h'
    /\ termWidth h' = termWidth h /\ termHeight h' = termHeight h
    /\ (exists wa wb, computeState' host wa = Ret (state h', wb))
    /\ shows arch h' w'.
Proof.
  intros H. apply IO_bind_inv in H as (st & w1 & H1 & H).
  apply IO_bind_inv in H as (u & w2 & H2 & [= <- <-]).
  apply render_Ret in H2 as (ds & Hl & ->).
  eexists. split; [reflexivity |]. cbn [termWidth termHeight state].
  repeat split; [eauto |]. exists (trace w1), ds. split; [reflexivity | exact Hl].
Qed.

Lemma iteration_Some (host : string) (wakeup : Wakeup) (h h' : Held) (w w' : World W) :
  iteration' host wakeup h w = Ret (Some h', w') ->
  quits wakeup = false
  /\ (termWidth h', termHeight h') = resized (termWidth h, termHeight h) wakeup
  /\ fetched host h h'
  /\ (shows arch h w -> shows arch h' w').
Proof.
  destruct wakeup as [e|]; cbn [iteration quits resized].
  - destruct (String.eqb_spec (ID e) "r") as [Er|Er].
    + intros H. apply refresh_Some in H as (h1 & [= <-] & Hw & Hh & Hf & Hs).
      rewrite Er, Hw, Hh. cbn. repeat split; [now right | now intros _].
    + destruct (String.eqb (ID e) "q" || String.eqb (ID e) "<C-c>") eqn:Eq;
        [discriminate |].
      destruct (String.eqb (ID e) "<Resize>") eqn:Ez.
      * destruct (payload e) as [Width Height|]; [| discriminate].
        intros H. apply IO_bind_inv in H as (u & w1 & H1 & [= <- <-]).
        apply render_Ret in H1 as (ds & Hl & ->).
        repeat split; [now left |]. intros _.
        exists (trace w), ds. split; [reflexivity | exact Hl].
      * intros [= <- <-]. repeat split; [now left | tauto].
  - intros H. apply refresh_Some in H as (h1 & [= <-] & Hw & Hh & Hf & Hs).
    rewrite Hw, Hh. repeat split; [now right | now intros _].
Qed.

Lemma iteration_None (host : string) (wakeup : Wakeup) (h : Held) (w w' : World W) :
  iteration' host wakeup h w = Ret (None, w') -> quits wakeup = true /\ w' = w.
Proof.
  destruct wakeup as [e|]; cbn [iteration quits].
  - destruct (String.eqb (ID e) "r").
    + intros H. now apply refresh_Some in H as (h1 & [=] & _).
    + destruct (String.eqb (ID e) "q" || String.eqb (ID e) "<C-c>");
        [now intros [= <-] |].
      destruct (String.eqb (ID e) "<Resize>"); [| discriminate].
      destruct (payload e) as [Width Height|]; [| discriminate].
      intros H. now apply IO_bind_inv in H as (u & w1 & _ & [=]).
  - intros H. now apply refresh_Some in H as (h1 & [=] & _).
Qed.

Lemma loop_cons (host : string) (wakeup : Wakeup) (rest : list Wakeup) (h : Held)
    (w : World W) :
  loop' host (wakeup :: rest) h w =
  match iteration' host wakeup h w with
  | Ret (Some h', w') => loop' host rest h' w'
  | Ret (None, w') => Ret (None, w')
  | Panic msg => Panic msg
  | Fatal msg => Fatal msg
  end.
Proof.
  cbn [loop]. unfold mbind, IO_bind.
  now destruct (iteration' host wakeup h w) as [[[h'|] w']| |].
Qed.

Lemma loop_Some (host : string) (wakeups : list Wakeup) :
  forall (h h' : Held) (w w' : World W),
  loop' host wakeups h w = Ret (Some h', w') ->
  forallb (fun wakeup => negb (quits wakeup)) wakeups = true
  /\ (termWidth h', termHeight h') = fold_left resized wakeups (termWidth h, termHeight h)
  /\ fetched host h h'
  /\ (shows arch h w -> shows arch h' w').
Proof.
  induction wakeups as [|wakeup rest IH]; intros h h' w w' H.
  - injection H as <- <-. repeat split; [now left | tauto].
  - rewrite loop_cons in H.
    destruct (iteration' host wakeup h w) as [[[h1|] w1]| |] eqn:E; try discriminate.
    apply iteration_Some in E as (Hq & Hd & Hf & Hs).
    apply IH in H as (Hq' & Hd' & Hf' & Hs').
    cbn [forallb fold_left]. rewrite Hq, <- Hd. repeat split; try assumption.
    + destruct Hf' as [Hf'|Hf']; [| now right].
      rewrite Hf'. exact Hf.
    + tauto.
Qed.

Lemma loop_None (host : string) (wakeups : list Wakeup) :
  forall (h : Held) (w w' : World W),
  loop' host wakeups h w = Ret (None, w') ->
  existsb quits wakeups = true
  /\ (shows arch h w -> exists pre ds, trace w' = pre ++ [EvClear; EvRender ds]).
Proof.
  induction wakeups as [|wakeup rest IH]; intros h w w' H; [discriminate |].
  rewrite loop_cons in H. cbn [existsb].
  destruct (iteration' host wakeup h w) as [[[h1|] w1]| |] eqn:E; try discriminate.
  - apply iteration_Some in E as (_ & _ & _ & Hs).
    apply IH in H as (Hq & Hs'). rewrite Hq, orb_true_r. split; [reflexivity | tauto].
  - apply iteration_None in E as (-> & ->). injection H as <-.
    split; [reflexivity |]. intros (pre & ds & Ht & _). eauto.
Qed.

(** Handling a sequence of wake-ups and then another is handling the
    first, and then the second from what the first left. *)
Lemma loop_app (host : string) (wakeups wakeups' : list Wakeup) (h : Held)
    (w : World W) :
  loop' host (wakeups ++ wakeups') h w =
  match loop' host wakeups h w with
  | Ret (Some h', w') => loop' host wakeups' h' w'
  | Ret (None, w') => Ret (None, w')
  | Panic msg => Panic msg
  | Fatal msg => Fatal msg
  end.
Proof.
  revert h w. induction wakeups as [|wakeup rest IH]; intros h w; [reflexivity |].
  rewrite <- app_comm_cons, !loop_cons.
  destruct (iteration' host wakeup h w) as [[[h1|] w1]| |]; try reflexivity.
  apply IH.
Qed.

Lemma iteration_quit (host : string) (e : Event) (h : Held) (w : World W) :
  ID e = "q" \/ ID e = "<C-c>" -> iteration' host (uiEvents e) h w = Ret (None, w).
Proof. intros [H|H]; unfold iteration; rewrite H; reflexivity. Qed.

Lemma iteration_other (host : string) (e : Event) (h : Held) (w : World W) :
  ID e <> "r" -> ID e <> "q" -> ID e <> "<C-c>" -> ID e <> "<Resize>" ->
  iteration' host (uiEvents e) h w = Ret (Some h, w).
Proof.
  intros Hr Hq Hc Hz. unfold iteration.
  apply String.eqb_neq in Hr, Hq, Hc, Hz. now rewrite Hr, Hq, Hc, Hz.
Qed.

(** X18. Nothing is handled after a quit key: whatever wake-ups follow
    it, refreshes and resize events among them, the process ends as the
    wake-ups before the key left it, with no further request and no
    further drawing. And an event that is none of [r], [q], [<C-c>] and
    [<Resize>] can be left out of the wake-ups, wherever it stands: the
    run is the same without it. *)
Theorem wakeups_that_do_not_count
    (host : string) (before after : list Wakeup) (e : Event) (h : Held) (w : World W) :
  (ID e = "q" \/ ID e = "<C-c>" ->
   loop' host (before ++ uiEvents e :: after) h w =
   match loop' host before h w with
   | Ret (_, w') => Ret (None, w')
   | Panic msg => Panic msg
   | Fatal msg => Fatal msg
   end)
  /\ (ID e <> "r" -> ID e <> "q" -> ID e <> "<C-c>" -> ID e <> "<Resize>" ->
      loop' host (before ++ uiEvents e :: after) h w = loop' host (before ++ after) h w).
Proof.
  split.
  - intros Hq. rewrite loop_app.
    destruct (loop' host before h w) as [[[h1|] w1]| |]; try reflexivity.
    rewrite loop_cons. now rewrite iteration_quit.
  - intros Hr Hq Hc Hz. rewrite !loop_app.
    destruct (loop' host before h w) as [[[h1|] w1]| |]; try reflexivity.
    rewrite loop_cons. now rewrite iteration_other.
Qed.

(** X19. While the loop runs, the size it holds is the size it started
    with, changed by the resize events in their order: the last resize
    event decides. The state it holds is the one it started with or one
    that [computeState] returned for the host, so it names the host when
    the first one did. No wake-up handled so far was a quit key. *)
Theorem loop_holds
    (host : string) (wakeups : list Wakeup) (h h' : Held) (w w' : World W) :
  loop' host wakeups h w = Ret (Some h', w') ->
  (termWidth h', termHeight h') = fold_left resized wakeups (termWidth h, termHeight h)
  /\ (state h' = state h \/ exists wa wb, computeState' host wa = Ret (state h', wb))
  /\ (State.Host (state h) = host -> State.Host (state h') = host)
  /\ forallb (fun wakeup => negb (quits wakeup)) wakeups = true.
Proof.
  intros H. apply loop_Some in H as (Hq & Hd & Hf & _).
  repeat split; try assumption.
  intros Hh. destruct Hf as [->|(wa & wb & Hc)]; [exact Hh |].
  now apply computeState_Host in Hc.
Qed.

(** X20. When [main] is waiting for the next wake-up, the screen shows
    what it holds: the last things it did were a [ui.Clear] and the
    [ui.Render] of the layout of the held state at the held size; the
    held state names the host of the command line, and no wake-up so far
    was a quit key. When [main] has returned, a quit key was among the
    wake-ups and the last thing it did, after the last drawing, was to
    close the terminal. *)
Theorem main_shows_what_it_holds
    (Args : list string) (wakeups : list Wakeup) (w w' : World W) (r : option Held) :
  main' Args wakeups w = Ret (r, w') ->
  match r with
  | Some h =>
      shows arch h w'
      /\ State.Host (state h) = hostArg Args
      /\ forallb (fun wakeup => negb (quits wakeup)) wakeups = true
  | None =>
      existsb quits wakeups = true
      /\ exists pre ds, trace w' = pre ++ [EvClear; EvRender ds; EvClose]
  end.
Proof.
  unfold main. intros H. apply IO_bind_inv in H as (i & w0 & _ & H).
  destruct i as [err|]; [discriminate |]. fold (hostArg Args) in H.
  apply IO_bind_inv in H as (st & w1 & H1 & H).
  apply IO_bind_inv in H as ([width height] & w2 & Hd & H).
  apply IO_bind_inv in H as (u & w3 & H3 & H).
  apply IO_bind_inv in H as (r' & w4 & H4 & H).
  apply render_Ret in H3 as (ds & Hl & ->).
  assert (Hs : shows arch (mkHeld st width height)
                 (mkWorld (net w2) (trace w2 ++ [EvClear; EvRender ds])))
    by (exists (trace w2), ds; split; [reflexivity | exact Hl]).
  apply computeState_Host in H1 as Hh.
  destruct r' as [h|].
  - injection H as <- <-. apply loop_Some in H4 as (Hq & _ & Hf & Hs').
    split; [tauto |]. split; [| exact Hq].
    destruct Hf as [->|(wa & wb & Hc)]; [exact Hh |].
    now apply computeState_Host in Hc.
  - apply IO_bind_inv in H as (u' & w5 & H5 & [= <- <-]).
    injection H5 as _ <-. apply loop_None in H4 as (Hq & Hs').
    split; [exact Hq |]. destruct (Hs' Hs) as (pre & ds' & Ht).
    exists pre, ds'. cbn [trace]. rewrite Ht, <- app_assoc. reflexivity.
Qed.

End Loop.

Lemma loop_holds_witness :
  exists h' w',
    loop amd64 Demo.W Demo.Response Demo.http_Get Demo.ioutil_ReadAll
      Demo.Unmarshal_apps Demo.Unmarshal_jobs Demo.Unmarshal_stages Demo.insertionSort
      Demo.host
      [uiEvents (mkEvent "<Resize>" (Resize 40 10)); ticker;
       uiEvents (mkEvent "<Resize>" (Resize 60 20)); uiEvents (mkEvent "x" OtherPayload)]
      (mkHeld Sample.state 80 24) Demo.start
    = Ret (Some h', w')
    /\ (termWidth h', termHeight h') = (60, 20).
Proof.
  destruct (loop amd64 Demo.W Demo.Response Demo.http_Get Demo.ioutil_ReadAll
              Demo.Unmarshal_apps Demo.Unmarshal_jobs Demo.Unmarshal_stages
              Demo.insertionSort Demo.host
              [uiEvents (mkEvent "<Resize>" (Resize 40 10)); ticker;
               uiEvents (mkEvent "<Resize>" (Resize 60 20));
               uiEvents (mkEvent "x" OtherPayload)]
              (mkHeld Sample.state 80 24) Demo.start)
    as [[[h'|] w']| |] eqn:E; try (vm_compute in E; discriminate).
  exists h', w'. split; [reflexivity |].
  exact (proj1 (loop_holds _ _ _ _ _ _ _ _ _ _ _ _ _ _ _ E)).
Defined.

Lemma main_shows_what_it_holds_witness :
  exists h w',
    Demo.main ["sparkmon"] [uiEvents (mkEvent "<Resize>" (Resize 40 10)); ticker] Demo.start
    = Ret (Some h, w')
    /\ shows amd64 h w'
    /\ State.Host (state h) = "http://localhost:4040".
Proof.
  destruct (Demo.main ["sparkmon"]
              [uiEvents (mkEvent "<Resize>" (Resize 40 10)); ticker] Demo.start)
    as [[[h|] w']| |] eqn:E; try (vm_compute in E; discriminate).
  exists h, w'. split; [reflexivity |]. unfold Demo.main in E.
  destruct (main_shows_what_it_holds amd64 Demo.W Demo.Response Demo.http_Get
              Demo.ioutil_ReadAll Demo.Unmarshal_apps Demo.Unmarshal_jobs
              Demo.Unmarshal_stages Demo.insertionSort Demo.ui_Init
              Demo.ui_TerminalDimensions _ _ _ _ _ E) as (Hs & Hh & _).
  split; [exact Hs | exact Hh].
Defined.

Lemma wakeups_that_do_not_count_witness :
  exists w',
    loop amd64 Demo.W Demo.Response Demo.http_Get Demo.ioutil_ReadAll
      Demo.Unmarshal_apps Demo.Unmarshal_jobs Demo.Unmarshal_stages Demo.insertionSort
      Demo.host
      ([uiEvents (mkEvent "<Resize>" (Resize 40 10))]
         ++ uiEvents (mkEvent "q" OtherPayload)
         :: [ticker; uiEvents (mkEvent "<Resize>" (Resize 2 2))])
      (mkHeld Sample.state 80 24) Demo.start
    = Ret (None, w')
    /\ length (trace w') = 2%nat.
Proof.
  destruct (wakeups_that_do_not_count amd64 Demo.W Demo.Response Demo.http_Get
              Demo.ioutil_ReadAll Demo.Unmarshal_apps Demo.Unmarshal_jobs
              Demo.Unmarshal_stages Demo.insertionSort Demo.host
              [uiEvents (mkEvent "<Resize>" (Resize 40 10))]
              [ticker; uiEvents (mkEvent "<Resize>" (Resize 2 2))]
              (mkEvent "q" OtherPayload) (mkHeld Sample.state 80 24) Demo.start)
    as [Hquit _].
  rewrite Hquit by now left.
  destruct (loop amd64 Demo.W Demo.Response Demo.http_Get Demo.ioutil_ReadAll
              Demo.Unmarshal_apps Demo.Unmarshal_jobs Demo.Unmarshal_stages
              Demo.insertionSort Demo.host
              [uiEvents (mkEvent "<Resize>" (Resize 40 10))]
              (mkHeld Sample.state 80 24) Demo.start)
    as [[r w1]| |] eqn:E; try (vm_compute in E; discriminate).
  exists w1. split; [reflexivity |].
  vm_compute in E. now injection E as _ <-.
Defined.

(* ================================================================== *)
(** * A refresh *)

Section Refresh.

Variable arch : float64 -> Z.
Variable W : Type.
Variable Response : Type.
Variable http_Get : string -> W -> (string + Response) * W.
Variable ioutil_ReadAll : Response -> W -> (string + string) * W.
Variable Unmarshal_apps :
  string -> list ApplicationIdAndName.t -> string + list ApplicationIdAndName.t.
Variable Unmarshal_jobs : string -> list Job.t -> string + list Job.t.
Variable Unmarshal_stages : string -> list Stage.t -> string + list Stage.t.
Variable sort_Slice : forall A : Type, (A -> A -> bool) -> list A -> list A.

Abbreviation computeState' :=
  (computeState W Response http_Get ioutil_ReadAll
     Unmarshal_apps Unmarshal_jobs Unmarshal_stages sort_Slice).
Abbreviation iteration' :=
  (iteration arch W Response http_Get ioutil_ReadAll
     Unmarshal_apps Unmarshal_jobs Unmarshal_stages sort_Slice).

(** X21. On the timer and on the key [r] the loop fetches a new state
    and draws it at the size it holds; it goes on holding the new state,
    nothing of the old one, and the same size. The requests of the fetch
    come before the [ui.Clear] and the [ui.Render]; when the fetch fails
    or the layout pass panics the process ends and nothing is drawn. *)
Theorem refresh_replaces_the_state
    (host : string) (wakeup : Wakeup) (h : Held) (w : World W) :
  refresh wakeup ->
  iteration' host wakeup h w =
  match computeState' host w with
  | Ret (st, w1) =>
      match layout arch (termWidth h) (termHeight h) st with
      | Ret drawables =>
          Ret (Some (mkHeld st (termWidth h) (termHeight h)),
               mkWorld (net w1) (trace w1 ++ [EvClear; EvRender drawables]))
      | Panic msg => Panic msg
      | Fatal msg => Fatal msg
      end
  | Panic msg => Panic msg
  | Fatal msg => Fatal msg
  end.
Proof.
  intros Hr.
  assert (E : iteration' host wakeup h w =
              (st ← computeState' host;
               render arch W (termWidth h) (termHeight h) st;;
               mret (Some (mkHeld st (termWidth h) (termHeight h)))) w).
  { destruct Hr as [->|(p & ->)]; reflexivity. }
  rewrite E. unfold mbind at 1. unfold IO_bind at 1.
  destruct (computeState' host w) as [[st w1]| |]; try reflexivity.
  unfold mbind, IO_bind. rewrite render_cases.
  destruct (layout arch (termWidth h) (termHeight h) st); reflexivity.
Qed.

End Refresh.

Lemma refresh_replaces_the_state_witness :
  exists st w1 ds,
    Demo.computeState Demo.host Demo.start = Ret (st, w1)
    /\ layout amd64 80 24 st = Ret ds
    /\ Demo.iteration Demo.host ticker (mkHeld Sample.bareState 80 24) Demo.start
       = Ret (Some (mkHeld st 80 24),
              mkWorld (net w1) (trace w1 ++ [EvClear; EvRender ds])).
Proof.
  destruct (Demo.computeState Demo.host Demo.start) as [[st w1]| |] eqn:E;
    try (vm_compute in E; discriminate).
  destruct (layout amd64 80 24 st) as [ds| |] eqn:El;
    try (vm_compute in E; injection E as <- _; vm_compute in El; discriminate).
  exists st, w1, ds. split; [reflexivity |]. split; [exact El |].
  unfold Demo.iteration, Demo.computeState in *.
  rewrite (refresh_replaces_the_state amd64 Demo.W Demo.Response Demo.http_Get
             Demo.ioutil_ReadAll Demo.Unmarshal_apps Demo.Unmarshal_jobs
             Demo.Unmarshal_stages Demo.insertionSort Demo.host ticker
             (mkHeld Sample.bareState 80 24) Demo.start (or_introl eq_refl)).
  rewrite E. cbn [termWidth termHeight]. rewrite El. reflexivity.
Defined.
